(** * Solara simulation: the physics core, embedded and verified

    A shallow embedding of the physics package of the simulator
    ([physics/nbody.py], [physics/pn1.py], [physics/diagnostics.py],
    [physics/elements.py], [physics/osculating.py], with [constants.py],
    [model/body.py] and [model/system.py]) and of the potential of
    [viz/surface.py].

    Conventions of the embedding.
    - Python floats and NumPy float64 scalars are read as exact real
      numbers ([R]); NumPy arrays of shape (3,) are read as [vec].  Every
      statement below is therefore a statement in exact arithmetic.
    - A Python list of [Body] objects is a [list Body].  The entries are
      taken to be distinct objects, each owning its own arrays, as
      [Body.__init__] builds them; updating [bodies[i].acc] in place is
      [alter] at index [i].
    - Exceptional outcomes are explicit: a computation returns [Ok v] or
      [Raise e].  Every [/] of the source is the checked division [/?],
      which stops with [ZeroDivisionError] on a denominator that is exactly
      zero (Python floats raise there, NumPy scalars produce inf or nan with
      a RuntimeWarning: exact arithmetic has no value for either). *)

From Stdlib Require Import Reals Lra Lia Psatz String RNsatz.
From stdpp Require Import base list strings gmap.

Open Scope R_scope.

(** ** Decisions on real numbers *)

#[global] Instance R_eq_dec : EqDecision R := Req_dec_T.
#[global] Instance Rlt_decision (x y : R) : Decision (x < y) := Rlt_dec x y.
#[global] Instance Rgt_decision (x y : R) : Decision (x > y) := Rgt_dec x y.
#[global] Instance Rle_decision (x y : R) : Decision (x <= y) := Rle_dec x y.

(** ** Exceptions *)

Inductive exception : Type :=
  | IndexError
  | ZeroDivisionError
  | ValueError.

Inductive result (A : Type) : Type :=
  | Ok (a : A)
  | Raise (e : exception).

Arguments Ok {A} a.
Arguments Raise {A} e.

#[global] Instance result_ret : MRet result := fun A a => Ok a.
#[global] Instance result_bind : MBind result := fun A B f m =>
  match m with
  | Ok a => f a
  | Raise e => Raise e
  end.

(** [x / y] of the source. *)
Definition checked_div (x y : R) : result R :=
  if decide (y = 0) then Raise ZeroDivisionError else Ok (x / y).

Infix "/?" := checked_div (at level 40, left associativity).

(** [xs[i]] of the source, for a natural index. *)
Definition get {A : Type} (xs : list A) (i : nat) : result A :=
  match xs !! i with
  | Some x => Ok x
  | None => Raise IndexError
  end.

(** [range(a, b)]. *)
Definition range (a b : nat) : list nat := seq a (b - a).

(** [for x in xs: s = body(x, s)], stopping at the first exception. *)
Fixpoint for_each {S A : Type} (xs : list A) (body : A -> S -> result S)
    (s : S) : result S :=
  match xs with
  | [] => Ok s
  | x :: xs' => s' ← body x s; for_each xs' body s'
  end.

(** ** Three-component arrays *)

Record vec : Type := V3 { vx : R; vy : R; vz : R }.

#[global] Instance vec_eq_dec : EqDecision vec.
Proof. solve_decision. Defined.

Definition vzero : vec := V3 0 0 0.
Definition vadd (a b : vec) : vec := V3 (vx a + vx b) (vy a + vy b) (vz a + vz b).
Definition vsub (a b : vec) : vec := V3 (vx a - vx b) (vy a - vy b) (vz a - vz b).
Definition smul (k : R) (a : vec) : vec := V3 (k * vx a) (k * vy a) (k * vz a).
(** array * scalar, as in [rij * inv_r3] *)
Definition vmuls (a : vec) (k : R) : vec := V3 (vx a * k) (vy a * k) (vz a * k).
(** [np.dot] *)
Definition dot (a b : vec) : R := vx a * vx b + vy a * vy b + vz a * vz b.
(** [np.cross] *)
Definition cross (a b : vec) : vec :=
  V3 (vy a * vz b - vz a * vy b)
     (vz a * vx b - vx a * vz b)
     (vx a * vy b - vy a * vx b).
(** [np.linalg.norm] *)
Definition norm (a : vec) : R := sqrt (dot a a).

Declare Scope vec_scope.
Delimit Scope vec_scope with V.
Infix "+v" := vadd (at level 50, left associativity) : vec_scope.
Infix "-v" := vsub (at level 50, left associativity) : vec_scope.
Infix "*v" := smul (at level 40, left associativity) : vec_scope.
Infix "v*" := vmuls (at level 40, left associativity) : vec_scope.
Open Scope vec_scope.

Definition vsum (l : list vec) : vec := foldr vadd vzero l.
Definition Rsum (l : list R) : R := foldr Rplus 0 l.

(** [array / scalar], component by component. *)
Definition vdivs (a : vec) (k : R) : result vec :=
  x ← vx a /? k; y ← vy a /? k; z ← vz a /? k; Ok (V3 x y z).

(** [a % b] on Python integers: the remainder takes the sign of the
    divisor, as [Z.modulo] does, and a zero divisor raises. *)
Definition checked_mod (a b : Z) : result Z :=
  if decide (b = 0%Z) then Raise ZeroDivisionError else Ok (a mod b)%Z.

(** ** constants.py *)

Definition AU_IN_METERS : R := 149597870700.
Definition DAY_IN_SECONDS : R := 86400.
Definition DAYS_PER_YEAR : R := 365.25.
Definition SECONDS_PER_YEAR : R := DAY_IN_SECONDS * DAYS_PER_YEAR.
Definition C_SI : R := 299792458.
Definition G : R := 4 * PI ^ 2.
Definition C_AU_PER_YR : R := C_SI * SECONDS_PER_YEAR / AU_IN_METERS.
Definition DT : R := 0.001.
Definition EPS_ACCEL : R := 1e-5.
Definition ENABLE_1PN_DEFAULT : bool := true.

(** ** model/body.py

    The colour and the trail of a body are display data that the physics
    never reads or writes; they are left out. *)

Record Body : Type := mkBody {
  name : string;
  mass : R;
  radius : R;
  pos : vec;
  vel : vec;
  acc : vec
}.

Definition set_pos (b : Body) (p : vec) : Body :=
  mkBody (name b) (mass b) (radius b) p (vel b) (acc b).
Definition set_vel (b : Body) (v : vec) : Body :=
  mkBody (name b) (mass b) (radius b) (pos b) v (acc b).
Definition set_acc (b : Body) (a : vec) : Body :=
  mkBody (name b) (mass b) (radius b) (pos b) (vel b) a.

(** [b.acc += a] *)
Definition add_acc (a : vec) (b : Body) : Body := set_acc b (acc b +v a).

(** ** model/body.py: the methods of [Body] *)

Module body.

(** [Body.get_kinetic_energy] *)
Definition get_kinetic_energy (self : Body) : R :=
  0.5 * mass self * dot (vel self) (vel self).

(** [Body.get_momentum] *)
Definition get_momentum (self : Body) : vec := mass self *v vel self.

(** [Body.get_angular_momentum(origin=None)] *)
Definition get_angular_momentum (self : Body) (origin : option vec) : vec :=
  let r := match origin with
           | None => pos self
           | Some o => pos self -v o
           end in
  mass self *v cross r (vel self).

(** [Body.distance_to] *)
Definition distance_to (self other : Body) : R := norm (pos self -v pos other).

(** [Body.add_trail_point]; [trail] is the list that the body carries
    beside its state, which nothing else in the body reads. *)
Definition add_trail_point (self : Body) (trail : list vec) (decimation : Z)
    : result (list vec) :=
  m ← checked_mod (Z.of_nat (length trail)) decimation;
  if decide (m = 0%Z) then Ok (trail ++ [pos self]) else Ok trail.

End body.

(** ** physics/pn1.py *)

Module pn1.

(** The body of the loop of [compute_pn_accelerations], for one body [b]
    and the central body [sun]: the value of [correction]. *)
Definition correction (sun b : Body) : result vec :=
  let M := mass sun in
  let r_vec := pos b -v pos sun in
  let v_vec := vel b -v vel sun in
  let r2 := dot r_vec r_vec + EPS_ACCEL ^ 2 in
  let r := sqrt r2 in
  let v2 := dot v_vec v_vec in
  let rv := dot r_vec v_vec in
  factor ← (G * M) /? (C_AU_PER_YR ^ 2 * r ^ 3);
  q ← (4 * G * M) /? r;
  Ok (factor *v (((q - v2) *v r_vec) +v ((4 * rv) *v v_vec))).

Definition compute_pn_accelerations (bodies : list Body) : result (list Body) :=
  sun ← get bodies 0;
  for_each (range 1 (length bodies))
    (fun k bodies =>
       b ← get bodies k;
       c ← correction sun b;
       Ok (alter (add_acc c) k bodies))
    bodies.

End pn1.

(** ** physics/nbody.py *)

Module nbody.

(** One iteration of the inner loop of [compute_accelerations]. *)
Definition pair_update (i j : nat) (bodies : list Body) : result (list Body) :=
  bj ← get bodies j;
  bi ← get bodies i;
  let rij := pos bj -v pos bi in
  let dist2 := dot rij rij + EPS_ACCEL ^ 2 in
  let dist := sqrt dist2 in
  inv_r3 ← 1 /? (dist2 * dist);
  let ai := ((G * mass bj) *v rij) v* inv_r3 in
  let aj := ((- G * mass bi) *v rij) v* inv_r3 in
  Ok (alter (add_acc aj) j (alter (add_acc ai) i bodies)).

Definition compute_accelerations (bodies : list Body) : result (list Body) :=
  let n := length bodies in
  let bodies : list Body := (fun b => set_acc b vzero) <$> bodies in
  for_each (range 0 n)
    (fun i bodies =>
       for_each (range (i + 1) n) (fun j bodies => pair_update i j bodies) bodies)
    bodies.

(** [b.vel += 0.5 * b.acc * dt] *)
Definition half_kick (dt : R) (b : Body) : Body :=
  set_vel b (vel b +v ((0.5 *v acc b) v* dt)).

(** [b.pos += b.vel * dt] *)
Definition drift (dt : R) (b : Body) : Body :=
  set_pos b (pos b +v (vel b v* dt)).

Definition step_system (bodies : list Body) (dt : R) (use_relativity : bool)
    : result (list Body) :=
  let bodies : list Body := half_kick dt <$> bodies in
  let bodies : list Body := drift dt <$> bodies in
  bodies ← compute_accelerations bodies;
  bodies ← (if use_relativity then pn1.compute_pn_accelerations bodies
            else Ok bodies);
  Ok (half_kick dt <$> (bodies : list Body)).

(** [for _ in range(N): step_system(bodies, dt, use_relativity)] *)
Fixpoint run (N : nat) (dt : R) (use_relativity : bool) (bodies : list Body)
    : result (list Body) :=
  match N with
  | O => Ok bodies
  | S N' => bodies' ← step_system bodies dt use_relativity;
            run N' dt use_relativity bodies'
  end.

End nbody.

(** ** physics/diagnostics.py *)

Module diagnostics.

(** One iteration of the inner loop of [total_energy], on the running
    value of [E_pot]. *)
Definition pair_potential (bodies : list Body) (i j : nat) (E_pot : R)
    : result R :=
  bj ← get bodies j;
  bi ← get bodies i;
  let rij := pos bj -v pos bi in
  let dist := norm rij in
  if decide (dist > 0)
  then q ← (G * mass bi * mass bj) /? dist; Ok (E_pot - q)
  else Ok E_pot.

Definition total_energy (bodies : list Body) : result R :=
  let E_kin :=
    foldl (fun E_kin b => E_kin + 0.5 * mass b * dot (vel b) (vel b)) 0 bodies in
  let n := length bodies in
  E_pot ← for_each (range 0 n)
            (fun i E_pot =>
               for_each (range (i + 1) n)
                 (fun j E_pot => pair_potential bodies i j E_pot) E_pot)
            0;
  Ok (E_kin + E_pot).

(** [total_energy] as a transformer of the store: the result together with
    the body list it leaves behind.  The source assigns to no attribute of
    any body and to no list cell. *)
Definition total_energy_call (bodies : list Body) : result (list Body * R) :=
  E ← total_energy bodies; Ok (bodies, E).

(** [for b in bodies: H_vec += b.mass * np.cross(b.pos, b.vel)] *)
Definition total_angular_momentum (bodies : list Body) : vec :=
  foldl (fun H_vec b => H_vec +v mass b *v cross (pos b) (vel b)) vzero bodies.

(** A value of the report dictionary: a float or an array. *)
Inductive report_value : Type :=
  | Float (x : R)
  | Array (v : vec).

Definition diagnostics_report (bodies : list Body) (E0 : option R)
    (H0 : option vec) : result (gmap string report_value) :=
  E ← total_energy bodies;
  let H := total_angular_momentum bodies in
  let report : gmap string report_value :=
    <["H_vec" := Array H]> (<["energy" := Float E]> ∅) in
  report ← match E0 with
           | Some E0 => q ← (E - E0) /? E0;
                        Ok (<["dE/E0" := Float q]> report)
           | None => Ok report
           end;
  match H0 with
  | Some H0 =>
      let dH := norm (H -v H0) in
      q ← dH /? norm H0;
      Ok (<["|dH|/|H0|" := Float q]> report)
  | None => Ok report
  end.

End diagnostics.

(** ** physics/elements.py *)

Module elements.

(** [np.mod(x, d)] for a positive [d]: [x - floor(x / d) * d]. *)
Definition np_mod (x d : R) : R := x - IZR (Int_part (x / d)) * d.

(** [math.atan2] on finite arguments (signed zeros are not distinguished). *)
Definition atan2 (y x : R) : R :=
  if decide (0 < x) then atan (y / x)
  else if decide (x < 0) then
    (if decide (0 <= y) then atan (y / x) + PI else atan (y / x) - PI)
  else if decide (0 < y) then PI / 2
  else if decide (y < 0) then - (PI / 2)
  else 0.

(** [math.acos]: ValueError outside [-1, 1]. *)
Definition math_acos (x : R) : result R :=
  if decide (-1 <= x) then
    if decide (x <= 1) then Ok (acos x) else Raise ValueError
  else Raise ValueError.

(** [math.sqrt] and [np.sqrt]: no real value below zero ([math.sqrt]
    raises ValueError, [np.sqrt] yields nan with a RuntimeWarning). *)
Definition math_sqrt (x : R) : result R :=
  if decide (0 <= x) then Ok (sqrt x) else Raise ValueError.

(** What [math.tan] returns.  No float is an odd multiple of [PI / 2], so
    [math.tan] is total on floats: at the float nearest to [PI / 2], which
    lies just below it, it returns about [1.6e16].  In exact arithmetic the
    argument can be the pole itself, where the tangent has no real value;
    the value is then read as infinite, with the sign that the tangent has
    on the side of the pole nearer to zero (where the nearest float lies,
    for [PI / 2] and for [- PI / 2]). *)
Inductive tangent : Type :=
  | Tangent (t : R)
  | PlusInfinity
  | MinusInfinity.

Definition math_tan (x : R) : tangent :=
  if decide (cos x = 0)
  then (if decide (0 < x) then PlusInfinity else MinusInfinity)
  else Tangent (tan x).

(** [math.atan2(y, x)] for a [y] that [math.tan] returned and a finite
    [x]: an infinite [y] gives [PI / 2] with the sign of [y] (on floats, a
    [y] of the order of [1e16] gives the float nearest to it). *)
Definition atan2_tan (y : tangent) (x : R) : R :=
  match y with
  | Tangent t => atan2 t x
  | PlusInfinity => PI / 2
  | MinusInfinity => - (PI / 2)
  end.

(** The loop of [solve_kepler]: at most [max_iter] Newton steps, leaving
    early once [abs(dE) < tol]. *)
Fixpoint solve_kepler_loop (max_iter : nat) (tol e M E : R) : result R :=
  match max_iter with
  | O => Ok E
  | S k =>
      let f := E - e * sin E - M in
      let fprime := 1 - e * cos E in
      dE ← (- f) /? fprime;
      let E := E + dE in
      if decide (Rabs dE < tol) then Ok E
      else solve_kepler_loop k tol e M E
  end.

Definition solve_kepler (M e tol : R) (max_iter : nat) : result R :=
  let M := np_mod M (2 * PI) in
  let E := if decide (e < 0.8) then M else PI in
  solve_kepler_loop max_iter tol e M E.

(** The defaults [tol=1e-10, max_iter=50]. *)
Definition solve_kepler_default (M e : R) : result R :=
  solve_kepler M e 1e-10 50.

(** The local helpers of [elements_to_state]. *)
Definition kepler (E M e : R) : R := E - e * sin E - M.
Definition kepler_prime (E e : R) : R := 1 - e * cos E.

(** [for _ in range(iters): E -= kepler(E, M, e) / kepler_prime(E, e)] *)
Fixpoint newton_raphson (iters : nat) (M e E : R) : result R :=
  match iters with
  | O => Ok E
  | S k => q ← kepler E M e /? kepler_prime E e; newton_raphson k M e (E - q)
  end.

(** The eccentric anomaly that [elements_to_state] works with: the value
    of its local [E] after the loop. *)
Definition eccentric_anomaly (M e : R) : result R := newton_raphson 10 M e M.

(** A 3x3 matrix as its three rows, and [R @ x]. *)
Definition matvec (R : vec * vec * vec) (x : vec) : vec :=
  let '(r0, r1, r2) := R in V3 (dot r0 x) (dot r1 x) (dot r2 x).

Definition elements_to_state (a e i Omega omega M mu : R)
    : result (vec * vec) :=
  E ← eccentric_anomaly M e;
  let x_prime := a * (cos E - e) in
  sq ← math_sqrt (1 - e ^ 2);
  let y_prime := a * sq * sin E in
  let r_orb := V3 x_prime y_prime 0 in
  q ← mu /? a ^ 3;
  n ← math_sqrt q;
  vx_prime ← (- a * n * sin E) /? (1 - e * cos E);
  sq' ← math_sqrt (1 - e ^ 2);
  vy_prime ← (a * n * sq' * cos E) /? (1 - e * cos E);
  let v_orb := V3 vx_prime vy_prime 0 in
  let cosO := cos Omega in let sinO := sin Omega in
  let cosi := cos i in let sini := sin i in
  let cosw := cos omega in let sinw := sin omega in
  let R :=
    (V3 (cosO * cosw - sinO * sinw * cosi) (- cosO * sinw - sinO * cosw * cosi)
        (sinO * sini),
     V3 (sinO * cosw + cosO * sinw * cosi) (- sinO * sinw + cosO * cosw * cosi)
        (- cosO * sini),
     V3 (sinw * sini) (cosw * sini) cosi) in
  Ok (matvec R r_orb, matvec R v_orb).

(** The tuple [(a, e, i, Omega, omega, M)] returned by [state_to_elements]. *)
Record orbital_elements : Type := Elements {
  el_a : R;
  el_e : R;
  el_i : R;
  el_Omega : R;
  el_omega : R;
  el_M : R
}.

(** The eccentricity vector and the eccentricity as [state_to_elements]
    computes them, where its divisions are defined. *)
Definition e_vec (r v : vec) (mu : R) : vec :=
  (1 / mu) *v (((norm v ^ 2 - mu / norm r) *v r) -v (dot r v *v v)).
Definition eccentricity (r v : vec) (mu : R) : R := norm (e_vec r v mu).

(** The inclination as [state_to_elements] computes it, where its division
    is defined. *)
Definition inclination (r v : vec) : R :=
  acos (vz (cross r v) / norm (cross r v)).

(** [state_to_elements].  The true anomaly [nu] is a value of
    [math.atan2], so that [nu / 2] lies in [(- PI / 2, PI / 2]]: the
    tangent of [nu / 2] is infinite exactly when [nu = PI]. *)
Definition state_to_elements (r v : vec) (mu : R) : result orbital_elements :=
  let rmag := norm r in
  let vmag := norm v in
  let h := cross r v in
  let hmag := norm h in
  c ← vz h /? hmag;
  i ← math_acos c;
  let K := V3 0 0 1 in
  let N := cross K h in
  let Nmag := norm N in
  inv_mu ← 1 /? mu;
  mu_r ← mu /? rmag;
  let e_vec := inv_mu *v (((vmag ^ 2 - mu_r) *v r) -v (dot r v *v v)) in
  let e := norm e_vec in
  two_r ← 2 /? rmag;
  v2_mu ← vmag ^ 2 /? mu;
  a ← 1 /? (two_r - v2_mu);
  let Omega := if decide (Nmag <> 0) then atan2 (vy N) (vx N) else 0 in
  omega ← (if decide (Nmag <> 0 /\ e > 1e-10)
           then y ← dot (cross N e_vec) h /? hmag;
                x ← dot N e_vec /? Nmag;
                Ok (atan2 y x)
           else Ok 0);
  nu ← (if decide (e > 1e-10)
        then y ← dot (cross e_vec r) h /? hmag;
             x ← dot e_vec r /? (e * rmag);
             Ok (atan2 y x)
        else Ok (atan2 (vy r) (vx r)));
  q ← (1 + e) /? (1 - e);
  s ← math_sqrt q;
  let E := 2 * atan2_tan (math_tan (nu / 2)) s in
  let M := E - e * sin E in
  Ok (Elements a e i Omega omega M).

End elements.

(** ** physics/osculating.py *)

Module osculating.

Definition _EPS : R := 1e-12.
Definition _SMALL : R := 1e-8.

(** [angle % (2.0 * math.pi)] takes the sign of the modulus, as [np.mod]
    does; the test [a < 0] is kept as the source has it. *)
Definition _wrap_to_2pi (angle : R) : R :=
  let a := elements.np_mod angle (2 * PI) in
  if decide (a < 0) then a + 2 * PI else a.

(** [max(-1.0, min(1.0, x))] *)
Definition clamp (x : R) : R := Rmax (-1) (Rmin 1 x).

(** The value of ['a']: a float, or [float('inf')]. *)
Inductive semi_major_axis : Type :=
  | Finite (a : R)
  | Infinite.

(** The dict that [osculating_elements] returns, one field per key;
    [None] is kept as [None]. *)
Record osculating_dict : Type := Dict {
  os_a : semi_major_axis;
  os_e : R;
  os_i : R;
  os_Omega : R;
  os_omega : R;
  os_nu : R;
  os_M : option R;
  os_specific_energy : R;
  os_h_vec : vec;
  os_h : R;
  os_period : option R
}.

Definition osculating_elements (r v : vec) (mu : R) : result osculating_dict :=
  let rmag := norm r in
  let vmag := norm v in
  let h_vec := cross r v in
  let h := norm h_vec in
  let K := V3 0 0 1 in
  let N_vec := cross K h_vec in
  let N := norm N_vec in
  mu_r ← mu /? rmag;
  let specific_energy := 0.5 * vmag ^ 2 - mu_r in
  let rv_dot := dot r v in
  mu_r ← mu /? rmag;
  e_vec ← vdivs (((vmag ^ 2 - mu_r) *v r) -v (rv_dot *v v)) mu;
  let e := norm e_vec in
  a ← (if decide (Rabs specific_energy < _EPS) then Ok Infinite
       else q ← (- mu) /? (2 * specific_energy); Ok (Finite q));
  i ← (if decide (h > _SMALL) then
         c ← vz h_vec /? h; elements.math_acos (clamp c)
       else Ok 0);
  let Omega :=
    if decide (N > _SMALL)
    then _wrap_to_2pi (elements.atan2 (vy N_vec) (vx N_vec))
    else 0 in
  omega ← (if decide (e > _SMALL /\ N > _SMALL) then
             c ← dot N_vec e_vec /? (N * e);
             let cos_omega := clamp c in
             sin_omega ← dot (cross N_vec e_vec) h_vec /? (N * e * h);
             Ok (_wrap_to_2pi (elements.atan2 sin_omega cos_omega))
           else if decide (e > _SMALL /\ N <= _SMALL) then
             c ← vx e_vec /? e;
             let cos_omega := clamp c in
             sin_omega ← vy e_vec /? e;
             Ok (_wrap_to_2pi (elements.atan2 sin_omega cos_omega))
           else Ok 0);
  nu ← (if decide (e > _SMALL) then
          c ← dot e_vec r /? (e * rmag);
          let cos_nu := clamp c in
          sin_nu ← (if decide (h > _SMALL)
                    then dot (cross e_vec r) h_vec /? (e * rmag * h)
                    else Ok 0);
          Ok (_wrap_to_2pi (elements.atan2 sin_nu cos_nu))
        else if decide (N > _SMALL) then
          n ← vdivs N_vec N;
          c ← dot n r /? rmag;
          let cos_nu := clamp c in
          sin_nu ← (if decide (h > _SMALL)
                    then n ← vdivs N_vec N;
                         dot (cross n r) h_vec /? (rmag * h)
                    else Ok 0);
          Ok (_wrap_to_2pi (elements.atan2 sin_nu cos_nu))
        else Ok (_wrap_to_2pi (elements.atan2 (vy r) (vx r))));
  M ← (if decide (e < 1 - 1e-8) then
         s1 ← elements.math_sqrt (1 - e);
         s2 ← elements.math_sqrt (1 + e);
         let E := 2 * elements.atan2 (s1 * sin (nu / 2)) (s2 * cos (nu / 2)) in
         let M := E - e * sin E in
         Ok (Some (_wrap_to_2pi M))
       else Ok None);
  period ← (if decide (e < 1 - 1e-8) then
              match a with
              | Finite a =>
                  q ← a ^ 3 /? mu;
                  s ← elements.math_sqrt (Rabs q);
                  Ok (Some (2 * PI * s))
              | Infinite => Ok None
              end
            else Ok None);
  Ok (Dict a e i Omega omega nu M specific_energy h_vec h period).

End osculating.

(** ** model/system.py: [SolarSystem]

    [sun] and [planets] hold references to bodies that are also in
    [bodies]; they are kept as indices into [bodies]. *)

Module system.

Record SolarSystem : Type := mkSolarSystem {
  bodies : list Body;
  sun : option nat;
  planets : list nat
}.

(** [sum(body.mass for body in self.bodies)] *)
Definition get_total_mass (self : SolarSystem) : R :=
  foldl (fun total b => total + mass b) 0 (bodies self).

Definition get_center_of_mass (self : SolarSystem) : result (vec * vec) :=
  let total_mass := get_total_mass self in
  if decide (total_mass = 0) then Ok (vzero, vzero)
  else
    let com_pos :=
      foldl (fun com_pos b => com_pos +v mass b *v pos b) vzero (bodies self) in
    let com_vel :=
      foldl (fun com_vel b => com_vel +v mass b *v vel b) vzero (bodies self) in
    p ← vdivs com_pos total_mass;
    v ← vdivs com_vel total_mass;
    Ok (p, v).

Definition move_to_barycenter (self : SolarSystem) : result SolarSystem :=
  '(com_pos, com_vel) ← get_center_of_mass self;
  Ok (mkSolarSystem
        ((fun b => set_vel (set_pos b (pos b -v com_pos)) (vel b -v com_vel))
           <$> bodies self)
        (sun self) (planets self)).

(** [SolarSystem()] *)
Definition empty : SolarSystem := mkSolarSystem [] None [].

Section names.

(** [str.lower], left uninterpreted. *)
Variable lower : string -> string.

(** [SolarSystem.add_body] *)
Definition add_body (self : SolarSystem) (b : Body) : SolarSystem :=
  let idx := length (bodies self) in
  if decide (lower (name b) = "sun"%string)
  then mkSolarSystem (bodies self ++ [b]) (Some idx) (planets self)
  else mkSolarSystem (bodies self ++ [b]) (sun self) (planets self ++ [idx]).

End names.

End system.

(** ** viz/surface.py *)

Module surface.

Definition EPS_POTENTIAL : R := 1e-3.

Definition compute_potential_at_point (p : vec) (bodies : list Body)
    (softening : R) : result R :=
  for_each bodies
    (fun b potential =>
       let r := norm (p -v pos b) in
       r_soft ← elements.math_sqrt (r ^ 2 + softening ^ 2);
       q ← (G * mass b) /? r_soft;
       Ok (potential - q))
    0.

End surface.

(** ** The quantities the specification speaks of *)

Module spec.

(** What the Force Model may read of a body. *)
Definition mass_pos (b : Body) : R * vec := (mass b, pos b).

(** [G m_j (pos_j - pos_i) / (|pos_j - pos_i|^2 + eps^2)^(3/2)], from the
    masses and positions alone. *)
Definition newton_term (mp : list (R * vec)) (i j : nat) : vec :=
  match mp !! i, mp !! j with
  | Some (_, p_i), Some (m_j, p_j) =>
      let d := p_j -v p_i in
      (G * m_j / Rpower (dot d d + EPS_ACCEL ^ 2) (3 / 2)) *v d
  | _, _ => vzero
  end.

(** The sum of [newton_term] over all [j <> i]. *)
Definition newton_acceleration (mp : list (R * vec)) (i : nat) : vec :=
  vsum (newton_term mp i <$> filter (fun j => j <> i) (seq 0 (length mp))).

(** [(G M / (c^2 r^3)) ((4 G M / r - v^2) r_vec + 4 (r_vec . v_vec) v_vec)]
    with the softened [r^2 = |r_vec|^2 + eps^2]. *)
Definition pn_term (M : R) (r_vec v_vec : vec) : vec :=
  let r := sqrt (dot r_vec r_vec + EPS_ACCEL ^ 2) in
  (G * M / (C_AU_PER_YR ^ 2 * r ^ 3)) *v
    (((4 * G * M / r - dot v_vec v_vec) *v r_vec)
     +v ((4 * dot r_vec v_vec) *v v_vec)).

(** The sum of [g i j] over the pairs [i < j < n]. *)
Definition pair_sum (n : nat) (g : nat -> nat -> R) : R :=
  Rsum ((fun i =>
           Rsum ((fun j => if decide (i < j)%nat then g i j else 0) <$> seq 0 n))
          <$> seq 0 n).

Definition kinetic_energy (bodies : list Body) : R :=
  Rsum ((fun b => / 2 * mass b * dot (vel b) (vel b)) <$> bodies).

(** [G m_i m_j / |pos_i - pos_j|], without softening. *)
Definition pair_potential (bodies : list Body) (i j : nat) : R :=
  match bodies !! i, bodies !! j with
  | Some bi, Some bj => G * mass bi * mass bj / norm (pos bi -v pos bj)
  | _, _ => 0
  end.

(** The same, with a coincident pair contributing nothing. *)
Definition guarded_pair_potential (bodies : list Body) (i j : nat) : R :=
  match bodies !! i, bodies !! j with
  | Some bi, Some bj =>
      if decide (pos bi = pos bj) then 0
      else G * mass bi * mass bj / norm (pos bi -v pos bj)
  | _, _ => 0
  end.

(** Step (3) of the integrator in the words of the specification: the
    Force Model, then the relativistic correction iff it is requested. *)
Definition evaluate_forces (use_relativity : bool) (bodies : list Body)
    : result (list Body) :=
  bodies ← nbody.compute_accelerations bodies;
  if use_relativity then pn1.compute_pn_accelerations bodies else Ok bodies.

(** The stored accelerations are those of the Force Model at the current
    positions. *)
Definition consistent (bodies : list Body) : Prop :=
  nbody.compute_accelerations bodies = Ok bodies.

End spec.

(** ** model/system.py: the two-body test system

    [create_test_system().bodies]: the Sun at rest at the origin and the
    Earth at 1 AU with the circular speed. *)

Definition Sun : Body :=
  mkBody "Sun" 1 0.00465 (V3 0 0 0) (V3 0 0 0) vzero.

Definition earth_distance : R := 1.
Definition earth_speed : R := sqrt (G * mass Sun / earth_distance).

Definition Earth : Body :=
  mkBody "Earth" 3.003e-6 4.26e-5 (V3 earth_distance 0 0) (V3 0 earth_speed 0)
    vzero.

Definition create_test_system : list Body := [Sun; Earth].

(** ** Proof devices *)

(** A body list with its accelerations replaced by those of the
    specification at the current positions. *)
Definition with_newton_accelerations (bodies : list Body) : list Body :=
  imap (fun k b =>
          set_acc b (spec.newton_acceleration (spec.mass_pos <$> bodies) k))
    bodies.

(** A body list with its acceleration fields erased: what stays fixed
    while accelerations are accumulated. *)
Definition frame (bodies : list Body) : list Body :=
  (fun b => set_acc b vzero) <$> bodies.

(** [bodies[k].acc += delta k] for every index [k]. *)
Definition bump (delta : nat -> vec) (bodies : list Body) : list Body :=
  imap (fun k => add_acc (delta k)) bodies.

(** ** Further quantities and proof devices *)

(** The net force and the net torque that the stored accelerations exert. *)
Definition net_force (bodies : list Body) : vec :=
  vsum ((fun b => mass b *v acc b) <$> bodies).
Definition net_torque (bodies : list Body) : vec :=
  vsum ((fun b => mass b *v cross (pos b) (acc b)) <$> bodies).

(** The total linear momentum, from [Body.get_momentum]. *)
Definition total_momentum (bodies : list Body) : vec :=
  vsum (body.get_momentum <$> bodies).

(** A common shift of all positions and of all velocities. *)
Definition boost (dp dv : vec) (b : Body) : Body :=
  set_vel (set_pos b (pos b +v dp)) (vel b +v dv).

(** A function of the mass, the position and the index of the
    body at index [k]. *)
Definition weighted (mp : list (R * vec)) (f : R -> vec -> nat -> vec)
    (k : nat) : vec :=
  match mp !! k with
  | Some (m, p) => f m p k
  | None => vzero
  end.

(** The angular momentum as a sum. *)
Definition angular_momentum_sum (bodies : list Body) : vec :=
  vsum ((fun b => mass b *v cross (pos b) (vel b)) <$> bodies).

(** The matrix [R] of [elements_to_state]. *)
Definition orbit_rotation (Omega i omega : R) : vec * vec * vec :=
  let cosO := cos Omega in let sinO := sin Omega in
  let cosi := cos i in let sini := sin i in
  let cosw := cos omega in let sinw := sin omega in
  (V3 (cosO * cosw - sinO * sinw * cosi) (- cosO * sinw - sinO * cosw * cosi)
      (sinO * sini),
   V3 (sinO * cosw + cosO * sinw * cosi) (- sinO * sinw + cosO * cosw * cosi)
      (- cosO * sini),
   V3 (sinw * sini) (cosw * sini) cosi).

(** Position and velocity in the orbital plane, for an eccentric anomaly
    [E]. *)
Definition r_orb (a e E : R) : vec :=
  V3 (a * (cos E - e)) (a * sqrt (1 - e ^ 2) * sin E) 0.
Definition v_orb (a e mu E : R) : vec :=
  let n := sqrt (mu / a ^ 3) in
  V3 (- a * n * sin E / (1 - e * cos E))
     (a * n * sqrt (1 - e ^ 2) * cos E / (1 - e * cos E)) 0.

(** The branches of [osculating_elements] that compute [omega], [nu], [M]
    and [period], as functions of the quantities they read. *)
Definition omega_branch (N_vec e_vec h_vec : vec) : result R :=
  let N := norm N_vec in
  let e := norm e_vec in
  let h := norm h_vec in
  if decide (e > osculating._SMALL /\ N > osculating._SMALL) then
    c ← dot N_vec e_vec /? (N * e);
    let cos_omega := osculating.clamp c in
    sin_omega ← dot (cross N_vec e_vec) h_vec /? (N * e * h);
    Ok (osculating._wrap_to_2pi (elements.atan2 sin_omega cos_omega))
  else if decide (e > osculating._SMALL /\ N <= osculating._SMALL) then
    c ← vx e_vec /? e;
    let cos_omega := osculating.clamp c in
    sin_omega ← vy e_vec /? e;
    Ok (osculating._wrap_to_2pi (elements.atan2 sin_omega cos_omega))
  else Ok 0.

Definition nu_branch (r N_vec e_vec h_vec : vec) : result R :=
  let rmag := norm r in
  let N := norm N_vec in
  let e := norm e_vec in
  let h := norm h_vec in
  if decide (e > osculating._SMALL) then
    c ← dot e_vec r /? (e * rmag);
    let cos_nu := osculating.clamp c in
    sin_nu ← (if decide (h > osculating._SMALL)
              then dot (cross e_vec r) h_vec /? (e * rmag * h)
              else Ok 0);
    Ok (osculating._wrap_to_2pi (elements.atan2 sin_nu cos_nu))
  else if decide (N > osculating._SMALL) then
    n ← vdivs N_vec N;
    c ← dot n r /? rmag;
    let cos_nu := osculating.clamp c in
    sin_nu ← (if decide (h > osculating._SMALL)
              then n ← vdivs N_vec N;
                   dot (cross n r) h_vec /? (rmag * h)
              else Ok 0);
    Ok (osculating._wrap_to_2pi (elements.atan2 sin_nu cos_nu))
  else Ok (osculating._wrap_to_2pi (elements.atan2 (vy r) (vx r))).

Definition M_branch (e nu : R) : result (option R) :=
  if decide (e < 1 - 1e-8) then
    s1 ← elements.math_sqrt (1 - e);
    s2 ← elements.math_sqrt (1 + e);
    let E := 2 * elements.atan2 (s1 * sin (nu / 2)) (s2 * cos (nu / 2)) in
    let M := E - e * sin E in
    Ok (Some (osculating._wrap_to_2pi M))
  else Ok None.

Definition period_branch (e : R) (a : osculating.semi_major_axis) (mu : R)
  : result (option R) :=
  if decide (e < 1 - 1e-8) then
    match a with
    | osculating.Finite a =>
        q ← a ^ 3 /? mu;
        s ← elements.math_sqrt (Rabs q);
        Ok (Some (2 * PI * s))
    | osculating.Infinite => Ok None
    end
  else Ok None.

(** The values that [osculating_elements] stores under ['specific_energy'],
    ['a'], ['i'], ['Omega'], ['M'] and ['period'], where its divisions are
    defined. *)
Definition specific_energy (r v : vec) (mu : R) : R :=
  0.5 * norm v ^ 2 - mu / norm r.

Definition semi_major (r v : vec) (mu : R) : osculating.semi_major_axis :=
  if decide (Rabs (specific_energy r v mu) < osculating._EPS)
  then osculating.Infinite
  else osculating.Finite (- mu / (2 * specific_energy r v mu)).

Definition osculating_inclination (r v : vec) : R :=
  let h_vec := cross r v in
  if decide (norm h_vec > osculating._SMALL)
  then acos (osculating.clamp (vz h_vec / norm h_vec))
  else 0.

Definition osculating_node (r v : vec) : R :=
  let N_vec := cross (V3 0 0 1) (cross r v) in
  if decide (norm N_vec > osculating._SMALL)
  then osculating._wrap_to_2pi (elements.atan2 (vy N_vec) (vx N_vec))
  else 0.

Definition mean_anomaly (e nu : R) : option R :=
  if decide (e < 1 - 1e-8) then
    let E := 2 * elements.atan2 (sqrt (1 - e) * sin (nu / 2))
                                (sqrt (1 + e) * cos (nu / 2)) in
    Some (osculating._wrap_to_2pi (E - e * sin E))
  else None.

Definition kepler_period (e : R) (a : osculating.semi_major_axis) (mu : R)
  : option R :=
  if decide (e < 1 - 1e-8) then
    match a with
    | osculating.Finite a => Some (2 * PI * sqrt (Rabs (a ^ 3 / mu)))
    | osculating.Infinite => None
    end
  else None.

(** The body list as [add_body] sees it: is the body at index [i] named
    as the sun? *)
Definition named_sun (lower : string -> string) (bs : list Body) (i : nat)
    : Prop :=
  exists b, bs !! i = Some b /\ lower (name b) = "sun"%string.

#[global] Instance named_sun_dec lower bs i : Decision (named_sun lower bs i).
Proof.
  unfold named_sun. destruct (bs !! i) as [b |].
  - destruct (decide (lower (name b) = "sun"%string)) as [H | H].
    + left. now exists b.
    + right. intros (b' & [= <-] & H'). now apply H.
  - right. intros (b' & [=] & _).
Defined.

(** * Proofs *)

(** ** Vector algebra *)

Lemma vec_eq (a b : vec) : vx a = vx b -> vy a = vy b -> vz a = vz b -> a = b.
Proof. destruct a, b; simpl; intros; subst; reflexivity. Qed.

Lemma lit_half : 0.5 = / 2.
Proof. lra. Qed.

Ltac vec_simpl :=
  unfold vmuls, smul, vadd, vsub, vzero, dot, cross in *; simpl in *.

Ltac vec_ring :=
  intros; apply vec_eq; vec_simpl; rewrite ?lit_half; try ring; try (field; auto).

Lemma vadd_0_l a : vzero +v a = a.
Proof. vec_ring. Qed.

Lemma vadd_0_r a : a +v vzero = a.
Proof. vec_ring. Qed.

Lemma vadd_assoc a b c : a +v (b +v c) = a +v b +v c.
Proof. vec_ring. Qed.

Lemma vadd_comm a b : a +v b = b +v a.
Proof. vec_ring. Qed.

Lemma dot_nonneg a : 0 <= dot a a.
Proof. unfold dot. nra. Qed.

Lemma dot_sub_sym a b : dot (a -v b) (a -v b) = dot (b -v a) (b -v a).
Proof. vec_simpl. ring. Qed.

Lemma dot_zero_iff a : dot a a = 0 <-> a = vzero.
Proof.
  split.
  - intros H. apply vec_eq; vec_simpl; nra.
  - intros ->. vec_simpl. ring.
Qed.

Lemma norm_nonneg a : 0 <= norm a.
Proof. apply sqrt_pos. Qed.

Lemma norm_zero_iff a : norm a = 0 <-> a = vzero.
Proof.
  unfold norm. split.
  - intros H. apply dot_zero_iff, sqrt_eq_0; [apply dot_nonneg | exact H].
  - intros ->. replace (dot vzero vzero) with 0 by (vec_simpl; ring).
    apply sqrt_0.
Qed.

Lemma norm_pos a : a <> vzero -> 0 < norm a.
Proof.
  intros Ha. destruct (norm_nonneg a) as [H | H]; [exact H |].
  symmetry in H. apply norm_zero_iff in H. contradiction.
Qed.

Lemma vsub_zero_iff a b : a -v b = vzero <-> a = b.
Proof.
  split.
  - intros H. apply (f_equal vx) in H as Hx. apply (f_equal vy) in H as Hy.
    apply (f_equal vz) in H as Hz. apply vec_eq; vec_simpl; lra.
  - intros ->. vec_ring.
Qed.

Lemma norm_sub_sym a b : norm (a -v b) = norm (b -v a).
Proof. unfold norm. now rewrite dot_sub_sym. Qed.

(** ** Constants *)

Lemma EPS_ACCEL_sq_pos : 0 < EPS_ACCEL ^ 2.
Proof. unfold EPS_ACCEL. nra. Qed.

Lemma softened_pos a : 0 < dot a a + EPS_ACCEL ^ 2.
Proof. pose proof (dot_nonneg a). pose proof EPS_ACCEL_sq_pos. lra. Qed.

Lemma softened_dist_pos a : 0 < sqrt (dot a a + EPS_ACCEL ^ 2).
Proof. apply sqrt_lt_R0, softened_pos. Qed.

Lemma C_AU_PER_YR_pos : 0 < C_AU_PER_YR.
Proof.
  unfold C_AU_PER_YR, C_SI, SECONDS_PER_YEAR, DAY_IN_SECONDS, DAYS_PER_YEAR,
    AU_IN_METERS.
  lra.
Qed.

(** [x^(3/2)] is [x * sqrt x] for a positive [x]. *)
Lemma Rpower_3_2 x : 0 < x -> Rpower x (3 / 2) = x * sqrt x.
Proof.
  intros Hx. replace (3 / 2) with (1 + / 2) by lra.
  now rewrite Rpower_plus, Rpower_1, Rpower_sqrt.
Qed.

(** ** Sums over lists, for any commutative monoid *)

Lemma filter_seq_ge (a n : nat) :
  filter (fun j => (a <= j)%nat) (seq 0 n) = range a n.
Proof.
  unfold range. induction n as [| n IH].
  - reflexivity.
  - rewrite seq_S, filter_app, IH. simpl.
    destruct (decide (a <= n)%nat) as [Hle | Hgt].
    + rewrite filter_cons_True, filter_nil by exact Hle.
      replace (S n - a)%nat with (S (n - a)) by lia.
      rewrite seq_S. do 2 f_equal. lia.
    + rewrite filter_cons_False, filter_nil by exact Hgt.
      replace (S n - a)%nat with O by lia.
      replace (n - a)%nat with O by lia. reflexivity.
Qed.

Lemma elem_of_range (a n j : nat) : j ∈ range a n <-> (a <= j < n)%nat.
Proof. unfold range. rewrite elem_of_seq. lia. Qed.

Lemma NoDup_range (a n : nat) : NoDup (range a n).
Proof. apply NoDup_seq. Qed.

Section big_sums.
Context {M : Type} (op : M -> M -> M) (u : M).
Hypothesis op_assoc : forall a b c, op a (op b c) = op (op a b) c.
Hypothesis op_comm : forall a b, op a b = op b a.
Hypothesis op_unit_l : forall a, op u a = a.

Local Abbreviation big l := (foldr op u l).

Lemma op_unit_r a : op a u = a.
Proof. now rewrite op_comm. Qed.

Lemma big_ext {A} (f g : A -> M) (l : list A) :
  (forall x, x ∈ l -> f x = g x) -> big (f <$> l) = big (g <$> l).
Proof.
  induction l as [| x l IH]; intros H; csimpl; [reflexivity |].
  rewrite H by apply list_elem_of_here.
  rewrite IH; [reflexivity |].
  intros y Hy. apply H. now apply list_elem_of_further.
Qed.

Lemma big_op {A} (f g : A -> M) (l : list A) :
  big ((fun x => op (f x) (g x)) <$> l) = op (big (f <$> l)) (big (g <$> l)).
Proof.
  induction l as [| x l IH]; csimpl.
  - now rewrite op_unit_l.
  - rewrite IH. rewrite <- !op_assoc. f_equal.
    rewrite !op_assoc. f_equal. apply op_comm.
Qed.

Lemma big_unit {A} (l : list A) : big ((fun _ => u) <$> l) = u.
Proof. induction l as [| x l IH]; csimpl; [| rewrite IH, op_unit_l]; easy. Qed.

Lemma big_filter {A} (P : A -> Prop) `{!forall x, Decision (P x)}
    (f : A -> M) (l : list A) :
  big ((fun x => if decide (P x) then f x else u) <$> l)
  = big (f <$> filter P l).
Proof.
  induction l as [| x l IH]; csimpl; [reflexivity |].
  rewrite IH. destruct (decide (P x)) as [Hx | Hx].
  - now rewrite filter_cons_True.
  - now rewrite filter_cons_False, op_unit_l.
Qed.

(** A sum with a single index selected. *)
Lemma big_indicator (k : nat) (g : nat -> M) (l : list nat) :
  NoDup l ->
  big ((fun x => if decide (x = k) then g x else u) <$> l)
  = if decide (k ∈ l) then g k else u.
Proof.
  induction 1 as [| x l Hx Hl IH]; csimpl.
  - destruct (decide (k ∈ [])) as [H | H]; [| reflexivity].
    now apply elem_of_nil in H.
  - rewrite IH. destruct (decide (x = k)) as [-> | Hne].
    + rewrite decide_False by exact Hx.
      rewrite decide_True by apply list_elem_of_here.
      apply op_unit_r.
    + rewrite op_unit_l.
      destruct (decide (k ∈ l)) as [Hin | Hin].
      * rewrite decide_True; [reflexivity |].
        now apply list_elem_of_further.
      * rewrite decide_False; [reflexivity |].
        rewrite elem_of_cons. intros [-> | H']; contradiction.
Qed.

(** A sum over [range a n], as a sum over [range 0 n]. *)
Lemma big_range_from (a n : nat) (g : nat -> M) :
  big (g <$> range a n)
  = big ((fun j => if decide (a <= j)%nat then g j else u) <$> seq 0 n).
Proof. now rewrite (big_filter (fun j => (a <= j)%nat)), filter_seq_ge. Qed.

(** What one index [k] receives from the pairs [i < j < n], when the pair
    [(i, j)] gives [f i j] to [i] and [f j i] to [j]. *)
Lemma big_pairs (n k : nat) (f : nat -> nat -> M) :
  (k < n)%nat ->
  big ((fun i =>
          big ((fun j =>
                  op (if decide (k = i) then f i j else u)
                     (if decide (k = j) then f j i else u))
                 <$> range (i + 1) n))
         <$> range 0 n)
  = big (f k <$> filter (fun j => j <> k) (seq 0 n)).
Proof.
  intros Hk.
  rewrite <- (big_filter (fun j => j <> k)).
  transitivity
    (big ((fun i =>
             op (if decide (i = k)
                 then big ((fun j => if decide (k + 1 <= j)%nat
                                     then f k j else u) <$> seq 0 n)
                 else u)
                (if decide (i < k)%nat then f k i else u)) <$> range 0 n)).
  - apply big_ext. intros i Hi. apply elem_of_range in Hi.
    rewrite big_op. f_equal.
    + destruct (decide (i = k)) as [-> | Hne].
      * rewrite <- big_range_from. apply big_ext. intros j _.
        now rewrite decide_True.
      * erewrite big_ext; [apply big_unit |].
        intros j _. simpl. rewrite decide_False; [reflexivity | congruence].
    + erewrite (big_ext _ (fun j => if decide (j = k) then f j i else u)).
      2:{ intros j _. simpl. destruct (decide (k = j)), (decide (j = k));
          congruence. }
      rewrite big_indicator by apply NoDup_range.
      destruct (decide (k ∈ range (i + 1) n)) as [Hin | Hin];
        rewrite elem_of_range in Hin.
      * rewrite decide_True; [reflexivity | lia].
      * rewrite decide_False; [reflexivity | lia].
  - rewrite big_op.
    rewrite (big_indicator k
               (fun _ => big ((fun j => if decide (k + 1 <= j)%nat
                                        then f k j else u) <$> seq 0 n)))
      by apply NoDup_range.
    rewrite decide_True by (apply elem_of_range; lia).
    unfold range. rewrite Nat.sub_0_r, <- big_op.
    apply big_ext. intros j _. simpl.
    destruct (decide (k + 1 <= j)%nat), (decide (j < k)%nat),
      (decide (j <> k)); try lia; rewrite ?op_unit_l, ?op_unit_r; reflexivity.
Qed.
End big_sums.

(** ** The exception monad, indexing and loops *)

Lemma get_Some {A} (xs : list A) (i : nat) (x : A) :
  xs !! i = Some x -> get xs i = Ok x.
Proof. unfold get. now intros ->. Qed.

Lemma checked_div_ok (x y : R) : y <> 0 -> x /? y = Ok (x / y).
Proof. intros Hy. unfold checked_div. now rewrite decide_False. Qed.

Lemma checked_div_zero (x : R) : x /? 0 = Raise ZeroDivisionError.
Proof. unfold checked_div. now rewrite decide_True. Qed.

Lemma bind_Ok {A B} (a : A) (f : A -> result B) : (Ok a ≫= f) = f a.
Proof. reflexivity. Qed.

(** A scalar accumulator that every iteration increases by [delta x]. *)
Lemma for_each_accumulate {A} (xs : list A) (body : A -> R -> result R)
    (delta : A -> R) :
  (forall x E, x ∈ xs -> body x E = Ok (E + delta x)) ->
  forall E, for_each xs body E = Ok (E + Rsum (delta <$> xs)).
Proof.
  induction xs as [| x xs IH]; intros Hbody E; csimpl.
  - f_equal. unfold Rsum. simpl. lra.
  - rewrite Hbody by apply list_elem_of_here. rewrite bind_Ok.
    rewrite IH by (intros; apply Hbody; now apply list_elem_of_further).
    f_equal. unfold Rsum. simpl. lra.
Qed.

(** ** Bodies and their frames *)

Lemma add_acc_zero b : add_acc vzero b = b.
Proof. destruct b. unfold add_acc, set_acc. simpl. now rewrite vadd_0_r. Qed.

Lemma add_acc_add_acc a1 a2 b : add_acc a2 (add_acc a1 b) = add_acc (a1 +v a2) b.
Proof. destruct b. unfold add_acc, set_acc. simpl. now rewrite vadd_assoc. Qed.

Lemma add_acc_set_acc a a0 b : add_acc a (set_acc b a0) = set_acc b (a0 +v a).
Proof. reflexivity. Qed.

Lemma length_frame bodies : length (frame bodies) = length bodies.
Proof. apply length_fmap. Qed.

Lemma frame_lookup bodies k :
  frame bodies !! k = (fun b => set_acc b vzero) <$> bodies !! k.
Proof. apply list_lookup_fmap. Qed.

Lemma frame_fields bodies F k b :
  frame bodies = F -> bodies !! k = Some b ->
  exists b0, F !! k = Some b0 /\ name b0 = name b /\ mass b0 = mass b
    /\ radius b0 = radius b /\ pos b0 = pos b /\ vel b0 = vel b.
Proof.
  intros <- Hb. exists (set_acc b vzero).
  rewrite frame_lookup, Hb. simpl. tauto.
Qed.

Lemma bump_lookup delta bodies k :
  bump delta bodies !! k = add_acc (delta k) <$> bodies !! k.
Proof. unfold bump. now rewrite list_lookup_imap. Qed.

Lemma frame_bump delta bodies : frame (bump delta bodies) = frame bodies.
Proof.
  apply list_eq. intros k.
  rewrite !frame_lookup, bump_lookup. now destruct (bodies !! k).
Qed.

Lemma bump_bump d1 d2 bodies :
  bump d2 (bump d1 bodies) = bump (fun k => d1 k +v d2 k) bodies.
Proof.
  apply list_eq. intros k. rewrite !bump_lookup.
  destruct (bodies !! k); simpl; [| reflexivity].
  now rewrite add_acc_add_acc.
Qed.

Lemma bump_ext d1 d2 bodies :
  (forall k, (k < length bodies)%nat -> d1 k = d2 k) ->
  bump d1 bodies = bump d2 bodies.
Proof.
  intros H. apply imap_ext. intros k b Hb.
  now rewrite H by (eapply lookup_lt_Some; eauto).
Qed.

Lemma bump_zero bodies : bump (fun _ => vzero) bodies = bodies.
Proof.
  apply list_eq. intros k. rewrite bump_lookup.
  destruct (bodies !! k); simpl; [| reflexivity].
  now rewrite add_acc_zero.
Qed.

Lemma alter_add_acc c i bodies :
  alter (add_acc c) i bodies
  = bump (fun k => if decide (k = i) then c else vzero) bodies.
Proof.
  apply list_eq. intros k. rewrite bump_lookup, list_lookup_alter.
  destruct (decide (i = k)) as [-> | Hne].
  - now rewrite decide_True.
  - rewrite decide_False by congruence.
    destruct (bodies !! k); simpl; [| reflexivity].
    now rewrite add_acc_zero.
Qed.

(** A loop whose every iteration adds to accelerations only, by amounts
    that depend on the frame alone, adds the sums of these amounts. *)
Lemma for_each_bump {A} (xs : list A)
    (body : A -> list Body -> result (list Body))
    (delta : A -> nat -> vec) (F : list Body) :
  (forall x bodies, x ∈ xs -> frame bodies = F ->
     body x bodies = Ok (bump (delta x) bodies)) ->
  forall bodies, frame bodies = F ->
    for_each xs body bodies
    = Ok (bump (fun k => vsum ((fun x => delta x k) <$> xs)) bodies).
Proof.
  induction xs as [| x xs IH]; intros Hbody bodies HF; csimpl.
  - now rewrite bump_zero.
  - rewrite Hbody by (apply list_elem_of_here || exact HF). rewrite bind_Ok.
    rewrite IH.
    + now rewrite bump_bump.
    + intros y bs Hy. apply Hbody. now apply list_elem_of_further.
    + now rewrite frame_bump.
Qed.

(** ** The Force Model: [compute_accelerations] *)

Lemma mass_pos_frame bodies :
  spec.mass_pos <$> frame bodies = spec.mass_pos <$> bodies.
Proof.
  unfold frame. rewrite <- list_fmap_compose. reflexivity.
Qed.

Lemma mass_pos_lookup (bodies : list Body) (k : nat) (b : Body) :
  bodies !! k = Some b -> (spec.mass_pos <$> bodies) !! k = Some (mass b, pos b).
Proof. intros Hb. now rewrite list_lookup_fmap, Hb. Qed.

(** The two accelerations of an iteration, as the terms of the
    specification. *)
Lemma pair_accelerations (m : R) (p q : vec) :
  let rij := q -v p in
  let dist2 := dot rij rij + EPS_ACCEL ^ 2 in
  ((G * m) *v rij) v* (1 / (dist2 * sqrt dist2))
  = (G * m / Rpower dist2 (3 / 2)) *v rij.
Proof.
  intros rij dist2.
  assert (Hd : 0 < dist2) by apply softened_pos.
  assert (Hs : 0 < sqrt dist2) by now apply sqrt_lt_R0.
  rewrite Rpower_3_2 by exact Hd.
  apply vec_eq; vec_simpl; field; split; lra.
Qed.

Lemma pair_accelerations_opp (m : R) (p q : vec) :
  let rij := q -v p in
  let dist2 := dot rij rij + EPS_ACCEL ^ 2 in
  ((- G * m) *v rij) v* (1 / (dist2 * sqrt dist2))
  = (G * m / Rpower (dot (p -v q) (p -v q) + EPS_ACCEL ^ 2) (3 / 2)) *v (p -v q).
Proof.
  intros rij dist2.
  rewrite (dot_sub_sym p q). fold rij. fold dist2.
  assert (Hd : 0 < dist2) by apply softened_pos.
  assert (Hs : 0 < sqrt dist2) by now apply sqrt_lt_R0.
  rewrite Rpower_3_2 by exact Hd.
  apply vec_eq; subst rij; vec_simpl; field; split; lra.
Qed.

Lemma pair_update_bump (i j : nat) (bodies : list Body) :
  let mp := spec.mass_pos <$> bodies in
  i <> j -> (i < length bodies)%nat -> (j < length bodies)%nat ->
  nbody.pair_update i j bodies
  = Ok (bump (fun k =>
                (if decide (k = i) then spec.newton_term mp i j else vzero)
                +v (if decide (k = j) then spec.newton_term mp j i else vzero))
          bodies).
Proof.
  intros mp Hij Hi Hj.
  destruct (lookup_lt_is_Some_2 bodies i Hi) as [bi Hbi].
  destruct (lookup_lt_is_Some_2 bodies j Hj) as [bj Hbj].
  unfold nbody.pair_update.
  rewrite (get_Some _ _ _ Hbj), bind_Ok, (get_Some _ _ _ Hbi), bind_Ok.
  rewrite checked_div_ok.
  2:{ pose proof (softened_pos (pos bj -v pos bi)).
      pose proof (softened_dist_pos (pos bj -v pos bi)). nra. }
  rewrite bind_Ok. f_equal.
  rewrite !alter_add_acc, bump_bump.
  apply bump_ext. intros k _.
  unfold spec.newton_term, mp.
  rewrite (mass_pos_lookup _ _ _ Hbi), (mass_pos_lookup _ _ _ Hbj).
  f_equal.
  - destruct (decide (k = i)); [| reflexivity]. apply pair_accelerations.
  - destruct (decide (k = j)); [| reflexivity]. apply pair_accelerations_opp.
Qed.

(** The loops of [compute_accelerations] on a list whose accelerations are
    arbitrary: the terms of all pairs are added to them. *)
Lemma pair_loops_bump (bodies : list Body) :
  let n := length bodies in
  let mp := spec.mass_pos <$> bodies in
  for_each (range 0 n)
    (fun i bodies =>
       for_each (range (i + 1) n)
         (fun j bodies => nbody.pair_update i j bodies) bodies)
    bodies
  = Ok (bump (fun k =>
          vsum ((fun i =>
            vsum ((fun j =>
              (if decide (k = i) then spec.newton_term mp i j else vzero)
              +v (if decide (k = j) then spec.newton_term mp j i else vzero))
              <$> range (i + 1) n)) <$> range 0 n)) bodies).
Proof.
  intros n mp.
  apply (for_each_bump _ _ _ (frame bodies)); [| reflexivity].
  intros i bs Hi Hbs.
  apply (for_each_bump _ _ _ (frame bodies)); [| exact Hbs].
  intros j bs' Hj Hbs'.
  apply elem_of_range in Hi, Hj.
  assert (Hlen : length bs' = n).
  { now rewrite <- (length_frame bs'), Hbs', length_frame. }
  assert (Hmp : spec.mass_pos <$> bs' = mp).
  { now rewrite <- (mass_pos_frame bs'), Hbs', mass_pos_frame. }
  rewrite pair_update_bump by lia.
  now rewrite Hmp.
Qed.

(** The closed form of [compute_accelerations]. *)
Lemma compute_accelerations_closed (bodies : list Body) :
  nbody.compute_accelerations bodies
  = Ok (imap (fun k b =>
               set_acc b (spec.newton_acceleration (spec.mass_pos <$> bodies) k))
          bodies).
Proof.
  unfold nbody.compute_accelerations.
  change ((fun b => set_acc b vzero) <$> bodies) with (frame bodies).
  pose proof (pair_loops_bump (frame bodies)) as H. simpl in H.
  rewrite length_frame, mass_pos_frame in H. rewrite H. f_equal.
  unfold bump, frame. rewrite imap_fmap.
  apply imap_ext. intros k b Hb. simpl.
  rewrite add_acc_set_acc, vadd_0_l. f_equal.
  unfold spec.newton_acceleration. rewrite length_fmap.
  apply (big_pairs vadd vzero vadd_assoc vadd_comm vadd_0_l).
  eapply lookup_lt_Some; eauto.
Qed.

(** Overwriting the stored accelerations beforehand changes nothing. *)
Lemma compute_accelerations_stale (bodies : list Body) (stale : nat -> vec) :
  nbody.compute_accelerations (imap (fun k b => set_acc b (stale k)) bodies)
  = nbody.compute_accelerations bodies.
Proof.
  rewrite !compute_accelerations_closed.
  assert (Hmp : spec.mass_pos <$> imap (fun k b => set_acc b (stale k)) bodies
                = spec.mass_pos <$> bodies).
  { rewrite fmap_imap. apply list_eq. intros k.
    rewrite list_lookup_imap, list_lookup_fmap. now destruct (bodies !! k). }
  rewrite Hmp. f_equal. apply list_eq. intros k.
  rewrite !list_lookup_imap. now destruct (bodies !! k).
Qed.

(** C2.  After [compute_accelerations(bodies)] the acceleration of every
    body [i] is the sum over all [j <> i] of
    [G m_j (pos_j - pos_i) / (|pos_j - pos_i|^2 + eps^2)^(3/2)], every other
    field being as before; the call never raises; and the result is a
    function of the masses and positions alone: whatever accelerations
    [stale] were stored before the call, the outcome is the same. *)
Theorem compute_accelerations_newton_sum (bodies : list Body) :
  nbody.compute_accelerations bodies
  = Ok (imap (fun i b =>
               set_acc b (spec.newton_acceleration (spec.mass_pos <$> bodies) i))
          bodies)
  /\ forall stale : nat -> vec,
       nbody.compute_accelerations
         (imap (fun i b => set_acc b (stale i)) bodies)
       = nbody.compute_accelerations bodies.
Proof.
  split.
  - apply compute_accelerations_closed.
  - intros stale. apply compute_accelerations_stale.
Qed.

(** The products [m_i a_i] and [m_j a_j] of the two terms of a pair. *)
Lemma newton_term_antisymmetric (mp : list (R * vec)) (i j : nat)
    (m_i m_j : R) (p_i p_j : vec) :
  mp !! i = Some (m_i, p_i) -> mp !! j = Some (m_j, p_j) ->
  m_i *v spec.newton_term mp i j = (- m_j) *v spec.newton_term mp j i.
Proof.
  intros Hi Hj. unfold spec.newton_term. rewrite Hi, Hj. simpl.
  rewrite (dot_sub_sym p_i p_j).
  pose proof (softened_pos (p_j -v p_i)) as Hd.
  rewrite Rpower_3_2 by exact Hd.
  pose proof (softened_dist_pos (p_j -v p_i)) as Hs.
  apply vec_eq; vec_simpl; field; split; lra.
Qed.

(** C6.  Newton's third law.  For two bodies, [compute_accelerations]
    leaves accelerations [a0], [a1] with [m0 a0 = - m1 a1]; and in any body
    list, the iteration for a pair [i <> j] adds [ai] to body [i] and [aj]
    to body [j] with [m_i ai = - m_j aj]. *)
Theorem compute_accelerations_third_law :
  (forall b0 b1 : Body,
     exists a0 a1 : vec,
       nbody.compute_accelerations [b0; b1]
       = Ok [set_acc b0 a0; set_acc b1 a1]
       /\ mass b0 *v a0 = (- mass b1) *v a1)
  /\ (forall (bodies : list Body) (i j : nat) (bi bj : Body),
        i <> j -> bodies !! i = Some bi -> bodies !! j = Some bj ->
        exists ai aj : vec,
          nbody.pair_update i j bodies
          = Ok (alter (add_acc aj) j (alter (add_acc ai) i bodies))
          /\ mass bi *v ai = (- mass bj) *v aj).
Proof.
  split.
  - intros b0 b1.
    set (mp := spec.mass_pos <$> [b0; b1]).
    exists (spec.newton_term mp 0 1), (spec.newton_term mp 1 0). split.
    + rewrite compute_accelerations_closed. fold mp. f_equal. simpl.
      unfold spec.newton_acceleration. simpl.
      now rewrite !vadd_0_r.
    + now apply (newton_term_antisymmetric mp 0 1 _ _ (pos b0) (pos b1)).
  - intros bodies i j bi bj Hij Hbi Hbj.
    set (mp := spec.mass_pos <$> bodies).
    exists (spec.newton_term mp i j), (spec.newton_term mp j i). split.
    + rewrite pair_update_bump; try (eapply lookup_lt_Some; eauto); [| exact Hij].
      f_equal. now rewrite !alter_add_acc, bump_bump.
    + apply (newton_term_antisymmetric mp i j _ _ (pos bi) (pos bj));
        now apply mass_pos_lookup.
Qed.

(** ** The relativistic correction: [compute_pn_accelerations] *)

Lemma correction_ok (sun b : Body) :
  pn1.correction sun b
  = Ok (spec.pn_term (mass sun) (pos b -v pos sun) (vel b -v vel sun)).
Proof.
  unfold pn1.correction, spec.pn_term.
  pose proof (softened_dist_pos (pos b -v pos sun)) as Hr.
  pose proof C_AU_PER_YR_pos as Hc.
  rewrite (checked_div_ok (G * mass sun)).
  2:{ apply Rmult_integral_contrapositive. split; apply pow_nonzero; lra. }
  rewrite bind_Ok, checked_div_ok by lra.
  reflexivity.
Qed.

(** The closed form of [compute_pn_accelerations] on a non-empty list. *)
Lemma compute_pn_accelerations_closed (sun : Body) (rest : list Body) :
  pn1.compute_pn_accelerations (sun :: rest)
  = Ok (sun ::
        ((fun b =>
            set_acc b
              (acc b +v spec.pn_term (mass sun) (pos b -v pos sun)
                                     (vel b -v vel sun)))
           <$> rest)).
Proof.
  unfold pn1.compute_pn_accelerations.
  rewrite (get_Some (sun :: rest) 0 sun) by reflexivity. rewrite bind_Ok.
  set (F := frame (sun :: rest)).
  set (term := fun k : nat =>
         match F !! k with
         | Some b => spec.pn_term (mass sun) (pos b -v pos sun) (vel b -v vel sun)
         | None => vzero
         end).
  rewrite (for_each_bump _ _
             (fun k k' => if decide (k' = k) then term k else vzero) F);
    [| | reflexivity].
  - f_equal. apply list_eq. intros k'. rewrite bump_lookup.
    erewrite (big_ext vadd vzero _
                (fun k => if decide (k = k') then term k else vzero)).
    2:{ intros k _. simpl. destruct (decide (k' = k)), (decide (k = k'));
        congruence. }
    unfold vsum.
    rewrite (big_indicator vadd vzero vadd_comm vadd_0_l k' term)
      by apply NoDup_range.
    destruct k' as [| k']; simpl.
    + rewrite decide_False by (rewrite elem_of_range; lia).
      now rewrite add_acc_zero.
    + rewrite list_lookup_fmap.
      destruct (rest !! k') as [b |] eqn:Hb; simpl; [| reflexivity].
      rewrite decide_True.
      2:{ rewrite elem_of_range. apply lookup_lt_Some in Hb. simpl. lia. }
      unfold term, F. rewrite frame_lookup. simpl. rewrite Hb. reflexivity.
  - intros k bodies Hk HF.
    apply elem_of_range in Hk.
    assert (Hlen : length bodies = length (sun :: rest)).
    { now rewrite <- (length_frame bodies), HF; unfold F; rewrite length_frame. }
    destruct (lookup_lt_is_Some_2 bodies k) as [b Hb]; [lia |].
    rewrite (get_Some _ _ _ Hb), bind_Ok, correction_ok, bind_Ok.
    rewrite alter_add_acc. f_equal. apply bump_ext. intros k' _.
    destruct (decide (k' = k)) as [-> |]; [| reflexivity].
    destruct (frame_fields _ _ _ _ HF Hb) as (b0 & Hb0 & _ & _ & _ & Hp & Hv).
    unfold term. now rewrite Hb0, Hp, Hv.
Qed.

(** C5.  On a list [sun :: rest], [compute_pn_accelerations] returns
    normally; it adds to the acceleration of every body [b] of [rest]
    exactly
    [(G M / (c^2 r^3)) ((4 G M / r - v^2) r_vec + 4 (r_vec . v_vec) v_vec)]
    with [M] the mass of [sun], [r_vec], [v_vec] the position and velocity
    of [b] relative to [sun] and [r^2 = |r_vec|^2 + eps^2]; it leaves [sun]
    as it is, and every position, velocity and mass. *)
Theorem compute_pn_accelerations_adds_term (sun : Body) (rest : list Body) :
  pn1.compute_pn_accelerations (sun :: rest)
  = Ok (sun ::
        ((fun b =>
            set_acc b
              (acc b +v spec.pn_term (mass sun) (pos b -v pos sun)
                                     (vel b -v vel sun)))
           <$> rest)).
Proof. apply compute_pn_accelerations_closed. Qed.

(** ** The integrator: [step_system] *)

Lemma frame_eq_lookup (xs ys : list Body) (k : nat) (x : Body) :
  frame xs = frame ys -> xs !! k = Some x ->
  exists y, ys !! k = Some y /\ set_acc y vzero = set_acc x vzero.
Proof.
  intros HF Hx. apply (f_equal (fun l => l !! k)) in HF.
  rewrite !frame_lookup, Hx in HF.
  destruct (ys !! k) as [y |]; simpl in HF; [| discriminate].
  exists y. split; [reflexivity | congruence].
Qed.

Lemma frame_eq_length (xs ys : list Body) :
  frame xs = frame ys -> length xs = length ys.
Proof. intros HF. now rewrite <- (length_frame xs), HF, length_frame. Qed.

Lemma frame_set_acc (bodies : list Body) (a : nat -> vec) :
  frame (imap (fun k b => set_acc b (a k)) bodies) = frame bodies.
Proof.
  apply list_eq. intros k. rewrite !frame_lookup, list_lookup_imap.
  now destruct (bodies !! k).
Qed.

Lemma frame_pn (sun : Body) (rest : list Body) (a : Body -> vec) :
  frame (sun :: ((fun b => set_acc b (a b)) <$> rest)) = frame (sun :: rest).
Proof.
  unfold frame. rewrite !fmap_cons, <- list_fmap_compose. reflexivity.
Qed.

(** Step (3) returns normally and touches accelerations only, as soon as
    the relativistic correction finds its central body. *)
Lemma evaluate_forces_frame (use_relativity : bool) (bodies : list Body) :
  (use_relativity = true -> bodies <> []) ->
  exists forces, spec.evaluate_forces use_relativity bodies = Ok forces
                 /\ frame forces = frame bodies.
Proof.
  intros Hne. unfold spec.evaluate_forces.
  rewrite compute_accelerations_closed, bind_Ok.
  destruct use_relativity.
  - destruct bodies as [| sun rest]; [now destruct Hne |].
    rewrite imap_cons, compute_pn_accelerations_closed.
    eexists. split; [reflexivity |].
    rewrite frame_pn. unfold frame. rewrite fmap_cons, fmap_imap. simpl.
    f_equal. apply list_eq. intros k.
    rewrite list_lookup_imap, list_lookup_fmap. now destruct (rest !! k).
  - eexists. split; [reflexivity |]. apply frame_set_acc.
Qed.

Lemma step_system_unfold (bodies : list Body) (dt : R) (use_relativity : bool) :
  nbody.step_system bodies dt use_relativity
  = (forces ← spec.evaluate_forces use_relativity
                (nbody.drift dt <$> (nbody.half_kick dt <$> bodies));
     Ok (nbody.half_kick dt <$> (forces : list Body))).
Proof.
  unfold nbody.step_system, spec.evaluate_forces.
  destruct (nbody.compute_accelerations _); reflexivity.
Qed.

(** C1, as stated for every body list, fails on the empty one: with the
    default arguments ([dt=DT], [use_relativity=ENABLE_1PN_DEFAULT]) the
    relativistic correction looks for [bodies[0]] and [step_system] raises
    IndexError. *)
Lemma step_system_empty_raises :
  nbody.step_system [] DT ENABLE_1PN_DEFAULT = Raise IndexError.
Proof. reflexivity. Qed.

(** C1 (amended).  Whenever the relativistic correction is off or the list
    has a body, [step_system] returns normally, and it is half-kick, drift,
    evaluation of the forces at the new positions (the Force Model, then
    the relativistic correction iff the flag is set), half-kick, in this
    order.  The post-state of a body with state [pos, vel, acc] is
    [pos' = pos + (vel + 1/2 acc dt) dt],
    [vel' = vel + 1/2 (acc + acc') dt] and [acc'], where [acc'] is the
    acceleration found by step (3) at the position [pos']. *)
Theorem step_system_velocity_verlet (bodies : list Body) (dt : R)
    (use_relativity : bool) :
  (use_relativity = true -> bodies <> []) ->
  exists forces : list Body,
    spec.evaluate_forces use_relativity
      (nbody.drift dt <$> (nbody.half_kick dt <$> bodies)) = Ok forces
    /\ nbody.step_system bodies dt use_relativity
       = Ok (nbody.half_kick dt <$> forces)
    /\ length forces = length bodies
    /\ forall (k : nat) (b f : Body),
         bodies !! k = Some b -> forces !! k = Some f ->
         pos f = pos b +v (vel b +v (/ 2 * dt) *v acc b) v* dt
         /\ (nbody.half_kick dt <$> forces) !! k
            = Some (mkBody (name b) (mass b) (radius b)
                      (pos b +v (vel b +v (/ 2 * dt) *v acc b) v* dt)
                      (vel b +v (/ 2 * dt) *v (acc b +v acc f))
                      (acc f)).
Proof.
  intros Hne.
  set (moved := nbody.drift dt <$> (nbody.half_kick dt <$> bodies)).
  destruct (evaluate_forces_frame use_relativity moved) as (forces & Hf & HF).
  { intros Hrel. specialize (Hne Hrel). unfold moved.
    destruct bodies; [contradiction | discriminate]. }
  exists forces. split; [exact Hf |]. split; [| split].
  - rewrite step_system_unfold. fold moved. now rewrite Hf.
  - rewrite (frame_eq_length _ _ HF). unfold moved. now rewrite !length_fmap.
  - intros k b f Hb Hfk.
    destruct (frame_eq_lookup _ _ _ _ HF Hfk) as (m & Hm & Hmf).
    unfold moved in Hm. rewrite !list_lookup_fmap, Hb in Hm. simpl in Hm.
    injection Hm as <-.
    rewrite list_lookup_fmap, Hfk. simpl.
    destruct f as [fn fm fr fp fv fa], b as [bn bm br bp bv ba].
    unfold nbody.half_kick, nbody.drift, set_acc, set_vel, set_pos in *.
    simpl in *. injection Hmf as Hn Hm Hr Hp Hv. subst fn fm fr fp fv.
    split; [vec_ring |]. do 2 f_equal; vec_ring.
Qed.

(** ** Time reversal *)

(** One step without the relativistic correction, in closed form. *)
Lemma step_system_closed (bodies : list Body) (dt : R) :
  let moved := nbody.drift dt <$> (nbody.half_kick dt <$> bodies) in
  nbody.step_system bodies dt false
  = Ok (imap (fun k b =>
          nbody.half_kick dt
            (set_acc (nbody.drift dt (nbody.half_kick dt b))
               (spec.newton_acceleration (spec.mass_pos <$> moved) k)))
        bodies).
Proof.
  intros moved. unfold nbody.step_system. fold moved.
  rewrite compute_accelerations_closed, bind_Ok, bind_Ok. f_equal.
  apply list_eq. intros k. unfold moved.
  rewrite list_lookup_fmap, !list_lookup_imap, !list_lookup_fmap.
  now destruct (bodies !! k).
Qed.

Lemma consistent_acc (bodies : list Body) (k : nat) (b : Body) :
  spec.consistent bodies -> bodies !! k = Some b ->
  acc b = spec.newton_acceleration (spec.mass_pos <$> bodies) k.
Proof.
  unfold spec.consistent. rewrite compute_accelerations_closed.
  intros H Hb. injection H as H.
  apply (f_equal (fun l => l !! k)) in H.
  rewrite list_lookup_imap, Hb in H. simpl in H.
  injection H as H. rewrite <- H at 1. reflexivity.
Qed.

Lemma consistent_intro (bodies : list Body) :
  (forall k b, bodies !! k = Some b ->
     acc b = spec.newton_acceleration (spec.mass_pos <$> bodies) k) ->
  spec.consistent bodies.
Proof.
  intros H. unfold spec.consistent. rewrite compute_accelerations_closed.
  f_equal. apply list_eq. intros k. rewrite list_lookup_imap.
  destruct (bodies !! k) as [b |] eqn:Hb; simpl; [| reflexivity].
  rewrite <- (H k b Hb). now destruct b.
Qed.

(** A step forward leaves a consistent state, and the step backward from
    it returns to the state before, if that one was consistent. *)
Lemma step_system_back (bodies : list Body) (dt : R) :
  spec.consistent bodies ->
  exists bodies1,
    nbody.step_system bodies dt false = Ok bodies1
    /\ spec.consistent bodies1
    /\ nbody.step_system bodies1 (- dt) false = Ok bodies.
Proof.
  intros Hc. rewrite step_system_closed.
  set (moved := nbody.drift dt <$> (nbody.half_kick dt <$> bodies)).
  set (a1 := spec.newton_acceleration (spec.mass_pos <$> moved)).
  set (bodies1 := imap _ bodies).
  assert (Hk1 : forall k, bodies1 !! k
            = (fun b => nbody.half_kick dt
                 (set_acc (nbody.drift dt (nbody.half_kick dt b)) (a1 k)))
              <$> bodies !! k).
  { intros k. unfold bodies1. now rewrite list_lookup_imap. }
  assert (Hmp1 : spec.mass_pos <$> bodies1 = spec.mass_pos <$> moved).
  { apply list_eq. intros k. unfold moved.
    rewrite !list_lookup_fmap, Hk1. now destruct (bodies !! k). }
  exists bodies1. split; [reflexivity |]. split.
  - apply consistent_intro. intros k b1 Hb1. rewrite Hmp1. fold a1.
    rewrite Hk1 in Hb1. destruct (bodies !! k); simpl in Hb1; [| discriminate].
    now injection Hb1 as <-.
  - rewrite step_system_closed.
    set (moved2 := nbody.drift (- dt) <$> (nbody.half_kick (- dt) <$> bodies1)).
    assert (Hmp2 : spec.mass_pos <$> moved2 = spec.mass_pos <$> bodies).
    { apply list_eq. intros k. unfold moved2.
      rewrite !list_lookup_fmap, Hk1.
      destruct (bodies !! k) as [b |]; simpl; [| reflexivity].
      f_equal. unfold spec.mass_pos. simpl. f_equal. destruct b. simpl.
      vec_ring. }
    rewrite Hmp2. f_equal. apply list_eq. intros k.
    rewrite list_lookup_imap, Hk1.
    destruct (bodies !! k) as [b |] eqn:Hb; simpl; [| reflexivity].
    f_equal. rewrite <- (consistent_acc bodies k b Hc Hb).
    generalize (a1 k). intros a'. destruct b as [bn bm br bp bv ba].
    unfold nbody.half_kick, nbody.drift, set_acc, set_vel, set_pos. simpl.
    f_equal; vec_ring.
Qed.

Lemma run_snoc (N : nat) (dt : R) (rel : bool) (bodies : list Body) :
  nbody.run (S N) dt rel bodies
  = (bodies' ← nbody.run N dt rel bodies; nbody.step_system bodies' dt rel).
Proof.
  revert bodies. induction N as [| N IH]; intros bodies.
  - simpl. destruct (nbody.step_system bodies dt rel); reflexivity.
  - change (nbody.run (S (S N)) dt rel bodies)
      with (b ← nbody.step_system bodies dt rel; nbody.run (S N) dt rel b).
    change (nbody.run (S N) dt rel bodies)
      with (b ← nbody.step_system bodies dt rel; nbody.run N dt rel b).
    destruct (nbody.step_system bodies dt rel) as [b | e]; [| reflexivity].
    rewrite !bind_Ok, IH. reflexivity.
Qed.

(** C7.  Time reversibility, in exact arithmetic and without the
    relativistic correction.  From a state whose stored accelerations are
    those of [compute_accelerations] at the current positions, a step with
    [dt] followed by a step with [-dt] restores every body (position,
    velocity and all other fields); and [N] steps with [dt] followed by
    [N] steps with [-dt] return the initial state.  [dt] is any real
    number, of either sign. *)
Theorem step_system_time_reversible (bodies : list Body) (dt : R) :
  spec.consistent bodies ->
  (exists bodies1,
     nbody.step_system bodies dt false = Ok bodies1
     /\ nbody.step_system bodies1 (- dt) false = Ok bodies)
  /\ forall N : nat,
       exists bodiesN,
         nbody.run N dt false bodies = Ok bodiesN
         /\ nbody.run N (- dt) false bodiesN = Ok bodies.
Proof.
  intros Hc. split.
  - destruct (step_system_back bodies dt Hc) as (b1 & H1 & _ & H2). eauto.
  - intros N. revert bodies Hc. induction N as [| N IH]; intros bodies Hc.
    + exists bodies. split; reflexivity.
    + destruct (step_system_back bodies dt Hc) as (b1 & H1 & Hc1 & H2).
      destruct (IH b1 Hc1) as (bN & HN & HbackN).
      exists bN. split.
      * simpl. now rewrite H1.
      * rewrite run_snoc, HbackN. exact H2.
Qed.

(** ** Diagnostics: [total_energy] *)

Lemma Rsum_opp {A} (f : A -> R) (l : list A) :
  Rsum ((fun x => - f x) <$> l) = - Rsum (f <$> l).
Proof.
  unfold Rsum. induction l as [| x l IH]; csimpl; [lra |]. rewrite IH. lra.
Qed.

Lemma kinetic_loop (g : Body -> R) (bodies : list Body) (E : R) :
  foldl (fun E b => E + g b) E bodies = E + Rsum (g <$> bodies).
Proof.
  unfold Rsum. revert E. induction bodies as [| b bodies IH]; intros E; csimpl.
  - lra.
  - rewrite IH. lra.
Qed.

Lemma pair_potential_step (bodies : list Body) (i j : nat) (E_pot : R) :
  (i < length bodies)%nat -> (j < length bodies)%nat ->
  diagnostics.pair_potential bodies i j E_pot
  = Ok (E_pot + - spec.guarded_pair_potential bodies i j).
Proof.
  intros Hi Hj.
  destruct (lookup_lt_is_Some_2 bodies i Hi) as [bi Hbi].
  destruct (lookup_lt_is_Some_2 bodies j Hj) as [bj Hbj].
  unfold diagnostics.pair_potential, spec.guarded_pair_potential.
  rewrite (get_Some _ _ _ Hbj), bind_Ok, (get_Some _ _ _ Hbi), bind_Ok.
  rewrite Hbi, Hbj.
  destruct (decide (pos bi = pos bj)) as [Heq | Hne].
  - rewrite Heq. replace (pos bj -v pos bj) with vzero by (symmetry; vec_ring).
    replace (norm vzero) with 0 by (symmetry; now apply norm_zero_iff).
    rewrite decide_False by lra. f_equal. lra.
  - assert (Hpos : 0 < norm (pos bj -v pos bi)).
    { apply norm_pos. rewrite vsub_zero_iff. congruence. }
    rewrite decide_True by lra.
    rewrite checked_div_ok by lra. rewrite bind_Ok.
    rewrite (norm_sub_sym (pos bi) (pos bj)). reflexivity.
Qed.

(** [total_energy] on any body list. *)
Lemma total_energy_closed (bodies : list Body) :
  diagnostics.total_energy bodies
  = Ok (spec.kinetic_energy bodies
        - spec.pair_sum (length bodies) (spec.guarded_pair_potential bodies)).
Proof.
  unfold diagnostics.total_energy.
  set (n := length bodies).
  rewrite (for_each_accumulate _ _
             (fun i => Rsum ((fun j => - spec.guarded_pair_potential bodies i j)
                               <$> range (i + 1) n))).
  2:{ intros i E Hi. apply elem_of_range in Hi.
      apply for_each_accumulate. intros j E' Hj. apply elem_of_range in Hj.
      apply pair_potential_step; fold n; lia. }
  rewrite bind_Ok. f_equal.
  rewrite (kinetic_loop (fun b => 0.5 * mass b * dot (vel b) (vel b))).
  assert (Hk : Rsum ((fun b => 0.5 * mass b * dot (vel b) (vel b)) <$> bodies)
               = spec.kinetic_energy bodies).
  { apply (big_ext Rplus 0). intros b _. simpl. rewrite lit_half. reflexivity. }
  assert (Hp : Rsum ((fun i =>
                  Rsum ((fun j => - spec.guarded_pair_potential bodies i j)
                          <$> range (i + 1) n)) <$> range 0 n)
               = - spec.pair_sum n (spec.guarded_pair_potential bodies)).
  { unfold spec.pair_sum. rewrite <- Rsum_opp.
    unfold range at 2. rewrite Nat.sub_0_r.
    apply (big_ext Rplus 0). intros i _. simpl.
    rewrite Rsum_opp. f_equal. unfold Rsum.
    rewrite (big_range_from Rplus 0 Rplus_0_l).
    apply big_ext. intros j _. simpl.
    destruct (decide (i + 1 <= j)%nat), (decide (i < j)%nat);
      try lia; reflexivity. }
  rewrite Hk, Hp. lra.
Qed.

Lemma guarded_pair_potential_distinct (bodies : list Body) (i j : nat) :
  NoDup (pos <$> bodies) -> i <> j ->
  spec.guarded_pair_potential bodies i j = spec.pair_potential bodies i j.
Proof.
  intros Hnd Hij. unfold spec.guarded_pair_potential, spec.pair_potential.
  destruct (bodies !! i) as [bi |] eqn:Hbi; [| reflexivity].
  destruct (bodies !! j) as [bj |] eqn:Hbj; [| reflexivity].
  rewrite decide_False; [reflexivity |].
  intros Heq. apply Hij.
  apply (NoDup_lookup (pos <$> bodies) i j (pos bi) Hnd).
  - now rewrite list_lookup_fmap, Hbi.
  - now rewrite list_lookup_fmap, Hbj, Heq.
Qed.

(** C8.  When the bodies occupy pairwise distinct positions,
    [total_energy] returns the sum over the bodies of [1/2 m |v|^2] minus
    the sum over the pairs [i < j] of [G m_i m_j / |pos_i - pos_j|], with
    the plain distance and no softening; and the body list is left as it
    was. *)
Theorem total_energy_unsoftened (bodies : list Body) :
  NoDup (pos <$> bodies) ->
  diagnostics.total_energy_call bodies
  = Ok (bodies,
        spec.kinetic_energy bodies
        - spec.pair_sum (length bodies) (spec.pair_potential bodies)).
Proof.
  intros Hnd. unfold diagnostics.total_energy_call.
  rewrite total_energy_closed, bind_Ok. do 3 f_equal.
  unfold spec.pair_sum. apply (big_ext Rplus 0). intros i _. simpl.
  apply (big_ext Rplus 0). intros j _. simpl.
  destruct (decide (i < j)%nat); [| reflexivity].
  apply guarded_pair_potential_distinct; [exact Hnd | lia].
Qed.

(** C10.  [total_energy] returns normally on every body list, coincident
    bodies included: no division by zero occurs, and a pair of bodies at
    the same position contributes nothing to the potential energy.  In
    particular two bodies at one position [p] have their kinetic energy as
    total energy. *)
Theorem total_energy_total (bodies : list Body) :
  diagnostics.total_energy bodies
  = Ok (spec.kinetic_energy bodies
        - spec.pair_sum (length bodies) (spec.guarded_pair_potential bodies))
  /\ forall (b1 b2 : Body) (p : vec),
       diagnostics.total_energy [set_pos b1 p; set_pos b2 p]
       = Ok (/ 2 * mass b1 * dot (vel b1) (vel b1)
             + / 2 * mass b2 * dot (vel b2) (vel b2)).
Proof.
  split; [apply total_energy_closed |].
  intros b1 b2 p. rewrite total_energy_closed. f_equal.
  unfold spec.kinetic_energy, spec.pair_sum, spec.guarded_pair_potential, Rsum.
  simpl. rewrite decide_True by reflexivity. lra.
Qed.

(** ** Orbital elements: [state_to_elements] *)

Lemma cross_zero_l (v : vec) : cross vzero v = vzero.
Proof. vec_ring. Qed.

Lemma norm_sq (a : vec) : norm a * norm a = dot a a.
Proof. unfold norm. apply sqrt_sqrt, dot_nonneg. Qed.

Lemma cos_inclination_bounds (h : vec) :
  0 < norm h -> -1 <= vz h / norm h <= 1.
Proof.
  intros Hpos. pose proof (norm_sq h) as Hsq. unfold dot in Hsq.
  assert (Hq : vz h / norm h * norm h = vz h) by (field; lra).
  assert (Hb : - norm h <= vz h <= norm h) by (split; nra).
  split; nra.
Qed.

(** An orbit of inclination zero has its angular momentum along [z]. *)
Lemma inclination_zero (r v : vec) :
  cross r v <> vzero -> elements.inclination r v = 0 ->
  vx (cross r v) = 0 /\ vy (cross r v) = 0.
Proof.
  intros Hh Hi. unfold elements.inclination in Hi.
  set (h := cross r v) in *.
  pose proof (norm_pos h Hh) as Hpos.
  assert (Hc : -1 <= vz h / norm h <= 1) by now apply cos_inclination_bounds.
  pose proof (cos_acos _ Hc) as Hcos. rewrite Hi, cos_0 in Hcos.
  assert (Hz : vz h = norm h).
  { apply (Rmult_eq_reg_r (/ norm h)).
    - rewrite Rinv_r by lra. symmetry. exact Hcos.
    - apply Rinv_neq_0_compat. lra. }
  pose proof (norm_sq h) as Hsq. rewrite <- Hz in Hsq. unfold dot in Hsq.
  split; nra.
Qed.

(** On a circular orbit with angular momentum, the speed is the circular
    speed. *)
Lemma eccentricity_zero (r v : vec) (mu : R) :
  mu <> 0 -> cross r v <> vzero -> elements.eccentricity r v mu = 0 ->
  norm v ^ 2 - mu / norm r = 0.
Proof.
  intros Hmu Hh He. apply norm_zero_iff in He. unfold elements.e_vec in He.
  set (alpha := norm v ^ 2 - mu / norm r) in *.
  set (beta := dot r v) in *.
  apply (f_equal vx) in He as Hx. apply (f_equal vy) in He as Hy.
  apply (f_equal vz) in He as Hz. vec_simpl.
  assert (Hx' : alpha * vx r = beta * vx v).
  { apply (Rmult_eq_reg_l (1 / mu)); [lra |].
    unfold Rdiv. rewrite Rmult_1_l. now apply Rinv_neq_0_compat. }
  assert (Hy' : alpha * vy r = beta * vy v).
  { apply (Rmult_eq_reg_l (1 / mu)); [lra |].
    unfold Rdiv. rewrite Rmult_1_l. now apply Rinv_neq_0_compat. }
  assert (Hz' : alpha * vz r = beta * vz v).
  { apply (Rmult_eq_reg_l (1 / mu)); [lra |].
    unfold Rdiv. rewrite Rmult_1_l. now apply Rinv_neq_0_compat. }
  destruct (Req_dec_T alpha 0) as [H0 | Hne]; [exact H0 |].
  exfalso. apply Hh. apply vec_eq; simpl;
    apply (Rmult_eq_reg_l alpha); try exact Hne; rewrite Rmult_0_r.
  - replace (alpha * (vy r * vz v - vz r * vy v))
      with (alpha * vy r * vz v - alpha * vz r * vy v) by ring.
    rewrite Hy', Hz'. ring.
  - replace (alpha * (vz r * vx v - vx r * vz v))
      with (alpha * vz r * vx v - alpha * vx r * vz v) by ring.
    rewrite Hz', Hx'. ring.
  - replace (alpha * (vx r * vy v - vy r * vx v))
      with (alpha * vx r * vy v - alpha * vy r * vx v) by ring.
    rewrite Hx', Hy'. ring.
Qed.

Ltac step_div x y :=
  rewrite (checked_div_ok x y); [rewrite bind_Ok; cbv beta |].

(** The range of [math.atan2]. *)
Lemma atan2_range (y x : R) : - PI < elements.atan2 y x <= PI.
Proof.
  pose proof PI_RGT_0 as Hpi. pose proof (atan_bound (y / x)) as [Hlo Hhi].
  unfold elements.atan2.
  destruct (decide (0 < x)) as [Hx | Hx]; [lra |].
  destruct (decide (x < 0)) as [Hx' | Hx'].
  - destruct (decide (0 <= y)) as [Hy | Hy].
    + assert (Hq : y / x <= 0).
      { apply Rmult_le_reg_r with (- x); [lra |].
        replace (y / x * - x) with (- y) by (field; lra). lra. }
      assert (Ha : atan (y / x) <= 0).
      { destruct Hq as [Hq | Hq].
        - apply atan_increasing in Hq. rewrite atan_0 in Hq. lra.
        - rewrite Hq, atan_0. lra. }
      lra.
    + assert (Hq : 0 < y / x).
      { apply Rmult_lt_reg_r with (- x); [lra |].
        replace (y / x * - x) with (- y) by (field; lra). lra. }
      apply atan_increasing in Hq. rewrite atan_0 in Hq. lra.
  - repeat destruct (decide _); lra.
Qed.

(** For [e = 0] the eccentric anomaly computed from [nu] is [nu] itself,
    also at [nu = PI], where [nu / 2] is the pole of the tangent. *)
Lemma eccentric_anomaly_circular (nu : R) :
  - PI < nu <= PI ->
  2 * elements.atan2_tan (elements.math_tan (nu / 2)) 1 = nu.
Proof.
  intros [Hlo Hhi]. pose proof PI_RGT_0 as Hpi. unfold elements.math_tan.
  destruct (Req_dec_T nu PI) as [-> | Hne].
  - rewrite (decide_True (P := cos (PI / 2) = 0)) by apply cos_PI2.
    rewrite (decide_True (P := 0 < PI / 2)) by lra.
    cbn [elements.atan2_tan]. lra.
  - assert (Hc : 0 < cos (nu / 2)) by (apply cos_gt_0; lra).
    rewrite (decide_False (P := cos (nu / 2) = 0)) by lra.
    cbn [elements.atan2_tan]. unfold elements.atan2.
    rewrite (decide_True (P := 0 < 1)) by lra.
    replace (tan (nu / 2) / 1) with (tan (nu / 2)) by field.
    rewrite atan_tan by lra. field.
Qed.

(** C9.  A circular, equatorial orbit.  For a state with nonzero angular
    momentum whose eccentricity and inclination, as [state_to_elements]
    computes them, are exactly zero (and [mu > 0]), [state_to_elements]
    returns normally with [Omega = 0] and [omega = 0] (and [e = 0],
    [i = 0], [a = |r|]); the true anomaly is taken by the fallback branch,
    [nu = atan2(r[1], r[0])], the angle of the position in the equatorial
    plane, and the mean anomaly returned is this angle: [M = E = nu], also
    for a position on the negative x axis, where [nu = PI]. *)
Theorem state_to_elements_circular_equatorial (r v : vec) (mu : R) :
  0 < mu -> cross r v <> vzero ->
  elements.eccentricity r v mu = 0 -> elements.inclination r v = 0 ->
  elements.state_to_elements r v mu
  = Ok (elements.Elements (norm r) 0 0 0 0 (elements.atan2 (vy r) (vx r))).
Proof.
  intros Hmu Hh He Hi.
  pose proof (norm_pos _ Hh) as Hhmag.
  assert (Hr : 0 < norm r).
  { apply norm_pos. intros ->. apply Hh, cross_zero_l. }
  destruct (inclination_zero r v Hh Hi) as [Hhx Hhy].
  assert (HN : norm (cross (V3 0 0 1) (cross r v)) = 0).
  { apply norm_zero_iff. apply vec_eq; vec_simpl; nra. }
  pose proof (eccentricity_zero r v mu ltac:(lra) Hh He) as Hcirc.
  unfold elements.state_to_elements. cbv zeta.
  step_div (vz (cross r v)) (norm (cross r v)); [| lra].
  unfold elements.math_acos.
  destruct (cos_inclination_bounds (cross r v) Hhmag) as [Hlo Hhi].
  rewrite (decide_True _ _ Hlo), (decide_True _ _ Hhi), bind_Ok. cbv beta.
  step_div 1 mu; [| lra].
  step_div mu (norm r); [| lra].
  step_div 2 (norm r); [| lra].
  step_div (norm v ^ 2) mu; [| lra].
  change (norm (1 / mu *v ((norm v ^ 2 - mu / norm r) *v r -v dot r v *v v)))
    with (elements.eccentricity r v mu).
  change (acos (vz (cross r v) / norm (cross r v)))
    with (elements.inclination r v).
  rewrite He, Hi, HN.
  assert (Ha : 2 / norm r - norm v ^ 2 / mu = / norm r).
  { replace (norm v ^ 2) with (mu / norm r) by lra. field. lra. }
  rewrite Ha.
  step_div 1 (/ norm r); [| apply Rinv_neq_0_compat; lra].
  rewrite (decide_False (P := 0 <> 0 /\ 0 > 1e-10)) by (intros [H _]; now apply H).
  rewrite bind_Ok. cbv beta.
  rewrite (decide_False (P := 0 > 1e-10)) by lra.
  rewrite bind_Ok. cbv beta.
  step_div (1 + 0) (1 - 0); [| lra].
  replace ((1 + 0) / (1 - 0)) with 1 by (field; lra).
  unfold elements.math_sqrt. rewrite (decide_True (P := 0 <= 1)) by lra.
  rewrite bind_Ok. cbv beta. rewrite sqrt_1.
  rewrite (decide_False (P := 0 <> 0)) by (intros H; now apply H).
  f_equal. f_equal.
  - unfold Rdiv. rewrite Rmult_1_l. apply Rinv_inv.
  - rewrite eccentric_anomaly_circular by apply atan2_range. ring.
Qed.

(** C4.  [state_to_elements] divides by the magnitude of the angular
    momentum without any guard: on every state whose velocity is parallel
    to its position (a body at rest relative to the central body, or on a
    radial path), its first division, [h[2] / hmag], has denominator
    exactly zero. *)
Theorem state_to_elements_divides_by_zero (r : vec) (k mu : R) :
  elements.state_to_elements r (k *v r) mu = Raise ZeroDivisionError.
Proof.
  unfold elements.state_to_elements. cbv zeta.
  replace (cross r (k *v r)) with vzero by (symmetry; vec_ring).
  replace (norm vzero) with 0 by (symmetry; now apply norm_zero_iff).
  now rewrite checked_div_zero.
Qed.

(** ** Orbital elements: the Kepler solve of [elements_to_state] *)

Lemma newton_raphson_at_root (iters : nat) (M E : R) :
  E = M -> elements.newton_raphson iters M 0 E = Ok M.
Proof.
  revert E. induction iters as [| k IH]; intros E HE; simpl.
  - now rewrite HE.
  - unfold elements.kepler, elements.kepler_prime.
    rewrite checked_div_ok by lra. rewrite bind_Ok. apply IH.
    rewrite HE. field.
Qed.

Lemma np_mod_period (d : R) : 0 < d -> elements.np_mod d d = 0.
Proof.
  intros Hd. unfold elements.np_mod.
  replace (d / d) with (INR 1) by (simpl; field; lra).
  rewrite Int_part_INR. simpl. ring.
Qed.

Lemma solve_kepler_loop_at_root (k : nat) (tol M E : R) :
  0 < tol -> E = M -> elements.solve_kepler_loop (S k) tol 0 M E = Ok M.
Proof.
  intros Htol HE. simpl.
  rewrite checked_div_ok by lra. rewrite bind_Ok. subst E.
  replace (- (M - 0 * sin M - M) / (1 - 0 * cos M)) with 0 by (field; lra).
  rewrite Rabs_R0, decide_True by exact Htol.
  f_equal. ring.
Qed.

(** For a bound orbit ([-1 < e < 1]) the loop of [elements_to_state] meets
    no zero denominator: it always returns its last iterate. *)
Lemma newton_raphson_total (iters : nat) (M e E : R) :
  -1 < e < 1 -> exists E', elements.newton_raphson iters M e E = Ok E'.
Proof.
  intros He. revert E. induction iters as [| k IH]; intros E; simpl.
  - eauto.
  - unfold elements.kepler_prime. pose proof (COS_bound E) as [Hlo Hhi].
    assert (Hpos : 0 < 1 - e * cos E) by (destruct (Rle_dec 0 e); nra).
    rewrite checked_div_ok by lra. rewrite bind_Ok. apply IH.
Qed.

(** So does the loop of [solve_kepler], the helper that range-reduces,
    seeds at [M] or [PI] and tests the tolerance. *)
Lemma solve_kepler_total (M e tol : R) (max_iter : nat) :
  -1 < e < 1 -> exists E, elements.solve_kepler M e tol max_iter = Ok E.
Proof.
  intros He. unfold elements.solve_kepler.
  generalize (elements.np_mod M (2 * PI)). intros M'.
  generalize (if decide (e < 0.8) then M' else PI).
  induction max_iter as [| k IH]; intros E; simpl.
  - eauto.
  - pose proof (COS_bound E) as [Hlo Hhi].
    assert (Hpos : 0 < 1 - e * cos E) by (destruct (Rle_dec 0 e); nra).
    rewrite checked_div_ok by lra. rewrite bind_Ok.
    destruct (decide _); [eauto | apply IH].
Qed.

(** C3.  The Kepler solve inside [elements_to_state] is not the one of
    [solve_kepler]: for [M = 2 PI] and [e = 0] it works with [E = 2 PI],
    the mean anomaly as given, after its ten iterations, where
    [solve_kepler] reduces [M] to [0] and returns [0]. *)
Theorem elements_to_state_kepler_solve :
  elements.eccentric_anomaly (2 * PI) 0 = Ok (2 * PI)
  /\ elements.solve_kepler_default (2 * PI) 0 = Ok 0.
Proof.
  pose proof PI_RGT_0 as Hpi. split.
  - now apply newton_raphson_at_root.
  - unfold elements.solve_kepler_default, elements.solve_kepler.
    rewrite np_mod_period by lra.
    rewrite decide_True by lra.
    apply solve_kepler_loop_at_root; [lra | reflexivity].
Qed.

(** ** The statements above, on the two-body test system *)

Lemma with_newton_accelerations_consistent (bodies : list Body) :
  spec.consistent (with_newton_accelerations bodies).
Proof.
  assert (Hmp : spec.mass_pos <$> with_newton_accelerations bodies
                = spec.mass_pos <$> bodies).
  { unfold with_newton_accelerations. rewrite fmap_imap. apply list_eq.
    intros k. rewrite list_lookup_imap, list_lookup_fmap.
    now destruct (bodies !! k). }
  apply consistent_intro. intros k b Hb. rewrite Hmp.
  unfold with_newton_accelerations in Hb. rewrite list_lookup_imap in Hb.
  destruct (bodies !! k); simpl in Hb; [| discriminate].
  now injection Hb as <-.
Qed.

Lemma step_system_velocity_verlet_witness :
  (ENABLE_1PN_DEFAULT = true -> create_test_system <> [])
  /\ exists forces : list Body,
       spec.evaluate_forces ENABLE_1PN_DEFAULT
         (nbody.drift DT <$> (nbody.half_kick DT <$> create_test_system))
       = Ok forces
       /\ nbody.step_system create_test_system DT ENABLE_1PN_DEFAULT
          = Ok (nbody.half_kick DT <$> forces)
       /\ length forces = length create_test_system
       /\ forall (k : nat) (b f : Body),
            create_test_system !! k = Some b -> forces !! k = Some f ->
            pos f = pos b +v (vel b +v (/ 2 * DT) *v acc b) v* DT
            /\ (nbody.half_kick DT <$> forces) !! k
               = Some (mkBody (name b) (mass b) (radius b)
                         (pos b +v (vel b +v (/ 2 * DT) *v acc b) v* DT)
                         (vel b +v (/ 2 * DT) *v (acc b +v acc f))
                         (acc f)).
Proof.
  assert (Hne : ENABLE_1PN_DEFAULT = true -> create_test_system <> [])
    by (intros _; discriminate).
  split; [exact Hne |].
  exact (step_system_velocity_verlet create_test_system DT ENABLE_1PN_DEFAULT
           Hne).
Defined.

Lemma compute_accelerations_third_law_witness :
  (0%nat <> 1%nat /\ create_test_system !! 0%nat = Some Sun
   /\ create_test_system !! 1%nat = Some Earth)
  /\ exists ai aj : vec,
       nbody.pair_update 0 1 create_test_system
       = Ok (alter (add_acc aj) 1%nat (alter (add_acc ai) 0%nat create_test_system))
       /\ mass Sun *v ai = (- mass Earth) *v aj.
Proof.
  assert (H01 : 0%nat <> 1%nat) by discriminate.
  assert (HS : create_test_system !! 0%nat = Some Sun) by reflexivity.
  assert (HE : create_test_system !! 1%nat = Some Earth) by reflexivity.
  split; [auto |].
  exact (proj2 compute_accelerations_third_law create_test_system 0%nat 1%nat
           Sun Earth H01 HS HE).
Defined.

Lemma step_system_time_reversible_witness :
  spec.consistent (with_newton_accelerations create_test_system)
  /\ (exists bodies1,
        nbody.step_system (with_newton_accelerations create_test_system) DT false
        = Ok bodies1
        /\ nbody.step_system bodies1 (- DT) false
           = Ok (with_newton_accelerations create_test_system))
  /\ forall N : nat,
       exists bodiesN,
         nbody.run N DT false (with_newton_accelerations create_test_system)
         = Ok bodiesN
         /\ nbody.run N (- DT) false bodiesN
            = Ok (with_newton_accelerations create_test_system).
Proof.
  pose proof (with_newton_accelerations_consistent create_test_system) as Hc.
  split; [exact Hc |].
  exact (step_system_time_reversible
           (with_newton_accelerations create_test_system) DT Hc).
Defined.

Lemma test_system_positions_distinct : NoDup (pos <$> create_test_system).
Proof.
  simpl. apply NoDup_cons. split.
  - rewrite list_elem_of_singleton. intros H. apply (f_equal vx) in H.
    simpl in H. unfold earth_distance in H. lra.
  - apply NoDup_singleton.
Qed.

Lemma total_energy_unsoftened_witness :
  NoDup (pos <$> create_test_system)
  /\ diagnostics.total_energy_call create_test_system
     = Ok (create_test_system,
           spec.kinetic_energy create_test_system
           - spec.pair_sum (length create_test_system)
               (spec.pair_potential create_test_system)).
Proof.
  split; [exact test_system_positions_distinct |].
  exact (total_energy_unsoftened create_test_system
           test_system_positions_distinct).
Defined.

Lemma G_pos : 0 < G.
Proof. unfold G. pose proof PI_RGT_0. nra. Qed.

Lemma earth_speed_pos : 0 < earth_speed.
Proof.
  unfold earth_speed, earth_distance. simpl. apply sqrt_lt_R0.
  pose proof G_pos. lra.
Qed.

Lemma earth_speed_sq : earth_speed * earth_speed = G.
Proof.
  unfold earth_speed, earth_distance. simpl. rewrite sqrt_sqrt.
  - field.
  - pose proof G_pos. lra.
Qed.

Lemma norm_axis_x (a : R) : 0 <= a -> norm (V3 a 0 0) = a.
Proof.
  intros Ha. unfold norm, dot. simpl.
  replace (a * a + 0 * 0 + 0 * 0) with (a * a) by ring. now apply sqrt_square.
Qed.

Lemma norm_axis_y (a : R) : 0 <= a -> norm (V3 0 a 0) = a.
Proof.
  intros Ha. unfold norm, dot. simpl.
  replace (0 * 0 + a * a + 0 * 0) with (a * a) by ring. now apply sqrt_square.
Qed.

Lemma norm_axis_z (a : R) : 0 <= a -> norm (V3 0 0 a) = a.
Proof.
  intros Ha. unfold norm, dot. simpl.
  replace (0 * 0 + 0 * 0 + a * a) with (a * a) by ring. now apply sqrt_square.
Qed.

Lemma earth_angular_momentum :
  cross (pos Earth) (vel Earth) = V3 0 0 earth_speed.
Proof. apply vec_eq; simpl; unfold earth_distance; ring. Qed.

Lemma earth_orbit_circular : elements.eccentricity (pos Earth) (vel Earth) G = 0.
Proof.
  pose proof earth_speed_pos as Hs. pose proof earth_speed_sq as Hsq.
  pose proof G_pos as HG.
  unfold elements.eccentricity. apply norm_zero_iff.
  unfold elements.e_vec. simpl.
  rewrite norm_axis_y by lra. unfold earth_distance.
  rewrite norm_axis_x by lra.
  apply vec_eq; vec_simpl; field_simplify; try lra.
  all: replace (earth_speed ^ 2) with G by (rewrite <- Hsq; ring).
  all: field; lra.
Qed.

Lemma earth_orbit_equatorial : elements.inclination (pos Earth) (vel Earth) = 0.
Proof.
  pose proof earth_speed_pos as Hs.
  unfold elements.inclination. rewrite earth_angular_momentum. simpl.
  rewrite norm_axis_z by lra.
  replace (earth_speed / earth_speed) with 1 by (field; lra).
  apply acos_1.
Qed.

(** A circular, equatorial state on the negative x axis, where the true
    anomaly is [PI]. *)
Lemma norm_unit_x_neg : norm (V3 (-1) 0 0) = 1.
Proof.
  unfold norm, dot. cbn [vx vy vz].
  replace (-1 * -1 + 0 * 0 + 0 * 0) with 1 by ring. apply sqrt_1.
Qed.

Lemma norm_unit_y_neg : norm (V3 0 (-1) 0) = 1.
Proof.
  unfold norm, dot. cbn [vx vy vz].
  replace (0 * 0 + -1 * -1 + 0 * 0) with 1 by ring. apply sqrt_1.
Qed.

Lemma opposite_angular_momentum :
  cross (V3 (-1) 0 0) (V3 0 (-1) 0) = V3 0 0 1.
Proof. apply vec_eq; unfold cross; cbn [vx vy vz]; ring. Qed.

Lemma opposite_orbit_circular :
  elements.eccentricity (V3 (-1) 0 0) (V3 0 (-1) 0) 1 = 0.
Proof.
  unfold elements.eccentricity. apply norm_zero_iff.
  unfold elements.e_vec. rewrite norm_unit_x_neg, norm_unit_y_neg.
  apply vec_eq; unfold smul, vsub, dot, vzero; cbn [vx vy vz]; field.
Qed.

Lemma opposite_orbit_equatorial :
  elements.inclination (V3 (-1) 0 0) (V3 0 (-1) 0) = 0.
Proof.
  unfold elements.inclination. rewrite opposite_angular_momentum.
  cbn [vz]. rewrite norm_axis_z by lra.
  replace (1 / 1) with 1 by field. apply acos_1.
Qed.

Lemma atan2_negative_x_axis : elements.atan2 0 (-1) = PI.
Proof.
  unfold elements.atan2.
  rewrite (decide_False (P := 0 < -1)) by lra.
  rewrite (decide_True (P := -1 < 0)) by lra.
  rewrite (decide_True (P := 0 <= 0)) by lra.
  replace (0 / -1) with 0 by field. rewrite atan_0. ring.
Qed.

Lemma state_to_elements_circular_equatorial_witness :
  ((0 < G /\ cross (pos Earth) (vel Earth) <> vzero
    /\ elements.eccentricity (pos Earth) (vel Earth) G = 0
    /\ elements.inclination (pos Earth) (vel Earth) = 0)
   /\ elements.state_to_elements (pos Earth) (vel Earth) G
      = Ok (elements.Elements (norm (pos Earth)) 0 0 0 0
              (elements.atan2 (vy (pos Earth)) (vx (pos Earth)))))
  /\ ((0 < 1 /\ cross (V3 (-1) 0 0) (V3 0 (-1) 0) <> vzero
       /\ elements.eccentricity (V3 (-1) 0 0) (V3 0 (-1) 0) 1 = 0
       /\ elements.inclination (V3 (-1) 0 0) (V3 0 (-1) 0) = 0)
      /\ elements.state_to_elements (V3 (-1) 0 0) (V3 0 (-1) 0) 1
         = Ok (elements.Elements 1 0 0 0 0 PI)).
Proof.
  assert (Hh : cross (pos Earth) (vel Earth) <> vzero).
  { rewrite earth_angular_momentum. intros H. apply (f_equal vz) in H.
    simpl in H. pose proof earth_speed_pos. lra. }
  assert (Hh' : cross (V3 (-1) 0 0) (V3 0 (-1) 0) <> vzero).
  { rewrite opposite_angular_momentum. intros H. apply (f_equal vz) in H.
    simpl in H. lra. }
  split; split.
  - auto using G_pos, earth_orbit_circular, earth_orbit_equatorial.
  - exact (state_to_elements_circular_equatorial (pos Earth) (vel Earth) G
             G_pos Hh earth_orbit_circular earth_orbit_equatorial).
  - auto using Rlt_0_1, opposite_orbit_circular, opposite_orbit_equatorial.
  - rewrite (state_to_elements_circular_equatorial (V3 (-1) 0 0)
               (V3 0 (-1) 0) 1 Rlt_0_1 Hh' opposite_orbit_circular
               opposite_orbit_equatorial).
    cbn [vx vy]. now rewrite norm_unit_x_neg, atan2_negative_x_axis.
Defined.

(** * Further properties of the code *)

(** ** More on sums *)

Section big_sums_more.
Context {M : Type} (op : M -> M -> M) (u : M).
Hypothesis op_assoc : forall a b c, op a (op b c) = op (op a b) c.
Hypothesis op_comm : forall a b, op a b = op b a.
Hypothesis op_unit_l : forall a, op u a = a.

Local Abbreviation big l := (foldr op u l).

(** Exchange of two summations. *)
Lemma big_swap {A B} (g : A -> B -> M) (l1 : list A) (l2 : list B) :
  big ((fun i => big (g i <$> l2)) <$> l1)
  = big ((fun j => big ((fun i => g i j) <$> l1)) <$> l2).
Proof.
  induction l1 as [| x l1 IH]; csimpl.
  - symmetry. apply (big_unit op u op_unit_l).
  - rewrite IH. symmetry. apply (big_op op u op_assoc op_comm op_unit_l).
Qed.

(** A sum over a list, as a sum over its indices. *)
Lemma big_index {A} (f : A -> M) (l : list A) :
  big (f <$> l)
  = big ((fun k => match l !! k with Some x => f x | None => u end)
           <$> seq 0 (length l)).
Proof.
  induction l as [| x l IH] using rev_ind; [reflexivity |].
  rewrite length_app, Nat.add_1_r, seq_S, !fmap_app, !foldr_app. csimpl.
  rewrite lookup_app_r, Nat.sub_diag by lia. simpl.
  assert (Hacc : forall (h : list M) (a : M), foldr op a h = op (foldr op u h) a).
  { induction h as [| y h IHh]; intros a; simpl.
    - now rewrite op_unit_l.
    - now rewrite IHh, op_assoc. }
  rewrite (Hacc (f <$> l)), (Hacc (_ <$> seq 0 (length l))). f_equal.
  rewrite IH. apply (big_ext op u). intros k Hk. apply elem_of_seq in Hk.
  now rewrite lookup_app_l by lia.
Qed.

(** A left fold that accumulates, as a sum. *)
Lemma foldl_big {A} (f : A -> M) (l : list A) (a : M) :
  foldl (fun s x => op s (f x)) a l = op a (big (f <$> l)).
Proof.
  revert a. induction l as [| x l IH]; intros a; csimpl.
  - now rewrite (op_comm a u), op_unit_l.
  - now rewrite IH, op_assoc.
Qed.
End big_sums_more.

Lemma vsum_smul {A} (k : R) (f : A -> vec) (l : list A) :
  vsum ((fun x => k *v f x) <$> l) = k *v vsum (f <$> l).
Proof.
  unfold vsum. induction l as [| x l IH]; csimpl.
  - vec_ring.
  - rewrite IH. vec_ring.
Qed.

Lemma vsum_add {A} (f g : A -> vec) (l : list A) :
  vsum ((fun x => f x +v g x) <$> l) = vsum (f <$> l) +v vsum (g <$> l).
Proof. apply (big_op vadd vzero vadd_assoc vadd_comm vadd_0_l). Qed.

Lemma vsum_zero {A} (l : list A) : vsum ((fun _ => vzero) <$> l) = vzero.
Proof. apply (big_unit vadd vzero vadd_0_l). Qed.

Lemma vadd_self_zero (a : vec) : a +v a = vzero -> a = vzero.
Proof.
  intros H. apply (f_equal vx) in H as Hx. apply (f_equal vy) in H as Hy.
  apply (f_equal vz) in H as Hz. apply vec_eq; vec_simpl; lra.
Qed.

(** A double sum of antisymmetric terms over the pairs [i <> j]
    vanishes. *)
Lemma vsum_antisymmetric (n : nat) (F : nat -> nat -> vec) :
  (forall i j, (i < n)%nat -> (j < n)%nat -> i <> j -> F i j +v F j i = vzero) ->
  vsum ((fun i => vsum (F i <$> filter (fun j => j <> i) (seq 0 n))) <$> seq 0 n)
  = vzero.
Proof.
  intros HF. apply vadd_self_zero.
  set (g := fun i j : nat => if decide (j <> i) then F i j else vzero).
  assert (HS : vsum ((fun i => vsum (F i <$> filter (fun j => j <> i) (seq 0 n)))
                       <$> seq 0 n)
               = vsum ((fun i => vsum (g i <$> seq 0 n)) <$> seq 0 n)).
  { apply (big_ext vadd vzero). intros i _. simpl. symmetry.
    apply (big_filter vadd vzero vadd_0_l (fun j => j <> i)). }
  rewrite HS.
  rewrite (big_swap vadd vzero vadd_assoc vadd_comm vadd_0_l g) at 2.
  unfold vsum. rewrite <- (big_op vadd vzero vadd_assoc vadd_comm vadd_0_l).
  erewrite (big_ext vadd vzero); [apply vsum_zero |].
  intros i Hi. simpl.
  rewrite <- (big_op vadd vzero vadd_assoc vadd_comm vadd_0_l).
  erewrite (big_ext vadd vzero); [apply vsum_zero |].
  intros j Hj. simpl. apply elem_of_seq in Hi, Hj. unfold g.
  destruct (decide (j <> i)), (decide (i <> j)); try lia.
  - apply HF; lia.
  - apply vadd_0_l.
Qed.

(** ** Balance of the Newtonian accelerations *)

Lemma cross_antisym (a b : vec) : cross a b +v cross b a = vzero.
Proof. vec_ring. Qed.

Lemma vsum_cross {A} (p : vec) (f : A -> vec) (l : list A) :
  vsum ((fun x => cross p (f x)) <$> l) = cross p (vsum (f <$> l)).
Proof.
  unfold vsum. induction l as [| x l IH]; csimpl.
  - vec_ring.
  - rewrite IH. vec_ring.
Qed.

Lemma Rpower_softened_pos (d : vec) :
  0 < Rpower (dot d d + EPS_ACCEL ^ 2) (3 / 2).
Proof. unfold Rpower. apply exp_pos. Qed.

Lemma newton_term_torque (mp : list (R * vec)) (i j : nat)
    (m_i m_j : R) (p_i p_j : vec) :
  mp !! i = Some (m_i, p_i) -> mp !! j = Some (m_j, p_j) ->
  m_i *v cross p_i (spec.newton_term mp i j)
  +v m_j *v cross p_j (spec.newton_term mp j i) = vzero.
Proof.
  intros Hi Hj. unfold spec.newton_term. rewrite Hi, Hj. simpl.
  rewrite (dot_sub_sym p_i p_j).
  pose proof (Rpower_softened_pos (p_j -v p_i)) as HP.
  set (P := Rpower _ _) in *.
  apply vec_eq; vec_simpl; field; lra.
Qed.

Lemma newton_force_balance (mp : list (R * vec)) :
  vsum (weighted mp (fun m _ k => m *v spec.newton_acceleration mp k)
          <$> seq 0 (length mp)) = vzero.
Proof.
  set (F := fun i j : nat => weighted mp (fun m _ _ => m *v spec.newton_term mp i j) i).
  rewrite <- (vsum_antisymmetric (length mp) F).
  - apply (big_ext vadd vzero). intros k _. simpl. unfold weighted, F, weighted.
    destruct (mp !! k) as [[m p] |].
    + unfold spec.newton_acceleration. now rewrite <- vsum_smul.
    + symmetry. apply vsum_zero.
  - intros i j Hi Hj _. unfold F, weighted.
    destruct (lookup_lt_is_Some_2 mp i Hi) as [[mi p_i] Hmi].
    destruct (lookup_lt_is_Some_2 mp j Hj) as [[mj p_j] Hmj].
    rewrite Hmi, Hmj.
    rewrite (newton_term_antisymmetric mp i j mi mj p_i p_j Hmi Hmj).
    vec_ring.
Qed.

Lemma newton_torque_balance (mp : list (R * vec)) :
  vsum (weighted mp (fun m p k => m *v cross p (spec.newton_acceleration mp k))
          <$> seq 0 (length mp)) = vzero.
Proof.
  set (F := fun i j : nat =>
              weighted mp (fun m p _ => m *v cross p (spec.newton_term mp i j)) i).
  rewrite <- (vsum_antisymmetric (length mp) F).
  - apply (big_ext vadd vzero). intros k _. simpl. unfold weighted, F, weighted.
    destruct (mp !! k) as [[m p] |].
    + unfold spec.newton_acceleration.
      now rewrite <- vsum_cross, <- vsum_smul.
    + symmetry. apply vsum_zero.
  - intros i j Hi Hj _. unfold F, weighted.
    destruct (lookup_lt_is_Some_2 mp i Hi) as [[mi p_i] Hmi].
    destruct (lookup_lt_is_Some_2 mp j Hj) as [[mj p_j] Hmj].
    rewrite Hmi, Hmj. now apply newton_term_torque.
Qed.

Lemma with_newton_lookup (bodies : list Body) (k : nat) :
  with_newton_accelerations bodies !! k
  = (fun b => set_acc b (spec.newton_acceleration (spec.mass_pos <$> bodies) k))
    <$> bodies !! k.
Proof. unfold with_newton_accelerations. now rewrite list_lookup_imap. Qed.

Lemma length_with_newton (bodies : list Body) :
  length (with_newton_accelerations bodies) = length bodies.
Proof. apply length_imap. Qed.

Lemma net_force_newton (bodies : list Body) :
  net_force (with_newton_accelerations bodies) = vzero.
Proof.
  unfold net_force, vsum.
  rewrite (big_index vadd vzero vadd_assoc vadd_0_l).
  rewrite length_with_newton.
  etransitivity; [| apply (newton_force_balance (spec.mass_pos <$> bodies))].
  rewrite length_fmap.
  apply (big_ext vadd vzero). intros k _. simpl. unfold weighted.
  rewrite with_newton_lookup, list_lookup_fmap.
  now destruct (bodies !! k).
Qed.

Lemma net_torque_newton (bodies : list Body) :
  net_torque (with_newton_accelerations bodies) = vzero.
Proof.
  unfold net_torque, vsum.
  rewrite (big_index vadd vzero vadd_assoc vadd_0_l).
  rewrite length_with_newton.
  etransitivity; [| apply (newton_torque_balance (spec.mass_pos <$> bodies))].
  rewrite length_fmap.
  apply (big_ext vadd vzero). intros k _. simpl. unfold weighted.
  rewrite with_newton_lookup, list_lookup_fmap.
  now destruct (bodies !! k).
Qed.

Lemma compute_accelerations_with_newton (bodies : list Body) :
  nbody.compute_accelerations bodies = Ok (with_newton_accelerations bodies).
Proof. apply compute_accelerations_closed. Qed.

Lemma consistent_with_newton (bodies : list Body) :
  spec.consistent bodies -> with_newton_accelerations bodies = bodies.
Proof.
  unfold spec.consistent. rewrite compute_accelerations_with_newton.
  now intros [= ->].
Qed.

Lemma step_system_newton (bodies : list Body) (dt : R) :
  nbody.step_system bodies dt false
  = Ok (nbody.half_kick dt
          <$> with_newton_accelerations
                (nbody.drift dt <$> (nbody.half_kick dt <$> bodies))).
Proof.
  unfold nbody.step_system.
  now rewrite compute_accelerations_with_newton.
Qed.

Lemma total_angular_momentum_sum (bodies : list Body) :
  diagnostics.total_angular_momentum bodies = angular_momentum_sum bodies.
Proof.
  unfold diagnostics.total_angular_momentum, angular_momentum_sum, vsum.
  rewrite (foldl_big vadd vzero vadd_assoc vadd_comm vadd_0_l
             (fun b => mass b *v cross (pos b) (vel b))).
  apply vadd_0_l.
Qed.

Lemma vsum_fmap_ext {A} (f g : A -> vec) (l : list A) :
  (forall x, f x = g x) -> vsum (f <$> l) = vsum (g <$> l).
Proof. intros H. apply (big_ext vadd vzero). intros x _. apply H. Qed.

Lemma half_kick_sums (dt : R) (bodies : list Body) :
  total_momentum (nbody.half_kick dt <$> bodies)
  = total_momentum bodies +v (/ 2 * dt) *v net_force bodies
  /\ angular_momentum_sum (nbody.half_kick dt <$> bodies)
     = angular_momentum_sum bodies +v (/ 2 * dt) *v net_torque bodies
  /\ net_force (nbody.half_kick dt <$> bodies) = net_force bodies
  /\ net_torque (nbody.half_kick dt <$> bodies) = net_torque bodies.
Proof.
  unfold total_momentum, angular_momentum_sum, net_force, net_torque.
  rewrite <- !list_fmap_compose, <- !vsum_smul, <- !vsum_add.
  repeat split; apply vsum_fmap_ext; intros b; simpl;
    unfold body.get_momentum; simpl; vec_ring.
Qed.

Lemma drift_sums (dt : R) (bodies : list Body) :
  total_momentum (nbody.drift dt <$> bodies) = total_momentum bodies
  /\ angular_momentum_sum (nbody.drift dt <$> bodies)
     = angular_momentum_sum bodies
  /\ net_force (nbody.drift dt <$> bodies) = net_force bodies.
Proof.
  unfold total_momentum, angular_momentum_sum, net_force.
  rewrite <- !list_fmap_compose.
  repeat split; apply vsum_fmap_ext; intros b; simpl;
    unfold body.get_momentum; simpl; vec_ring.
Qed.

Lemma with_newton_sums (bodies : list Body) :
  total_momentum (with_newton_accelerations bodies) = total_momentum bodies
  /\ angular_momentum_sum (with_newton_accelerations bodies)
     = angular_momentum_sum bodies.
Proof.
  unfold total_momentum, angular_momentum_sum, with_newton_accelerations.
  rewrite !fmap_imap.
  split; f_equal; apply list_eq; intros k;
    rewrite list_lookup_imap, list_lookup_fmap; now destruct (bodies !! k).
Qed.

(** One step without the relativistic correction, on a state whose
    stored accelerations exert no net force and no net torque. *)
Lemma step_system_conserves (bodies : list Body) (dt : R) :
  exists out,
    nbody.step_system bodies dt false = Ok out
    /\ net_force out = vzero /\ net_torque out = vzero
    /\ (net_force bodies = vzero -> total_momentum out = total_momentum bodies)
    /\ (net_torque bodies = vzero ->
        angular_momentum_sum out = angular_momentum_sum bodies).
Proof.
  eexists. split; [apply step_system_newton |].
  set (moved := nbody.drift dt <$> (nbody.half_kick dt <$> bodies)).
  destruct (half_kick_sums dt (with_newton_accelerations moved))
    as (HP & HL & HF & HT).
  destruct (with_newton_sums moved) as (HPn & HLn).
  destruct (drift_sums dt (nbody.half_kick dt <$> bodies)) as (HPd & HLd & _).
  destruct (half_kick_sums dt bodies) as (HP0 & HL0 & _ & _).
  rewrite HF, HT, HP, HL, net_force_newton, net_torque_newton, HPn, HLn.
  fold moved in HPd, HLd. rewrite HPd, HLd, HP0, HL0.
  repeat split.
  - intros ->. vec_ring.
  - intros ->. vec_ring.
Qed.

(** X1.  After [compute_accelerations], for any number of bodies, the
    accelerations weighted by the masses sum to zero, and so do their
    moments about the origin: the Force Model exerts no net force and no
    net torque on the system. *)
Theorem compute_accelerations_balanced (bodies : list Body) :
  exists out,
    nbody.compute_accelerations bodies = Ok out
    /\ net_force out = vzero
    /\ net_torque out = vzero.
Proof.
  exists (with_newton_accelerations bodies).
  split; [apply compute_accelerations_with_newton |].
  split; [apply net_force_newton | apply net_torque_newton].
Qed.

Lemma run_conserves (N : nat) (dt : R) (bodies : list Body) :
  exists out,
    nbody.run N dt false bodies = Ok out
    /\ (net_force bodies = vzero -> net_force out = vzero)
    /\ (net_torque bodies = vzero -> net_torque out = vzero)
    /\ (net_force bodies = vzero -> total_momentum out = total_momentum bodies)
    /\ (net_torque bodies = vzero ->
        angular_momentum_sum out = angular_momentum_sum bodies).
Proof.
  revert bodies. induction N as [| N IH]; intros bodies.
  - exists bodies. simpl. tauto.
  - destruct (step_system_conserves bodies dt) as (b1 & H1 & HF1 & HT1 & HP1 & HL1).
    destruct (IH b1) as (out & Hrun & HF & HT & HP & HL).
    exists out. simpl. rewrite H1. split; [exact Hrun |].
    repeat split; intros H0.
    + auto.
    + auto.
    + rewrite HP by exact HF1. auto.
    + rewrite HL by exact HT1. auto.
Qed.

(** X2.  Without the relativistic correction, any number of steps of
    [step_system] conserves the total linear momentum (the sum of
    [Body.get_momentum]) exactly, from every state whose stored
    accelerations exert no net force - freshly built bodies, whose
    accelerations are zero, and every state left by
    [compute_accelerations] or by an earlier step. *)
Theorem step_system_conserves_momentum (N : nat) (dt : R) (bodies : list Body) :
  net_force bodies = vzero ->
  exists out,
    nbody.run N dt false bodies = Ok out
    /\ total_momentum out = total_momentum bodies.
Proof.
  intros H0. destruct (run_conserves N dt bodies) as (out & Hrun & _ & _ & HP & _).
  exists out. auto.
Qed.

(** X3.  Without the relativistic correction, any number of steps of
    [step_system] conserves [total_angular_momentum] exactly, from every
    state whose stored accelerations exert no net torque (fresh bodies
    with zero accelerations, states left by [compute_accelerations] or by
    an earlier step). *)
Theorem step_system_conserves_angular_momentum (N : nat) (dt : R)
    (bodies : list Body) :
  net_torque bodies = vzero ->
  exists out,
    nbody.run N dt false bodies = Ok out
    /\ diagnostics.total_angular_momentum out
       = diagnostics.total_angular_momentum bodies.
Proof.
  intros H0. destruct (run_conserves N dt bodies) as (out & Hrun & _ & _ & _ & HL).
  exists out. rewrite !total_angular_momentum_sum. auto.
Qed.

Lemma test_system_no_force : net_force create_test_system = vzero.
Proof. unfold net_force, vsum. simpl. vec_ring. Qed.

Lemma test_system_no_torque : net_torque create_test_system = vzero.
Proof. unfold net_torque, vsum. simpl. vec_ring. Qed.

Lemma step_system_conserves_momentum_witness :
  net_force create_test_system = vzero
  /\ exists out,
       nbody.run 100 DT false create_test_system = Ok out
       /\ total_momentum out = total_momentum create_test_system.
Proof.
  split; [exact test_system_no_force |].
  exact (step_system_conserves_momentum 100 DT create_test_system
           test_system_no_force).
Defined.

Lemma step_system_conserves_angular_momentum_witness :
  net_torque create_test_system = vzero
  /\ exists out,
       nbody.run 100 DT false create_test_system = Ok out
       /\ diagnostics.total_angular_momentum out
          = diagnostics.total_angular_momentum create_test_system.
Proof.
  split; [exact test_system_no_torque |].
  exact (step_system_conserves_angular_momentum 100 DT create_test_system
           test_system_no_torque).
Defined.

(** ** [diagnostics_report] *)

Lemma total_energy_ok (bodies : list Body) :
  exists E, diagnostics.total_energy bodies = Ok E.
Proof. eexists. apply total_energy_closed. Qed.

(** X4.  [diagnostics_report] with usable references (an [E0] other than
    zero, an [H0] other than the zero vector, or none) returns normally; its
    dictionary always holds ["energy"] and ["H_vec"], holds ["dE/E0"]
    exactly when [E0] is given and ["|dH|/|H0|"] exactly when [H0] is
    given, and has no other key. *)
Theorem diagnostics_report_keys (bodies : list Body) (E0 : option R)
    (H0 : option vec) :
  E0 <> Some 0 -> H0 <> Some vzero ->
  exists report,
    diagnostics.diagnostics_report bodies E0 H0 = Ok report
    /\ dom report
       = {["energy"; "H_vec"]}
         ∪ (if E0 is Some _ then {["dE/E0"]} else ∅)
         ∪ (if H0 is Some _ then {["|dH|/|H0|"]} else ∅).
Proof.
  intros HE HH. unfold diagnostics.diagnostics_report.
  destruct (total_energy_ok bodies) as [E ->]. rewrite bind_Ok.
  destruct E0 as [E0 |], H0 as [H0 |]; simpl.
  - rewrite (checked_div_ok (E - E0) E0) by (intros Hz; apply HE; now rewrite Hz). rewrite bind_Ok. cbv beta.
    rewrite bind_Ok, checked_div_ok.
    2:{ intros Hn. apply norm_zero_iff in Hn. congruence. }
    rewrite bind_Ok. eexists. split; [reflexivity |].
    rewrite !dom_insert_L, dom_empty_L. set_solver.
  - rewrite (checked_div_ok (E - E0) E0) by (intros Hz; apply HE; now rewrite Hz). rewrite !bind_Ok.
    eexists. split; [reflexivity |].
    rewrite !dom_insert_L, dom_empty_L. set_solver.
  - rewrite checked_div_ok.
    2:{ intros Hn. apply norm_zero_iff in Hn. congruence. }
    rewrite bind_Ok. eexists. split; [reflexivity |].
    rewrite !dom_insert_L, dom_empty_L. set_solver.
  - eexists. split; [reflexivity |].
    rewrite !dom_insert_L, dom_empty_L. set_solver.
Qed.

(** X5.  A reference energy of exactly zero, or a reference angular
    momentum of magnitude zero, makes [diagnostics_report] divide by
    zero. *)
Theorem diagnostics_report_zero_reference (bodies : list Body) :
  (forall H0, diagnostics.diagnostics_report bodies (Some 0) H0
              = Raise ZeroDivisionError)
  /\ (forall E0, E0 <> Some 0 ->
        diagnostics.diagnostics_report bodies E0 (Some vzero)
        = Raise ZeroDivisionError).
Proof.
  split.
  - intros H0. unfold diagnostics.diagnostics_report.
    destruct (total_energy_ok bodies) as [E ->]. rewrite bind_Ok.
    now rewrite checked_div_zero.
  - intros E0 HE. unfold diagnostics.diagnostics_report.
    destruct (total_energy_ok bodies) as [E ->]. rewrite bind_Ok.
    replace (norm vzero) with 0 by (symmetry; now apply norm_zero_iff).
    destruct E0 as [E0 |].
    + rewrite (checked_div_ok (E - E0) E0) by (intros Hz; apply HE; now rewrite Hz). rewrite !bind_Ok.
      now rewrite checked_div_zero.
    + rewrite bind_Ok. now rewrite checked_div_zero.
Qed.

(** X6.  The drift that the simulation loop reports: after any number of
    steps without the relativistic correction, from a state whose stored
    accelerations exert no net torque, [diagnostics_report] against the
    initial angular momentum [H0] (not zero) reports ["|dH|/|H0|"] as
    exactly [0]. *)
Theorem diagnostics_report_no_angular_drift (N : nat) (dt : R)
    (bodies : list Body) :
  net_torque bodies = vzero ->
  diagnostics.total_angular_momentum bodies <> vzero ->
  exists out report,
    nbody.run N dt false bodies = Ok out
    /\ diagnostics.diagnostics_report out None
         (Some (diagnostics.total_angular_momentum bodies)) = Ok report
    /\ report !! "|dH|/|H0|" = Some (diagnostics.Float 0).
Proof.
  intros HT HH.
  destruct (run_conserves N dt bodies) as (out & Hrun & _ & _ & _ & HL).
  specialize (HL HT). rewrite <- !total_angular_momentum_sum in HL.
  exists out. unfold diagnostics.diagnostics_report.
  destruct (total_energy_ok out) as [E ->]. rewrite !bind_Ok, HL.
  rewrite checked_div_ok.
  2:{ intros Hn. now apply norm_zero_iff in Hn. }
  rewrite bind_Ok. eexists. split; [exact Hrun |]. split; [reflexivity |].
  rewrite lookup_insert_eq. do 2 f_equal.
  set (H := diagnostics.total_angular_momentum bodies).
  replace (H -v H) with vzero by (symmetry; vec_ring).
  replace (norm vzero) with 0 by (symmetry; now apply norm_zero_iff).
  unfold Rdiv. ring.
Qed.

Lemma test_system_angular_momentum :
  diagnostics.total_angular_momentum create_test_system <> vzero.
Proof.
  rewrite total_angular_momentum_sum. unfold angular_momentum_sum, vsum.
  simpl. intros H. apply (f_equal vz) in H. simpl in H.
  pose proof earth_speed_pos. unfold earth_distance in H. nra.
Qed.

Lemma diagnostics_report_no_angular_drift_witness :
  (net_torque create_test_system = vzero
   /\ diagnostics.total_angular_momentum create_test_system <> vzero)
  /\ exists out report,
       nbody.run 100 DT false create_test_system = Ok out
       /\ diagnostics.diagnostics_report out None
            (Some (diagnostics.total_angular_momentum create_test_system))
          = Ok report
       /\ report !! "|dH|/|H0|" = Some (diagnostics.Float 0).
Proof.
  split; [split; [exact test_system_no_torque
                 | exact test_system_angular_momentum] |].
  exact (diagnostics_report_no_angular_drift 100 DT create_test_system
           test_system_no_torque test_system_angular_momentum).
Defined.

Lemma diagnostics_report_keys_witness :
  (Some 1 <> Some 0 /\ Some (V3 0 0 1) <> Some vzero)
  /\ exists report,
       diagnostics.diagnostics_report create_test_system (Some 1)
         (Some (V3 0 0 1)) = Ok report
       /\ dom report
          = {["energy"; "H_vec"]} ∪ {["dE/E0"]} ∪ {["|dH|/|H0|"]}.
Proof.
  assert (HE : Some 1 <> Some 0) by (intros [= H]; lra).
  assert (HH : Some (V3 0 0 1) <> Some vzero)
    by (intros [= H]; lra).
  split; [auto |].
  exact (diagnostics_report_keys create_test_system (Some 1) (Some (V3 0 0 1))
           HE HH).
Defined.

(** ** Shifts of the frame of reference *)

Lemma newton_term_shift (mp : list (R * vec)) (dp : vec) (i j : nat) :
  spec.newton_term ((fun mq => (mq.1, mq.2 +v dp)) <$> mp) i j
  = spec.newton_term mp i j.
Proof.
  unfold spec.newton_term. rewrite !list_lookup_fmap.
  destruct (mp !! i) as [[m_i p_i] |]; simpl; [| reflexivity].
  destruct (mp !! j) as [[m_j p_j] |]; simpl; [| reflexivity].
  replace (p_j +v dp -v (p_i +v dp)) with (p_j -v p_i) by (symmetry; vec_ring).
  reflexivity.
Qed.

Lemma newton_acceleration_shift (mp : list (R * vec)) (dp : vec) (i : nat) :
  spec.newton_acceleration ((fun mq => (mq.1, mq.2 +v dp)) <$> mp) i
  = spec.newton_acceleration mp i.
Proof.
  unfold spec.newton_acceleration. rewrite length_fmap.
  apply (big_ext vadd vzero). intros j _. apply newton_term_shift.
Qed.

(** X7.  The Force Model does not depend on the frame of reference:
    shifting every position by [dp] and every velocity by [dv] before
    [compute_accelerations] gives the same accelerations as shifting
    afterwards. *)
Theorem compute_accelerations_frame_independent (bodies : list Body)
    (dp dv : vec) :
  nbody.compute_accelerations (boost dp dv <$> bodies)
  = (out ← nbody.compute_accelerations bodies;
     Ok (boost dp dv <$> (out : list Body))).
Proof.
  rewrite !compute_accelerations_with_newton, bind_Ok. f_equal.
  assert (Hmp : spec.mass_pos <$> (boost dp dv <$> bodies)
                = (fun mq => (mq.1, mq.2 +v dp)) <$> (spec.mass_pos <$> bodies)).
  { rewrite <- !list_fmap_compose. reflexivity. }
  apply list_eq. intros k.
  rewrite list_lookup_fmap, !with_newton_lookup, list_lookup_fmap, Hmp.
  destruct (bodies !! k) as [b |]; simpl; [| reflexivity].
  now rewrite newton_acceleration_shift.
Qed.

(** ** [SolarSystem.move_to_barycenter] *)

Lemma total_mass_sum (bodies : list Body) :
  foldl (fun total b => total + mass b) 0 bodies = Rsum (mass <$> bodies).
Proof.
  unfold Rsum.
  rewrite (foldl_big Rplus 0 (fun a b c => eq_sym (Rplus_assoc a b c))
             Rplus_comm Rplus_0_l mass).
  apply Rplus_0_l.
Qed.

Lemma weighted_sum (f : Body -> vec) (bodies : list Body) :
  foldl (fun s b => s +v mass b *v f b) vzero bodies
  = vsum ((fun b => mass b *v f b) <$> bodies).
Proof.
  unfold vsum.
  rewrite (foldl_big vadd vzero vadd_assoc vadd_comm vadd_0_l
             (fun b => mass b *v f b)).
  apply vadd_0_l.
Qed.

Lemma weighted_sum_shift (f : Body -> vec) (c : vec) (bodies : list Body) :
  vsum ((fun b => mass b *v (f b -v c)) <$> bodies)
  = vsum ((fun b => mass b *v f b) <$> bodies)
    -v Rsum (mass <$> bodies) *v c.
Proof.
  unfold vsum, Rsum. induction bodies as [| b bodies IH]; csimpl.
  - vec_ring.
  - rewrite IH. vec_ring.
Qed.

Lemma vdivs_ok (a : vec) (k : R) :
  k <> 0 -> vdivs a k = Ok (V3 (vx a / k) (vy a / k) (vz a / k)).
Proof.
  intros Hk. unfold vdivs. now rewrite !checked_div_ok.
Qed.

Lemma recentred_sums (cp cv : vec) (bodies : list Body) :
  let moved := (fun b => set_vel (set_pos b (pos b -v cp)) (vel b -v cv))
                 <$> bodies in
  foldl (fun total b => total + mass b) 0 moved = Rsum (mass <$> bodies)
  /\ foldl (fun s b => s +v mass b *v pos b) vzero moved
     = vsum ((fun b => mass b *v pos b) <$> bodies)
       -v Rsum (mass <$> bodies) *v cp
  /\ foldl (fun s b => s +v mass b *v vel b) vzero moved
     = vsum ((fun b => mass b *v vel b) <$> bodies)
       -v Rsum (mass <$> bodies) *v cv.
Proof.
  intros moved. unfold moved.
  rewrite total_mass_sum, !weighted_sum, <- !list_fmap_compose.
  split; [reflexivity |].
  split; [exact (weighted_sum_shift pos cp bodies)
         | exact (weighted_sum_shift vel cv bodies)].
Qed.

(** X8.  [move_to_barycenter] never raises.  It leaves every body in its
    place in the list, with the centre of mass that [get_center_of_mass]
    returned subtracted from its position and from its velocity and
    nothing else changed; afterwards [get_center_of_mass] returns the
    origin and the zero velocity, and which bodies are the sun and the
    planets is as before. *)
Theorem move_to_barycenter_centres (s : system.SolarSystem) :
  exists com_pos com_vel s',
    system.get_center_of_mass s = Ok (com_pos, com_vel)
    /\ system.move_to_barycenter s = Ok s'
    /\ system.bodies s'
       = (fun b => set_vel (set_pos b (pos b -v com_pos)) (vel b -v com_vel))
           <$> system.bodies s
    /\ system.get_center_of_mass s' = Ok (vzero, vzero)
    /\ mass <$> system.bodies s' = mass <$> system.bodies s
    /\ system.sun s' = system.sun s
    /\ system.planets s' = system.planets s.
Proof.
  unfold system.move_to_barycenter, system.get_center_of_mass.
  unfold system.get_total_mass. rewrite total_mass_sum.
  set (M := Rsum (mass <$> system.bodies s)).
  destruct (decide (M = 0)) as [HM | HM].
  - rewrite bind_Ok. eexists _, _, _.
    split; [reflexivity |]. split; [reflexivity |]. simpl.
    split; [reflexivity |].
    destruct (recentred_sums vzero vzero (system.bodies s)) as (-> & _ & _).
    fold M. rewrite decide_True by exact HM.
    rewrite <- list_fmap_compose. auto.
  - rewrite !weighted_sum, !vdivs_ok, !bind_Ok by exact HM.
    eexists _, _, _.
    split; [reflexivity |]. split; [reflexivity |]. simpl.
    split; [reflexivity |].
    match goal with
    | |- context [set_pos _ (_ -v ?cp)] =>
        match goal with
        | |- context [set_vel _ (_ -v ?cv)] =>
            destruct (recentred_sums cp cv (system.bodies s)) as (-> & -> & ->)
        end
    end.
    fold M. rewrite decide_False by exact HM.
    rewrite !vdivs_ok, !bind_Ok by exact HM.
    rewrite <- list_fmap_compose.
    repeat split. do 2 f_equal; apply vec_eq; vec_simpl; field; exact HM.
Qed.

(** ** Composition of the Force Model and the relativistic correction *)

Lemma with_newton_frame (xs ys : list Body) :
  frame xs = frame ys ->
  with_newton_accelerations xs = with_newton_accelerations ys.
Proof.
  intros HF.
  assert (Hmp : spec.mass_pos <$> xs = spec.mass_pos <$> ys).
  { now rewrite <- (mass_pos_frame xs), HF, mass_pos_frame. }
  apply list_eq. intros k. rewrite !with_newton_lookup, Hmp.
  destruct (xs !! k) as [x |] eqn:Hx.
  - destruct (frame_eq_lookup _ _ _ _ HF Hx) as (y & -> & Hy). simpl.
    f_equal. destruct x, y. unfold set_acc in *. simpl in *.
    now injection Hy as -> -> -> -> ->.
  - apply lookup_ge_None in Hx. rewrite (frame_eq_length _ _ HF) in Hx.
    apply lookup_ge_None in Hx. now rewrite Hx.
Qed.

(** X9.  The relativistic correction must come after the Force Model:
    [compute_accelerations] run after [compute_pn_accelerations]
    overwrites the correction, with the same result as
    [compute_accelerations] alone. *)
Theorem compute_accelerations_discards_pn (sun : Body) (rest : list Body) :
  (bodies ← pn1.compute_pn_accelerations (sun :: rest);
   nbody.compute_accelerations bodies)
  = nbody.compute_accelerations (sun :: rest).
Proof.
  rewrite compute_pn_accelerations_closed, bind_Ok.
  rewrite !compute_accelerations_with_newton. f_equal.
  apply with_newton_frame, frame_pn.
Qed.

(** X10.  [compute_pn_accelerations] accumulates: a second call adds the
    same term once more, so that two calls in one step leave twice the
    correction. *)
Theorem compute_pn_accelerations_twice (sun : Body) (rest : list Body) :
  (bodies ← pn1.compute_pn_accelerations (sun :: rest);
   pn1.compute_pn_accelerations bodies)
  = Ok (sun ::
        ((fun b =>
            set_acc b
              (acc b +v 2 *v spec.pn_term (mass sun) (pos b -v pos sun)
                                          (vel b -v vel sun)))
           <$> rest)).
Proof.
  rewrite compute_pn_accelerations_closed, bind_Ok.
  rewrite compute_pn_accelerations_closed. do 2 f_equal.
  rewrite <- list_fmap_compose. apply list_fmap_ext. intros k b _. simpl.
  unfold set_acc. simpl. f_equal. vec_ring.
Qed.

(** ** [elements_to_state] on bound orbits *)

Lemma sin_cos_sq (x : R) : sin x * sin x + cos x * cos x = 1.
Proof. pose proof (sin2_cos2 x) as H. unfold Rsqr in H. exact H. Qed.

Lemma rotation_dot (Omega i omega : R) (x y : vec) :
  dot (elements.matvec (orbit_rotation Omega i omega) x)
      (elements.matvec (orbit_rotation Omega i omega) y)
  = dot x y.
Proof.
  pose proof (sin_cos_sq Omega) as HO. pose proof (sin_cos_sq i) as Hi.
  pose proof (sin_cos_sq omega) as Hw.
  unfold orbit_rotation, elements.matvec. cbv zeta.
  destruct x as [x1 x2 x3], y as [y1 y2 y3]. unfold dot. simpl.
  generalize dependent (sin Omega). generalize (cos Omega).
  generalize dependent (sin i). generalize (cos i).
  generalize dependent (sin omega). generalize (cos omega).
  intros cw sw Hw ci si Hi cO sO HO. nsatz.
Qed.

Lemma rotation_cross (Omega i omega : R) (x y : vec) :
  cross (elements.matvec (orbit_rotation Omega i omega) x)
        (elements.matvec (orbit_rotation Omega i omega) y)
  = elements.matvec (orbit_rotation Omega i omega) (cross x y).
Proof.
  pose proof (sin_cos_sq Omega) as HO. pose proof (sin_cos_sq i) as Hi.
  pose proof (sin_cos_sq omega) as Hw.
  unfold orbit_rotation, elements.matvec. cbv zeta.
  destruct x as [x1 x2 x3], y as [y1 y2 y3].
  generalize dependent (sin Omega). generalize (cos Omega).
  generalize dependent (sin i). generalize (cos i).
  generalize dependent (sin omega). generalize (cos omega).
  intros cw sw Hw ci si Hi cO sO HO.
  apply vec_eq; unfold cross, dot; simpl; nsatz.
Qed.

Lemma one_minus_e_cos_pos (e E : R) : -1 < e < 1 -> 0 < 1 - e * cos E.
Proof.
  intros He. pose proof (COS_bound E) as [Hlo Hhi].
  destruct (Rle_dec 0 e); nra.
Qed.

Lemma eccentric_anomaly_ok (M e : R) :
  -1 < e < 1 -> exists E, elements.eccentric_anomaly M e = Ok E.
Proof. intros He. now apply newton_raphson_total. Qed.

(** [elements_to_state], given the eccentric anomaly its loop ends with. *)
Lemma elements_to_state_closed (a e i Omega omega M mu E : R) :
  0 < a -> -1 < e < 1 -> 0 <= mu ->
  elements.eccentric_anomaly M e = Ok E ->
  elements.elements_to_state a e i Omega omega M mu
  = Ok (elements.matvec (orbit_rotation Omega i omega) (r_orb a e E),
        elements.matvec (orbit_rotation Omega i omega) (v_orb a e mu E)).
Proof.
  intros Ha He Hmu HE. unfold elements.elements_to_state.
  rewrite HE, bind_Ok. cbv beta.
  pose proof (one_minus_e_cos_pos e E He) as Hrho.
  assert (Hs : 0 <= 1 - e ^ 2) by nra.
  assert (Ha3 : 0 < a ^ 3) by (apply pow_lt; exact Ha).
  assert (Hq : 0 <= mu / a ^ 3).
  { apply Rmult_le_pos; [exact Hmu |]. left. now apply Rinv_0_lt_compat. }
  unfold elements.math_sqrt.
  rewrite (decide_True (P := 0 <= 1 - e ^ 2)) by exact Hs.
  rewrite bind_Ok. cbv beta.
  rewrite (checked_div_ok mu (a ^ 3)) by lra. rewrite bind_Ok. cbv beta.
  rewrite (decide_True (P := 0 <= mu / a ^ 3)) by exact Hq.
  rewrite bind_Ok. cbv beta.
  rewrite (checked_div_ok (- a * sqrt (mu / a ^ 3) * sin E)) by lra.
  rewrite bind_Ok. cbv beta.
  rewrite bind_Ok. cbv beta.
  rewrite checked_div_ok by lra. rewrite bind_Ok. cbv beta.
  reflexivity.
Qed.

Lemma r_orb_norm (a e E : R) :
  0 < a -> -1 < e < 1 -> norm (r_orb a e E) = a * (1 - e * cos E).
Proof.
  intros Ha He. pose proof (one_minus_e_cos_pos e E He) as Hrho.
  pose proof (sin_cos_sq E) as HE.
  assert (Hs : sqrt (1 - e ^ 2) * sqrt (1 - e ^ 2) = 1 - e ^ 2)
    by (apply sqrt_sqrt; nra).
  unfold norm.
  replace (dot (r_orb a e E) (r_orb a e E))
    with ((a * (1 - e * cos E)) * (a * (1 - e * cos E))).
  - apply sqrt_square. nra.
  - unfold r_orb, dot. cbn [vx vy vz].
    generalize dependent (sqrt (1 - e ^ 2)). intros s Hs.
    generalize dependent (sin E). generalize (cos E). intros c sn HE.
    replace (a * s * sn * (a * s * sn)) with (a * a * ((s * s) * (sn * sn)))
      by ring.
    rewrite Hs. replace (sn * sn) with (1 - c * c) by lra. ring.
Qed.

Lemma v_orb_sq (a e mu E : R) :
  0 < a -> -1 < e < 1 -> 0 <= mu ->
  dot (v_orb a e mu E) (v_orb a e mu E)
  = mu * (2 / (a * (1 - e * cos E)) - 1 / a).
Proof.
  intros Ha He Hmu. pose proof (one_minus_e_cos_pos e E He) as Hrho.
  pose proof (sin_cos_sq E) as HE.
  assert (Hs : sqrt (1 - e ^ 2) * sqrt (1 - e ^ 2) = 1 - e ^ 2)
    by (apply sqrt_sqrt; nra).
  assert (Ha3 : 0 < a ^ 3) by (apply pow_lt; exact Ha).
  assert (Hn : sqrt (mu / a ^ 3) * sqrt (mu / a ^ 3) = mu / a ^ 3).
  { apply sqrt_sqrt. apply Rmult_le_pos; [exact Hmu |].
    left. now apply Rinv_0_lt_compat. }
  unfold v_orb, dot. cbv zeta. cbn [vx vy vz].
  generalize dependent (sqrt (1 - e ^ 2)). intros s Hs.
  generalize dependent (sqrt (mu / a ^ 3)). intros n Hn.
  generalize dependent (sin E). generalize dependent (cos E).
  intros c Hrho sn HE.
  assert (Hn' : n * n * a ^ 3 = mu) by (rewrite Hn; field; lra).
  rewrite <- Hn'.
  field_simplify_eq; [| lra].
  replace (s ^ 2) with (1 - e ^ 2) by (rewrite <- Hs; ring).
  replace (sn ^ 2) with (1 - c ^ 2) by nra.
  ring.
Qed.

Lemma rotation_norm (Omega i omega : R) (x : vec) :
  norm (elements.matvec (orbit_rotation Omega i omega) x) = norm x.
Proof. unfold norm. now rewrite rotation_dot. Qed.

(** X11.  The state that [elements_to_state] returns for a bound orbit
    ([a > 0], [-1 < e < 1], [mu >= 0]) lies on the ellipse and satisfies
    the vis-viva relation exactly, whatever eccentric anomaly [E] its ten
    Newton iterations ended with: [|r| = a (1 - e cos E)] and
    [|v|^2 = mu (2 / |r| - 1 / a)].  The call never raises. *)
Theorem elements_to_state_vis_viva (a e i Omega omega M mu : R) :
  0 < a -> -1 < e < 1 -> 0 <= mu ->
  exists E r v,
    elements.eccentric_anomaly M e = Ok E
    /\ elements.elements_to_state a e i Omega omega M mu = Ok (r, v)
    /\ norm r = a * (1 - e * cos E)
    /\ dot v v = mu * (2 / norm r - 1 / a).
Proof.
  intros Ha He Hmu. destruct (eccentric_anomaly_ok M e He) as [E HE].
  exists E, (elements.matvec (orbit_rotation Omega i omega) (r_orb a e E)),
    (elements.matvec (orbit_rotation Omega i omega) (v_orb a e mu E)).
  split; [exact HE |].
  split; [now apply elements_to_state_closed |].
  rewrite rotation_norm, rotation_dot, r_orb_norm by assumption.
  split; [reflexivity | now apply v_orb_sq].
Qed.

Lemma elements_to_state_vis_viva_witness :
  (0 < 1 /\ -1 < 0.2 < 1 /\ 0 <= G)
  /\ exists E r v,
       elements.eccentric_anomaly 1 0.2 = Ok E
       /\ elements.elements_to_state 1 0.2 0.1 0.3 0.4 1 G = Ok (r, v)
       /\ norm r = 1 * (1 - 0.2 * cos E)
       /\ dot v v = G * (2 / norm r - 1 / 1).
Proof.
  assert (H1 : 0 < 1) by lra.
  assert (H2 : -1 < 0.2 < 1) by (split; lra).
  assert (H3 : 0 <= G) by (left; exact G_pos).
  split; [auto |].
  exact (elements_to_state_vis_viva 1 0.2 0.1 0.3 0.4 1 G H1 H2 H3).
Defined.

(** ** Round trip through [state_to_elements] *)

Lemma orb_sqrt_facts (a e mu : R) :
  0 < a -> -1 < e < 1 -> 0 < mu ->
  0 < sqrt (1 - e ^ 2) /\ sqrt (1 - e ^ 2) * sqrt (1 - e ^ 2) = 1 - e ^ 2
  /\ 0 < sqrt (mu / a ^ 3)
  /\ sqrt (mu / a ^ 3) * sqrt (mu / a ^ 3) * a ^ 3 = mu.
Proof.
  intros Ha He Hmu.
  assert (Hs : 0 < 1 - e ^ 2) by nra.
  assert (Ha3 : 0 < a ^ 3) by (apply pow_lt; exact Ha).
  assert (Hq : 0 < mu / a ^ 3).
  { apply Rmult_lt_0_compat; [exact Hmu |]. now apply Rinv_0_lt_compat. }
  repeat split.
  - now apply sqrt_lt_R0.
  - apply sqrt_sqrt. lra.
  - now apply sqrt_lt_R0.
  - rewrite sqrt_sqrt by lra. field. lra.
Qed.

Lemma orb_cross (a e mu E : R) :
  0 < a -> -1 < e < 1 -> 0 < mu ->
  cross (r_orb a e E) (v_orb a e mu E)
  = V3 0 0 (a ^ 2 * sqrt (mu / a ^ 3) * sqrt (1 - e ^ 2)).
Proof.
  intros Ha He Hmu. pose proof (one_minus_e_cos_pos e E He) as Hrho.
  pose proof (sin_cos_sq E) as HE.
  unfold r_orb, v_orb, cross. cbv zeta. cbn [vx vy vz].
  generalize (sqrt (1 - e ^ 2)) (sqrt (mu / a ^ 3)). intros s n.
  generalize dependent (sin E). generalize dependent (cos E).
  intros c Hrho sn HE.
  apply vec_eq; cbn [vx vy vz]; try ring.
  field_simplify_eq; [| lra].
  replace (sn ^ 2) with (1 - c ^ 2) by nra. ring.
Qed.

Lemma orb_dot (a e mu E : R) :
  0 < a -> -1 < e < 1 -> 0 < mu ->
  dot (r_orb a e E) (v_orb a e mu E)
  = a ^ 2 * sqrt (mu / a ^ 3) * e * sin E.
Proof.
  intros Ha He Hmu. pose proof (one_minus_e_cos_pos e E He) as Hrho.
  destruct (orb_sqrt_facts a e mu Ha He Hmu) as (_ & Hs & _ & _).
  unfold r_orb, v_orb, dot. cbv zeta. cbn [vx vy vz].
  generalize dependent (sqrt (1 - e ^ 2)). intros s Hs.
  generalize (sqrt (mu / a ^ 3)). intros n.
  generalize dependent (cos E). generalize (sin E).
  intros sn c Hrho.
  field_simplify_eq; [| lra].
  replace (s ^ 2) with (1 - e ^ 2) by (rewrite <- Hs; ring). ring.
Qed.

(** The eccentricity vector in the orbital plane points to the periapsis
    and has length [e]. *)
Lemma orb_e_vec (a e mu E : R) :
  0 < a -> -1 < e < 1 -> 0 < mu ->
  (1 / mu) *v
    (((mu * (2 / (a * (1 - e * cos E)) - 1 / a) - mu / (a * (1 - e * cos E)))
        *v r_orb a e E)
     -v ((a ^ 2 * sqrt (mu / a ^ 3) * e * sin E) *v v_orb a e mu E))
  = V3 e 0 0.
Proof.
  intros Ha He Hmu. pose proof (one_minus_e_cos_pos e E He) as Hrho.
  pose proof (sin_cos_sq E) as HE.
  destruct (orb_sqrt_facts a e mu Ha He Hmu) as (_ & Hs & _ & Hn).
  unfold r_orb, v_orb. cbv zeta.
  generalize dependent (sqrt (1 - e ^ 2)). intros s Hs.
  generalize dependent (sqrt (mu / a ^ 3)). intros n Hn.
  generalize dependent (sin E). generalize dependent (cos E).
  intros c Hrho sn HE.
  unfold smul, vsub. cbn [vx vy vz].
  apply vec_eq; cbn [vx vy vz].
  - rewrite <- Hn at 1 2 3.
    assert (Hnn : n * n * a ^ 3 <> 0) by (rewrite Hn; lra).
    field_simplify_eq; [| repeat split; try lra; nra].
    replace (sn ^ 2) with (1 - c ^ 2) by nra. ring.
  - assert (Hnn : n * n * a ^ 3 <> 0) by (rewrite Hn; lra).
    rewrite <- Hn at 1 2 3.
    field_simplify_eq; [| repeat split; try lra; nra]. ring.
  - ring.
Qed.

(** ** The domain of [state_to_elements] *)

Lemma lagrange_identity (r v : vec) :
  dot (cross r v) (cross r v) = dot r r * dot v v - dot r v * dot r v.
Proof. unfold cross, dot. simpl. ring. Qed.

Lemma norm_pow2 (a : vec) : norm a ^ 2 = dot a a.
Proof. rewrite <- norm_sq. ring. Qed.

Lemma cross_nonzero_l (r v : vec) : cross r v <> vzero -> 0 < norm r.
Proof. intros Hh. apply norm_pos. intros ->. apply Hh, cross_zero_l. Qed.

(** [mu^2 (e^2 - 1) = (v^2 - 2 mu / r) h^2]. *)
Lemma eccentricity_energy (r v : vec) (mu : R) :
  mu <> 0 -> 0 < norm r ->
  mu ^ 2 * (elements.eccentricity r v mu ^ 2 - 1)
  = (norm v ^ 2 - 2 * mu / norm r) * norm (cross r v) ^ 2.
Proof.
  intros Hmu Hr. unfold elements.eccentricity.
  rewrite !norm_pow2, lagrange_identity.
  pose proof (norm_sq r) as Hrr.
  unfold elements.e_vec. rewrite norm_pow2.
  set (A := dot v v - mu / norm r).
  set (B := dot r v).
  replace (dot (1 / mu *v (A *v r -v B *v v)) (1 / mu *v (A *v r -v B *v v)))
    with (/ mu ^ 2 * (A * A * dot r r - 2 * A * B * dot r v + B * B * dot v v)).
  2:{ unfold dot, smul, vsub. simpl. field. exact Hmu. }
  fold B. unfold A. rewrite <- Hrr.
  generalize dependent (norm r). intros nr Hr _.
  generalize (dot v v). intros vv. cbv zeta. field. lra.
Qed.

Lemma eccentricity_nonneg (r v : vec) (mu : R) :
  0 <= elements.eccentricity r v mu.
Proof. apply norm_nonneg. Qed.

Lemma eccentricity_bound (r v : vec) (mu : R) :
  0 < mu -> cross r v <> vzero -> norm v ^ 2 < 2 * mu / norm r ->
  elements.eccentricity r v mu < 1.
Proof.
  intros Hmu Hh Hb.
  pose proof (cross_nonzero_l r v Hh) as Hr.
  pose proof (norm_pos _ Hh) as Hhm.
  pose proof (eccentricity_energy r v mu ltac:(lra) Hr) as Hid.
  pose proof (eccentricity_nonneg r v mu) as He0.
  set (e := elements.eccentricity r v mu) in *.
  assert (Hneg : (norm v ^ 2 - 2 * mu / norm r) * norm (cross r v) ^ 2 < 0).
  { assert (0 < norm (cross r v) ^ 2) by nra. nra. }
  rewrite <- Hid in Hneg.
  destruct (Rlt_dec e 1) as [Hlt | Hge]; [exact Hlt | exfalso].
  assert (H1 : 0 <= e ^ 2 - 1) by nra.
  assert (H2 : 0 < mu ^ 2) by nra.
  pose proof (Rmult_le_pos _ _ (Rlt_le _ _ H2) H1). lra.
Qed.

(** [state_to_elements] on a bound orbit with angular momentum. *)
Lemma state_to_elements_bound_aux (r v : vec) (mu : R) :
  0 < mu -> cross r v <> vzero -> norm v ^ 2 < 2 * mu / norm r ->
  exists omega M,
    elements.state_to_elements r v mu
    = Ok (elements.Elements
            (1 / (2 / norm r - norm v ^ 2 / mu))
            (elements.eccentricity r v mu)
            (elements.inclination r v)
            (if decide (norm (cross (V3 0 0 1) (cross r v)) <> 0)
             then elements.atan2 (vy (cross (V3 0 0 1) (cross r v)))
                                 (vx (cross (V3 0 0 1) (cross r v)))
             else 0)
            omega M).
Proof.
  intros Hmu Hh Hb.
  pose proof (cross_nonzero_l r v Hh) as Hr.
  pose proof (norm_pos _ Hh) as Hhm.
  pose proof (eccentricity_bound r v mu Hmu Hh Hb) as He1.
  pose proof (eccentricity_nonneg r v mu) as He0.
  assert (Hden : 2 / norm r - norm v ^ 2 / mu <> 0).
  { assert (Hx : norm v ^ 2 / mu < 2 / norm r).
    { apply (Rmult_lt_reg_r mu); [exact Hmu |].
      replace (norm v ^ 2 / mu * mu) with (norm v ^ 2) by (field; lra).
      replace (2 / norm r * mu) with (2 * mu / norm r) by (field; lra).
      exact Hb. }
    lra. }
  unfold elements.state_to_elements. cbv zeta.
  step_div (vz (cross r v)) (norm (cross r v)); [| lra].
  unfold elements.math_acos.
  destruct (cos_inclination_bounds (cross r v) Hhm) as [Hlo Hhi].
  rewrite (decide_True _ _ Hlo), (decide_True _ _ Hhi), bind_Ok. cbv beta.
  step_div 1 mu; [| lra].
  step_div mu (norm r); [| lra].
  step_div 2 (norm r); [| lra].
  step_div (norm v ^ 2) mu; [| lra].
  step_div 1 (2 / norm r - norm v ^ 2 / mu); [| exact Hden].
  change (norm (1 / mu *v ((norm v ^ 2 - mu / norm r) *v r -v dot r v *v v)))
    with (elements.eccentricity r v mu).
  change (acos (vz (cross r v) / norm (cross r v)))
    with (elements.inclination r v).
  set (e := elements.eccentricity r v mu) in *.
  set (Nmag := norm (cross (V3 0 0 1) (cross r v))).
  assert (Homega : exists omega,
    (if decide (Nmag <> 0 /\ e > 1e-10)
     then y ← dot (cross (cross (V3 0 0 1) (cross r v))
                     (1 / mu *v ((norm v ^ 2 - mu / norm r) *v r -v dot r v *v v)))
                (cross r v) /? norm (cross r v);
          x ← dot (cross (V3 0 0 1) (cross r v))
                (1 / mu *v ((norm v ^ 2 - mu / norm r) *v r -v dot r v *v v))
              /? Nmag;
          Ok (elements.atan2 y x)
     else Ok 0) = Ok omega).
  { destruct (decide (Nmag <> 0 /\ e > 1e-10)) as [[HN _] | _]; [| eauto].
    rewrite (checked_div_ok _ (norm (cross r v))) by lra. rewrite bind_Ok.
    rewrite (checked_div_ok _ Nmag) by exact HN. rewrite bind_Ok. eauto. }
  destruct Homega as [omega ->]. rewrite bind_Ok. cbv beta.
  assert (Hnu : exists nu,
    (if decide (e > 1e-10)
     then y ← dot (cross (1 / mu *v ((norm v ^ 2 - mu / norm r) *v r
                                      -v dot r v *v v)) r)
                (cross r v) /? norm (cross r v);
          x ← dot (1 / mu *v ((norm v ^ 2 - mu / norm r) *v r -v dot r v *v v))
                r /? (e * norm r);
          Ok (elements.atan2 y x)
     else Ok (elements.atan2 (vy r) (vx r))) = Ok nu).
  { destruct (decide (e > 1e-10)) as [He | _]; [| eauto].
    rewrite (checked_div_ok _ (norm (cross r v))) by lra. rewrite bind_Ok.
    rewrite (checked_div_ok _ (e * norm r)) by nra. rewrite bind_Ok. eauto. }
  destruct Hnu as [nu ->]. rewrite bind_Ok. cbv beta.
  step_div (1 + e) (1 - e); [| lra].
  unfold elements.math_sqrt.
  rewrite (decide_True (P := 0 <= (1 + e) / (1 - e))).
  2:{ apply Rmult_le_pos; [lra |]. left. apply Rinv_0_lt_compat. lra. }
  rewrite bind_Ok. cbv beta. eauto.
Qed.

(** X12.  [state_to_elements] returns normally on every bound state with
    angular momentum ([mu > 0], [r x v <> 0], [|v|^2 < 2 mu / |r|]), and
    what it returns is an ellipse: [a > 0], [0 <= e < 1] and
    [0 <= i <= PI]. *)
Theorem state_to_elements_bound (r v : vec) (mu : R) :
  0 < mu -> cross r v <> vzero -> norm v ^ 2 < 2 * mu / norm r ->
  exists els,
    elements.state_to_elements r v mu = Ok els
    /\ 0 < elements.el_a els
    /\ 0 <= elements.el_e els < 1
    /\ 0 <= elements.el_i els <= PI.
Proof.
  intros Hmu Hh Hb.
  destruct (state_to_elements_bound_aux r v mu Hmu Hh Hb) as (omega & M & ->).
  eexists. split; [reflexivity |]. simpl.
  pose proof (cross_nonzero_l r v Hh) as Hr.
  split; [| split].
  - apply Rdiv_lt_0_compat; [lra |].
    assert (Hx : norm v ^ 2 / mu < 2 / norm r).
    { apply (Rmult_lt_reg_r mu); [exact Hmu |].
      replace (norm v ^ 2 / mu * mu) with (norm v ^ 2) by (field; lra).
      replace (2 / norm r * mu) with (2 * mu / norm r) by (field; lra).
      exact Hb. }
    lra.
  - split; [apply eccentricity_nonneg | now apply eccentricity_bound].
  - unfold elements.inclination. apply acos_bound.
Qed.

Lemma state_to_elements_bound_witness :
  (0 < G /\ cross (pos Earth) (vel Earth) <> vzero
   /\ norm (vel Earth) ^ 2 < 2 * G / norm (pos Earth))
  /\ exists els,
       elements.state_to_elements (pos Earth) (vel Earth) G = Ok els
       /\ 0 < elements.el_a els
       /\ 0 <= elements.el_e els < 1
       /\ 0 <= elements.el_i els <= PI.
Proof.
  assert (Hh : cross (pos Earth) (vel Earth) <> vzero).
  { rewrite earth_angular_momentum. intros H. apply (f_equal vz) in H.
    simpl in H. pose proof earth_speed_pos. lra. }
  assert (Hb : norm (vel Earth) ^ 2 < 2 * G / norm (pos Earth)).
  { pose proof earth_speed_pos. pose proof earth_speed_sq. pose proof G_pos.
    simpl. rewrite norm_axis_y by lra. unfold earth_distance.
    rewrite norm_axis_x by lra. nra. }
  split; [auto using G_pos |].
  exact (state_to_elements_bound (pos Earth) (vel Earth) G G_pos Hh Hb).
Defined.

Lemma matvec_smul (m : vec * vec * vec) (k : R) (x : vec) :
  elements.matvec m (k *v x) = k *v elements.matvec m x.
Proof.
  destruct m as [[r0 r1] r2]. unfold elements.matvec.
  apply vec_eq; unfold dot, smul; simpl; ring.
Qed.

Lemma matvec_vsub (m : vec * vec * vec) (x y : vec) :
  elements.matvec m (x -v y) = elements.matvec m x -v elements.matvec m y.
Proof.
  destruct m as [[r0 r1] r2]. unfold elements.matvec.
  apply vec_eq; unfold dot, vsub; simpl; ring.
Qed.

Section round_trip.
Variables a e i Omega omega mu E : R.
Hypothesis Ha : 0 < a.
Hypothesis He : 0 <= e < 1.
Hypothesis Hmu : 0 < mu.

Let Rm := orbit_rotation Omega i omega.
Let r := elements.matvec Rm (r_orb a e E).
Let v := elements.matvec Rm (v_orb a e mu E).
Let L := a ^ 2 * sqrt (mu / a ^ 3) * sqrt (1 - e ^ 2).

Lemma rt_He' : -1 < e < 1.
Proof. lra. Qed.

Lemma rt_L_pos : 0 < L.
Proof.
  destruct (orb_sqrt_facts a e mu Ha rt_He' Hmu) as (Hs & _ & Hn & _).
  unfold L. assert (0 < a ^ 2) by nra.
  apply Rmult_lt_0_compat; [apply Rmult_lt_0_compat |]; assumption.
Qed.

Lemma rt_norm_r : norm r = a * (1 - e * cos E).
Proof. unfold r, Rm. rewrite rotation_norm. apply r_orb_norm; [exact Ha | exact rt_He']. Qed.

Lemma rt_norm_r_pos : 0 < norm r.
Proof.
  rewrite rt_norm_r. pose proof (one_minus_e_cos_pos e E rt_He'). nra.
Qed.

Lemma rt_v2 : norm v ^ 2 = mu * (2 / (a * (1 - e * cos E)) - 1 / a).
Proof.
  rewrite norm_pow2. unfold v, Rm. rewrite rotation_dot.
  apply v_orb_sq; [exact Ha | exact rt_He' | lra].
Qed.

Lemma rt_cross : cross r v = elements.matvec Rm (V3 0 0 L).
Proof.
  unfold r, v, Rm. rewrite rotation_cross, orb_cross; [reflexivity | exact Ha | exact rt_He' | exact Hmu].
Qed.

Lemma rt_cross_components :
  cross r v = V3 (sin Omega * sin i * L) (- cos Omega * sin i * L) (cos i * L).
Proof.
  rewrite rt_cross. unfold Rm, orbit_rotation, elements.matvec. cbv zeta.
  apply vec_eq; unfold dot; simpl; ring.
Qed.

Lemma rt_norm_cross : norm (cross r v) = L.
Proof.
  rewrite rt_cross. unfold Rm. rewrite rotation_norm.
  apply norm_axis_z. left. exact rt_L_pos.
Qed.

Lemma rt_cross_nonzero : cross r v <> vzero.
Proof.
  intros H. pose proof rt_norm_cross as Hn. rewrite H in Hn.
  replace (norm vzero) with 0 in Hn by (symmetry; now apply norm_zero_iff).
  pose proof rt_L_pos. lra.
Qed.

Lemma rt_bound : norm v ^ 2 < 2 * mu / norm r.
Proof.
  rewrite rt_v2, rt_norm_r.
  pose proof (one_minus_e_cos_pos e E rt_He') as Hrho.
  assert (Hx : 0 < mu * (1 / a)).
  { apply Rmult_lt_0_compat; [exact Hmu |]. apply Rdiv_lt_0_compat; lra. }
  replace (2 * mu / (a * (1 - e * cos E)))
    with (mu * (2 / (a * (1 - e * cos E)))) by (field; lra).
  lra.
Qed.

Lemma rt_a : 1 / (2 / norm r - norm v ^ 2 / mu) = a.
Proof.
  rewrite rt_v2, rt_norm_r.
  pose proof (one_minus_e_cos_pos e E rt_He') as Hrho.
  field. repeat split; lra.
Qed.

Lemma rt_dot : dot r v = a ^ 2 * sqrt (mu / a ^ 3) * e * sin E.
Proof.
  unfold r, v, Rm. rewrite rotation_dot.
  apply orb_dot; [exact Ha | exact rt_He' | exact Hmu].
Qed.

Lemma rt_e_vec : elements.e_vec r v mu = elements.matvec Rm (V3 e 0 0).
Proof.
  unfold elements.e_vec. rewrite rt_v2, rt_norm_r, rt_dot.
  unfold r, v. rewrite <- !matvec_smul, <- matvec_vsub, <- matvec_smul.
  f_equal. apply orb_e_vec; [exact Ha | exact rt_He' | exact Hmu].
Qed.

Lemma rt_e : elements.eccentricity r v mu = e.
Proof.
  unfold elements.eccentricity. rewrite rt_e_vec. unfold Rm.
  rewrite rotation_norm. apply norm_axis_x. lra.
Qed.

Lemma rt_i : 0 <= i <= PI -> elements.inclination r v = i.
Proof.
  intros Hi. unfold elements.inclination.
  rewrite rt_norm_cross, rt_cross_components. simpl.
  replace (cos i * L / L) with (cos i) by (field; pose proof rt_L_pos; lra).
  now apply acos_cos.
Qed.
End round_trip.

(** [atan2] sees the direction only. *)
Lemma atan2_scale (k y x : R) :
  0 < k -> elements.atan2 (k * y) (k * x) = elements.atan2 y x.
Proof.
  intros Hk. unfold elements.atan2.
  assert (Hq : k * y / (k * x) = y / x).
  { destruct (Req_dec_T x 0) as [-> | Hx].
    - unfold Rdiv. rewrite Rmult_0_r, Rinv_0. ring.
    - field. lra. }
  rewrite Hq.
  assert (Hsign : forall z, (0 < k * z <-> 0 < z) /\ (k * z < 0 <-> z < 0)
                            /\ (0 <= k * z <-> 0 <= z)).
  { intros z. repeat split; intros; nra. }
  destruct (Hsign x) as (H1 & H2 & _). destruct (Hsign y) as (H3 & H4 & H5).
  repeat (destruct (decide _)); try tauto; reflexivity.
Qed.

(** [state_to_elements] on what [elements_to_state] returns. *)
Lemma round_trip_aux (a e i Omega omega M mu : R) :
  0 < a -> 0 <= e < 1 -> 0 <= i <= PI -> 0 < mu ->
  exists E omega' M',
    elements.eccentric_anomaly M e = Ok E
    /\ (rv ← elements.elements_to_state a e i Omega omega M mu;
        elements.state_to_elements rv.1 rv.2 mu)
       = Ok (elements.Elements a e i
               (let N := cross (V3 0 0 1)
                           (V3 (sin Omega * sin i) (- cos Omega * sin i) (cos i)) in
                if decide (norm N <> 0) then elements.atan2 (vy N) (vx N) else 0)
               omega' M').
Proof.
  intros Ha He Hi Hmu.
  assert (He' : -1 < e < 1) by lra.
  destruct (eccentric_anomaly_ok M e He') as [E HE].
  rewrite (elements_to_state_closed a e i Omega omega M mu E Ha He')
    by (lra || exact HE).
  rewrite bind_Ok. cbn [fst snd].
  destruct (state_to_elements_bound_aux _ _ mu Hmu
              (rt_cross_nonzero a e i Omega omega mu E Ha He Hmu)
              (rt_bound a e i Omega omega mu E Ha He Hmu))
    as (omega' & M' & ->).
  exists E.
  rewrite (rt_a a e i Omega omega mu E Ha He Hmu).
  rewrite (rt_e a e i Omega omega mu E Ha He Hmu).
  rewrite (rt_i a e i Omega omega mu E Ha He Hmu Hi).
  rewrite (rt_cross_components a e i Omega omega mu E Ha He Hmu).
  pose proof (rt_L_pos a e mu Ha He Hmu) as HL.
  set (L := a ^ 2 * sqrt (mu / a ^ 3) * sqrt (1 - e ^ 2)) in *.
  set (N := cross (V3 0 0 1)
              (V3 (sin Omega * sin i) (- cos Omega * sin i) (cos i))).
  assert (HN : cross (V3 0 0 1)
                 (V3 (sin Omega * sin i * L) (- cos Omega * sin i * L)
                     (cos i * L)) = L *v N).
  { unfold N. apply vec_eq; unfold cross, smul; simpl; ring. }
  rewrite HN.
  assert (Hnorm : norm (L *v N) = L * norm N).
  { unfold norm.
    replace (dot (L *v N) (L *v N)) with (L * L * dot N N)
      by (unfold dot, smul; simpl; ring).
    rewrite sqrt_mult by (try apply dot_nonneg; nra).
    rewrite sqrt_square by lra. reflexivity. }
  rewrite Hnorm.
  exists omega', M'. split; [exact HE |]. do 2 f_equal.
  cbv zeta.
  destruct (decide (norm N <> 0)) as [Hn | Hn].
  - rewrite decide_True by nra.
    change (vy (L *v N)) with (L * vy N).
    change (vx (L *v N)) with (L * vx N).
    now apply atan2_scale.
  - rewrite decide_False; [reflexivity |]. intros Hx. apply Hx.
    destruct (Req_dec_T (norm N) 0) as [Hz | Hz]; [| contradiction].
    rewrite Hz. ring.
Qed.

Lemma tan_shift (x : R) : cos x <> 0 -> sin x / cos x = tan (x + PI).
Proof.
  intros Hc. unfold tan. rewrite neg_sin, neg_cos. field. exact Hc.
Qed.

(** [atan2] inverts the polar angle on [(-PI, PI]]. *)
Lemma atan2_polar (theta : R) :
  - PI < theta <= PI -> elements.atan2 (sin theta) (cos theta) = theta.
Proof.
  intros [Hlo Hhi]. pose proof PI_RGT_0 as Hpi. unfold elements.atan2.
  destruct (Rlt_dec theta (- (PI / 2))) as [H1 | H1].
  - (* third quadrant *)
    assert (Hc : cos theta < 0).
    { rewrite <- cos_neg. apply cos_lt_0; lra. }
    assert (Hs : sin theta < 0).
    { rewrite <- (Ropp_involutive theta), sin_neg.
      assert (0 < sin (- theta)) by (apply sin_gt_0; lra). lra. }
    rewrite decide_False by lra. rewrite decide_True by lra.
    rewrite decide_False by lra.
    rewrite tan_shift by lra. rewrite atan_tan by lra. lra.
  - destruct (Req_dec_T theta (- (PI / 2))) as [-> | H2].
    + rewrite cos_neg, sin_neg, cos_PI2, sin_PI2.
      rewrite decide_False by lra. rewrite decide_False by lra.
      rewrite decide_False by lra. rewrite decide_True by lra. reflexivity.
    + destruct (Rlt_dec theta (PI / 2)) as [H3 | H3].
      * assert (Hc : 0 < cos theta) by (apply cos_gt_0; lra).
        rewrite decide_True by lra.
        change (sin theta / cos theta) with (tan theta).
        apply atan_tan. lra.
      * destruct (Req_dec_T theta (PI / 2)) as [-> | H4].
        -- rewrite cos_PI2, sin_PI2.
           rewrite decide_False by lra. rewrite decide_False by lra.
           rewrite decide_True by lra. reflexivity.
        -- assert (Hc : cos theta < 0) by (apply cos_lt_0; lra).
           assert (Hs : 0 <= sin theta) by (apply sin_ge_0; lra).
           rewrite decide_False by lra. rewrite decide_True by lra.
           rewrite decide_True by lra.
           replace (sin theta / cos theta) with (tan (theta - PI)).
           ++ rewrite atan_tan by lra. lra.
           ++ pose proof (neg_sin (theta - PI)) as Hsn.
              pose proof (neg_cos (theta - PI)) as Hcs.
              replace (theta - PI + PI) with theta in Hsn, Hcs by lra.
              unfold tan. rewrite Hsn, Hcs. field. lra.
Qed.

Lemma node_vector (Omega i : R) :
  cross (V3 0 0 1) (V3 (sin Omega * sin i) (- cos Omega * sin i) (cos i))
  = sin i *v V3 (cos Omega) (sin Omega) 0.
Proof. apply vec_eq; unfold cross, smul; simpl; ring. Qed.

Lemma node_norm (Omega i : R) :
  0 <= sin i -> norm (sin i *v V3 (cos Omega) (sin Omega) 0) = sin i.
Proof.
  intros Hs. unfold norm.
  replace (dot _ _) with (sin i * sin i).
  - now apply sqrt_square.
  - unfold dot, smul; simpl. pose proof (sin_cos_sq Omega). nra.
Qed.

(** X13.  Round trip: for an ellipse ([a > 0], [0 <= e < 1],
    [0 <= i <= PI], [mu > 0]) and any angles, [state_to_elements] applied
    to the state that [elements_to_state] returns gives back [a], [e] and
    [i] exactly, whether or not the ten Newton iterations converged. *)
Theorem elements_round_trip (a e i Omega omega M mu : R) :
  0 < a -> 0 <= e < 1 -> 0 <= i <= PI -> 0 < mu ->
  exists els,
    (rv ← elements.elements_to_state a e i Omega omega M mu;
     elements.state_to_elements rv.1 rv.2 mu) = Ok els
    /\ elements.el_a els = a
    /\ elements.el_e els = e
    /\ elements.el_i els = i.
Proof.
  intros Ha He Hi Hmu.
  destruct (round_trip_aux a e i Omega omega M mu Ha He Hi Hmu)
    as (E & omega' & M' & _ & ->).
  eexists. split; [reflexivity |]. now cbn.
Qed.

Lemma elements_round_trip_witness :
  exists els,
    (rv ← elements.elements_to_state 1 0.2 0.1 0.3 0.4 1 G;
     elements.state_to_elements rv.1 rv.2 G) = Ok els
    /\ elements.el_a els = 1
    /\ elements.el_e els = 0.2
    /\ elements.el_i els = 0.1.
Proof.
  pose proof PI_RGT_0. pose proof PI2_3_2. pose proof G_pos.
  apply elements_round_trip; try split; lra.
Defined.

(** X14.  On an inclined orbit ([0 < i < PI]) the round trip also gives
    back the longitude of the ascending node, for [Omega] in
    [(-PI, PI]], the range of [atan2]. *)
Theorem elements_round_trip_node (a e i Omega omega M mu : R) :
  0 < a -> 0 <= e < 1 -> 0 < i < PI -> - PI < Omega <= PI -> 0 < mu ->
  exists els,
    (rv ← elements.elements_to_state a e i Omega omega M mu;
     elements.state_to_elements rv.1 rv.2 mu) = Ok els
    /\ elements.el_Omega els = Omega.
Proof.
  intros Ha He Hi HO Hmu.
  assert (Hi' : 0 <= i <= PI) by lra.
  destruct (round_trip_aux a e i Omega omega M mu Ha He Hi' Hmu)
    as (E & omega' & M' & _ & ->).
  eexists. split; [reflexivity |]. cbn [elements.el_Omega]. cbv zeta.
  rewrite node_vector.
  assert (Hs : 0 < sin i) by (apply sin_gt_0; lra).
  rewrite node_norm by lra.
  rewrite decide_True by lra.
  change (vy (sin i *v V3 (cos Omega) (sin Omega) 0)) with (sin i * sin Omega).
  change (vx (sin i *v V3 (cos Omega) (sin Omega) 0)) with (sin i * cos Omega).
  rewrite atan2_scale by exact Hs.
  now apply atan2_polar.
Qed.

Lemma elements_round_trip_node_witness :
  exists els,
    (rv ← elements.elements_to_state 1 0.2 0.1 0.3 0.4 1 G;
     elements.state_to_elements rv.1 rv.2 G) = Ok els
    /\ elements.el_Omega els = 0.3.
Proof.
  pose proof PI_RGT_0. pose proof PI2_3_2. pose proof G_pos.
  apply elements_round_trip_node; try split; lra.
Defined.

(** X15.  On an equatorial orbit ([i = 0]) the round trip loses the node:
    the node vector is zero, the [Nmag != 0] branch is not taken and
    [Omega] comes back as [0], whatever it was. *)
Theorem elements_round_trip_equatorial (a e Omega omega M mu : R) :
  0 < a -> 0 <= e < 1 -> 0 < mu ->
  exists els,
    (rv ← elements.elements_to_state a e 0 Omega omega M mu;
     elements.state_to_elements rv.1 rv.2 mu) = Ok els
    /\ elements.el_i els = 0
    /\ elements.el_Omega els = 0.
Proof.
  intros Ha He Hmu. pose proof PI_RGT_0 as Hpi.
  assert (Hi' : 0 <= 0 <= PI) by lra.
  destruct (round_trip_aux a e 0 Omega omega M mu Ha He Hi' Hmu)
    as (E & omega' & M' & _ & ->).
  eexists. split; [reflexivity |]. split; [reflexivity |].
  cbn [elements.el_Omega]. cbv zeta.
  rewrite node_vector.
  rewrite node_norm by (rewrite sin_0; lra).
  rewrite sin_0. now rewrite decide_False by lra.
Qed.

Lemma elements_round_trip_equatorial_witness :
  exists els,
    (rv ← elements.elements_to_state 1 0.2 0 0.3 0.4 1 G;
     elements.state_to_elements rv.1 rv.2 G) = Ok els
    /\ elements.el_i els = 0
    /\ elements.el_Omega els = 0.
Proof.
  pose proof G_pos.
  apply elements_round_trip_equatorial; try split; lra.
Defined.

(** ** [osculating_elements] *)

Lemma np_mod_range (x d : R) : 0 < d -> 0 <= elements.np_mod x d < d.
Proof.
  intros Hd. unfold elements.np_mod.
  destruct (base_Int_part (x / d)) as [H1 H2].
  set (k := IZR (Int_part (x / d))) in *.
  assert (Hx : x = x / d * d) by (field; lra).
  split.
  - assert (k * d <= x / d * d) by (apply Rmult_le_compat_r; lra). lra.
  - assert (x / d * d < (k + 1) * d) by (apply Rmult_lt_compat_r; lra). lra.
Qed.

Lemma wrap_range (x : R) : 0 <= osculating._wrap_to_2pi x < 2 * PI.
Proof.
  pose proof PI_RGT_0 as Hpi.
  unfold osculating._wrap_to_2pi. cbv zeta.
  pose proof (np_mod_range x (2 * PI) ltac:(lra)) as H.
  destruct (decide _); lra.
Qed.

Lemma wrap_id (x : R) : 0 <= x < 2 * PI -> osculating._wrap_to_2pi x = x.
Proof.
  intros Hx. pose proof PI_RGT_0 as Hpi.
  unfold osculating._wrap_to_2pi, elements.np_mod. cbv zeta.
  assert (Hk : Int_part (x / (2 * PI)) = 0%Z).
  { symmetry. apply Int_part_spec. simpl.
    assert (0 <= x / (2 * PI)).
    { apply Rmult_le_pos; [lra |]. left. apply Rinv_0_lt_compat. lra. }
    assert (x / (2 * PI) < 1).
    { apply (Rmult_lt_reg_r (2 * PI)); [lra |].
      replace (x / (2 * PI) * (2 * PI)) with x by (field; lra). lra. }
    lra. }
  rewrite Hk. simpl. rewrite decide_False by lra. lra.
Qed.

Lemma clamp_range (x : R) : -1 <= osculating.clamp x <= 1.
Proof.
  unfold osculating.clamp, Rmax, Rmin.
  repeat destruct (Rle_dec _ _); lra.
Qed.

Lemma clamp_id (x : R) : -1 <= x <= 1 -> osculating.clamp x = x.
Proof.
  intros Hx. unfold osculating.clamp, Rmax, Rmin.
  repeat destruct (Rle_dec _ _); lra.
Qed.

Lemma node_le (h : vec) : norm (cross (V3 0 0 1) h) <= norm h.
Proof.
  unfold norm. apply sqrt_le_1_alt.
  destruct h as [x y z]. unfold dot, cross; simpl. nra.
Qed.

Ltac pos_prod := repeat apply Rmult_lt_0_compat; lra.

Ltac div_pos :=
  match goal with
  | |- context [checked_div ?x ?y] =>
      rewrite (checked_div_ok x y) by (apply Rgt_not_eq; pos_prod);
      rewrite bind_Ok
  end.

Lemma small_pos : 0 < osculating._SMALL.
Proof. unfold osculating._SMALL. lra. Qed.

Lemma vdivs_pos (a : vec) (k : R) :
  0 < k -> vdivs a k = Ok (V3 (vx a / k) (vy a / k) (vz a / k)).
Proof. intros Hk. apply vdivs_ok. lra. Qed.

Lemma omega_branch_ok (N_vec e_vec h_vec : vec) :
  norm N_vec <= norm h_vec ->
  exists w, omega_branch N_vec e_vec h_vec = Ok w /\ 0 <= w < 2 * PI.
Proof.
  intros HNh. pose proof small_pos as Hs. pose proof PI_RGT_0 as Hpi.
  unfold omega_branch. cbv zeta.
  destruct (decide _) as [[He HN] | _].
  - do 2 div_pos. eexists. split; [reflexivity | apply wrap_range].
  - destruct (decide _) as [[He HN] | _].
    + do 2 div_pos. eexists. split; [reflexivity | apply wrap_range].
    + exists 0. split; [reflexivity | lra].
Qed.

Lemma nu_branch_ok (r N_vec e_vec h_vec : vec) :
  0 < norm r ->
  exists w, nu_branch r N_vec e_vec h_vec = Ok w /\ 0 <= w < 2 * PI.
Proof.
  intros Hr. pose proof small_pos as Hs.
  unfold nu_branch. cbv zeta.
  destruct (decide (norm e_vec > _)) as [He | _].
  - div_pos. destruct (decide _) as [Hh | _].
    + div_pos. eexists. split; [reflexivity | apply wrap_range].
    + rewrite bind_Ok. eexists. split; [reflexivity | apply wrap_range].
  - destruct (decide _) as [HN | _].
    + rewrite (vdivs_pos N_vec) by lra. rewrite bind_Ok.
      div_pos. destruct (decide _) as [Hh | _].
      * rewrite bind_Ok. div_pos.
        eexists. split; [reflexivity | apply wrap_range].
      * rewrite bind_Ok. eexists. split; [reflexivity | apply wrap_range].
    + eexists. split; [reflexivity | apply wrap_range].
Qed.

Lemma M_branch_ok (e nu : R) :
  0 <= e -> M_branch e nu = Ok (mean_anomaly e nu).
Proof.
  intros He. unfold M_branch, mean_anomaly, elements.math_sqrt.
  destruct (decide _) as [H1 | _]; [| reflexivity].
  rewrite (decide_True (P := 0 <= 1 - e)) by lra. rewrite bind_Ok.
  rewrite (decide_True (P := 0 <= 1 + e)) by lra. now rewrite bind_Ok.
Qed.

Lemma period_branch_ok (e : R) (a : osculating.semi_major_axis) (mu : R) :
  mu <> 0 -> period_branch e a mu = Ok (kepler_period e a mu).
Proof.
  intros Hmu. unfold period_branch, kepler_period, elements.math_sqrt.
  destruct (decide _) as [H1 | _]; [| reflexivity].
  destruct a as [a |]; [| reflexivity].
  rewrite (checked_div_ok _ mu Hmu), bind_Ok.
  rewrite decide_True by apply Rabs_pos. now rewrite bind_Ok.
Qed.

Lemma mean_anomaly_range (e nu m : R) :
  mean_anomaly e nu = Some m -> 0 <= m < 2 * PI.
Proof.
  unfold mean_anomaly. destruct (decide _); [| discriminate].
  intros [= <-]. apply wrap_range.
Qed.

Lemma osculating_elements_unfold (r v : vec) (mu : R) :
  osculating.osculating_elements r v mu
  = (let h_vec := cross r v in
     let N_vec := cross (V3 0 0 1) h_vec in
     mu_r ← mu /? norm r;
     let specific_energy := 0.5 * norm v ^ 2 - mu_r in
     mu_r ← mu /? norm r;
     e_vec ← vdivs (((norm v ^ 2 - mu_r) *v r) -v (dot r v *v v)) mu;
     a ← (if decide (Rabs specific_energy < osculating._EPS)
          then Ok osculating.Infinite
          else q ← (- mu) /? (2 * specific_energy); Ok (osculating.Finite q));
     i ← (if decide (norm h_vec > osculating._SMALL) then
            c ← vz h_vec /? norm h_vec;
            elements.math_acos (osculating.clamp c)
          else Ok 0);
     let Omega :=
       if decide (norm N_vec > osculating._SMALL)
       then osculating._wrap_to_2pi (elements.atan2 (vy N_vec) (vx N_vec))
       else 0 in
     omega ← omega_branch N_vec e_vec h_vec;
     nu ← nu_branch r N_vec e_vec h_vec;
     M ← M_branch (norm e_vec) nu;
     period ← period_branch (norm e_vec) a mu;
     Ok (osculating.Dict a (norm e_vec) i Omega omega nu M specific_energy
           h_vec (norm h_vec) period)).
Proof. reflexivity. Qed.

Lemma e_vec_vdivs (r v : vec) (mu : R) :
  V3 (vx (((norm v ^ 2 - mu / norm r) *v r) -v (dot r v *v v)) / mu)
     (vy (((norm v ^ 2 - mu / norm r) *v r) -v (dot r v *v v)) / mu)
     (vz (((norm v ^ 2 - mu / norm r) *v r) -v (dot r v *v v)) / mu)
  = elements.e_vec r v mu.
Proof.
  unfold elements.e_vec. apply vec_eq; unfold smul; cbn [vx vy vz];
    unfold Rdiv; ring.
Qed.

(** The closed form of [osculating_elements] on a nonzero position with a
    nonzero [mu]. *)
Lemma osculating_elements_closed (r v : vec) (mu : R) :
  r <> vzero -> mu <> 0 ->
  exists omega nu,
    osculating.osculating_elements r v mu
    = Ok (osculating.Dict (semi_major r v mu) (elements.eccentricity r v mu)
            (osculating_inclination r v) (osculating_node r v) omega nu
            (mean_anomaly (elements.eccentricity r v mu) nu)
            (specific_energy r v mu) (cross r v) (norm (cross r v))
            (kepler_period (elements.eccentricity r v mu)
               (semi_major r v mu) mu))
    /\ omega_branch (cross (V3 0 0 1) (cross r v)) (elements.e_vec r v mu)
         (cross r v) = Ok omega
    /\ nu_branch r (cross (V3 0 0 1) (cross r v)) (elements.e_vec r v mu)
         (cross r v) = Ok nu
    /\ 0 <= omega < 2 * PI /\ 0 <= nu < 2 * PI.
Proof.
  intros Hr Hmu. pose proof (norm_pos r Hr) as Hrm.
  pose proof small_pos as Hs.
  rewrite osculating_elements_unfold. cbv zeta.
  div_pos. rewrite bind_Ok. rewrite (vdivs_ok _ mu Hmu), bind_Ok.
  rewrite e_vec_vdivs.
  fold (specific_energy r v mu). fold (elements.eccentricity r v mu).
  assert (Ha : (if decide (Rabs (specific_energy r v mu) < osculating._EPS)
                then Ok osculating.Infinite
                else q ← (- mu) /? (2 * specific_energy r v mu);
                     Ok (osculating.Finite q))
               = Ok (semi_major r v mu)).
  { unfold semi_major. destruct (decide _) as [| Hn]; [reflexivity |].
    rewrite checked_div_ok; [now rewrite bind_Ok |].
    intros Hz. apply Hn. replace (specific_energy r v mu) with 0 by lra.
    rewrite Rabs_R0. unfold osculating._EPS. lra. }
  rewrite Ha, bind_Ok.
  assert (Hi : (if decide (norm (cross r v) > osculating._SMALL)
                then c ← vz (cross r v) /? norm (cross r v);
                     elements.math_acos (osculating.clamp c)
                else Ok 0)
               = Ok (osculating_inclination r v)).
  { unfold osculating_inclination. cbv zeta.
    destruct (decide (norm (cross r v) > _)) as [Hh |]; [| reflexivity].
    div_pos. unfold elements.math_acos.
    pose proof (clamp_range (vz (cross r v) / norm (cross r v))) as [? ?].
    rewrite decide_True by assumption. now rewrite decide_True by assumption. }
  rewrite Hi, bind_Ok.
  destruct (omega_branch_ok (cross (V3 0 0 1) (cross r v))
              (elements.e_vec r v mu) (cross r v) (node_le _))
    as (omega & Hom & Homega).
  rewrite Hom, bind_Ok.
  destruct (nu_branch_ok r (cross (V3 0 0 1) (cross r v))
              (elements.e_vec r v mu) (cross r v) Hrm)
    as (nu & Hn & Hnu).
  rewrite Hn, bind_Ok.
  fold (elements.eccentricity r v mu).
  rewrite M_branch_ok by apply norm_nonneg. rewrite bind_Ok.
  rewrite period_branch_ok by exact Hmu. rewrite bind_Ok.
  exists omega, nu. now repeat split.
Qed.

Lemma cross_parallel (r : vec) (k : R) : cross r (k *v r) = vzero.
Proof. vec_ring. Qed.

Lemma norm_zero : norm vzero = 0.
Proof. now apply norm_zero_iff. Qed.

Lemma norm_unit (r : vec) : r <> vzero -> norm ((- / norm r) *v r) = 1.
Proof.
  intros Hr. pose proof (norm_pos r Hr) as Hpos.
  unfold norm at 1.
  replace (dot _ _) with (/ norm r * / norm r * dot r r)
    by (unfold dot, smul; simpl; ring).
  rewrite <- norm_sq.
  replace (/ norm r * / norm r * (norm r * norm r)) with 1 by (field; lra).
  apply sqrt_1.
Qed.

Lemma e_vec_parallel (r : vec) (k mu : R) :
  r <> vzero -> mu <> 0 ->
  elements.e_vec r (k *v r) mu = (- / norm r) *v r.
Proof.
  intros Hr Hmu. pose proof (norm_pos r Hr) as Hpos.
  unfold elements.e_vec. rewrite norm_pow2.
  apply vec_eq; unfold dot, smul, vsub; cbn [vx vy vz]; field; lra.
Qed.

Ltac os_proj :=
  cbn [osculating.os_a osculating.os_e osculating.os_i osculating.os_Omega
       osculating.os_omega osculating.os_nu osculating.os_M
       osculating.os_specific_energy osculating.os_h_vec osculating.os_h
       osculating.os_period].

(** X16.  [osculating_elements] guards every division but those by [|r|]
    and by [mu], and its angles lie in their ranges. *)
Theorem osculating_elements_guarded (r v : vec) (mu : R) :
  r <> vzero -> mu <> 0 ->
  exists d,
    osculating.osculating_elements r v mu = Ok d
    /\ 0 <= osculating.os_e d
    /\ 0 <= osculating.os_i d <= PI
    /\ 0 <= osculating.os_Omega d < 2 * PI
    /\ 0 <= osculating.os_omega d < 2 * PI
    /\ 0 <= osculating.os_nu d < 2 * PI
    /\ (forall m, osculating.os_M d = Some m -> 0 <= m < 2 * PI)
    /\ (osculating.os_M d = None <-> 1 - 1e-8 <= osculating.os_e d).
Proof.
  intros Hr Hmu. pose proof PI_RGT_0 as Hpi.
  destruct (osculating_elements_closed r v mu Hr Hmu)
    as (omega & nu & -> & _ & _ & Homega & Hnu).
  eexists. split; [reflexivity |]. os_proj.
  split; [apply norm_nonneg |].
  split.
  { unfold osculating_inclination. cbv zeta.
    destruct (decide _); [apply acos_bound | lra]. }
  split.
  { unfold osculating_node. cbv zeta.
    destruct (decide _); [apply wrap_range | lra]. }
  split; [exact Homega |]. split; [exact Hnu |].
  split; [intros m; apply mean_anomaly_range |].
  unfold mean_anomaly. destruct (decide _) as [H | H].
  - split; [discriminate | intros; exfalso; lra].
  - split; [intros _; lra | reflexivity].
Qed.

Lemma osculating_elements_guarded_witness :
  exists d,
    osculating.osculating_elements (pos Earth) (vel Earth) G = Ok d
    /\ 0 <= osculating.os_e d
    /\ 0 <= osculating.os_i d <= PI
    /\ 0 <= osculating.os_Omega d < 2 * PI
    /\ 0 <= osculating.os_omega d < 2 * PI
    /\ 0 <= osculating.os_nu d < 2 * PI
    /\ (forall m, osculating.os_M d = Some m -> 0 <= m < 2 * PI)
    /\ (osculating.os_M d = None <-> 1 - 1e-8 <= osculating.os_e d).
Proof.
  apply osculating_elements_guarded.
  - intros H. apply (f_equal vx) in H. simpl in H.
    unfold earth_distance in H. lra.
  - pose proof G_pos. lra.
Defined.

(** X17.  A state whose velocity is parallel to its position - where
    [state_to_elements] divides by zero - is reported by
    [osculating_elements] as a rectilinear orbit at apoapsis. *)
Theorem osculating_elements_rectilinear (r : vec) (k mu : R) :
  r <> vzero -> mu <> 0 ->
  exists d,
    osculating.osculating_elements r (k *v r) mu = Ok d
    /\ osculating.os_h d = 0
    /\ osculating.os_e d = 1
    /\ osculating.os_i d = 0
    /\ osculating.os_Omega d = 0
    /\ osculating.os_nu d = PI
    /\ osculating.os_M d = None
    /\ osculating.os_period d = None.
Proof.
  intros Hr Hmu. pose proof PI_RGT_0 as Hpi. pose proof small_pos as Hs.
  pose proof (norm_pos r Hr) as Hpos.
  destruct (osculating_elements_closed r (k *v r) mu Hr Hmu)
    as (omega & nu & -> & _ & Hn & _ & _).
  assert (He : elements.eccentricity r (k *v r) mu = 1).
  { unfold elements.eccentricity. rewrite e_vec_parallel by assumption.
    now apply norm_unit. }
  eexists. split; [reflexivity |]. os_proj.
  rewrite He, cross_parallel.
  split; [apply norm_zero |]. split; [reflexivity |].
  split.
  { unfold osculating_inclination. cbv zeta. rewrite cross_parallel, norm_zero.
    now rewrite decide_False by lra. }
  split.
  { unfold osculating_node. cbv zeta. rewrite cross_parallel.
    replace (cross (V3 0 0 1) vzero) with vzero by vec_ring.
    rewrite norm_zero. now rewrite decide_False by lra. }
  split.
  { rewrite cross_parallel, e_vec_parallel in Hn by assumption.
    unfold nu_branch in Hn. cbv zeta in Hn.
    rewrite norm_unit, norm_zero in Hn by assumption.
    rewrite (decide_True (P := 1 > osculating._SMALL)) in Hn
      by (unfold osculating._SMALL; lra).
    rewrite (checked_div_ok _ (1 * norm r)) in Hn by lra.
    rewrite bind_Ok in Hn.
    rewrite (decide_False (P := 0 > osculating._SMALL)) in Hn by lra.
    rewrite bind_Ok in Hn.
    replace (dot ((- / norm r) *v r) r / (1 * norm r)) with (-1) in Hn.
    - rewrite clamp_id in Hn by lra.
      injection Hn as <-.
      unfold elements.atan2.
      rewrite decide_False by lra. rewrite decide_True by lra.
      rewrite decide_True by lra.
      replace (0 / -1) with 0 by field. rewrite atan_0.
      rewrite wrap_id by lra. lra.
    - replace (dot ((- / norm r) *v r) r) with (- / norm r * dot r r)
        by (unfold dot, smul; simpl; ring).
      rewrite <- norm_sq. field. lra. }
  split.
  - unfold mean_anomaly. now rewrite decide_False by lra.
  - unfold kepler_period. now rewrite decide_False by lra.
Qed.

Lemma osculating_elements_rectilinear_witness :
  exists d,
    osculating.osculating_elements (V3 1 0 0) (0 *v V3 1 0 0) G = Ok d
    /\ osculating.os_h d = 0
    /\ osculating.os_e d = 1
    /\ osculating.os_i d = 0
    /\ osculating.os_Omega d = 0
    /\ osculating.os_nu d = PI
    /\ osculating.os_M d = None
    /\ osculating.os_period d = None.
Proof.
  apply osculating_elements_rectilinear.
  - intros H. apply (f_equal vx) in H. simpl in H. lra.
  - pose proof G_pos. lra.
Defined.

Lemma eccentricity_circular (r v : vec) (mu : R) :
  dot r v = 0 -> norm v ^ 2 = mu / norm r ->
  elements.eccentricity r v mu = 0.
Proof.
  intros Hd Hv. unfold elements.eccentricity. apply norm_zero_iff.
  unfold elements.e_vec. rewrite Hd, Hv.
  apply vec_eq; unfold smul, vsub, vzero; cbn [vx vy vz]; ring.
Qed.

Lemma mean_anomaly_circular (nu : R) :
  0 <= nu < 2 * PI -> mean_anomaly 0 nu = Some nu.
Proof.
  intros Hnu. pose proof PI_RGT_0 as Hpi. unfold mean_anomaly.
  rewrite decide_True by lra. cbv zeta. f_equal.
  rewrite Rminus_0_r, Rplus_0_r, sqrt_1, !Rmult_1_l, Rmult_0_l, Rminus_0_r.
  rewrite atan2_polar by lra.
  replace (2 * (nu / 2)) with nu by field.
  now apply wrap_id.
Qed.

(** X18.  On a circular state [osculating_elements] reports the radius as
    the semi-major axis, no eccentricity, a mean anomaly equal to the true
    anomaly, and the period of Kepler's third law. *)
Theorem osculating_elements_circular (r v : vec) (mu : R) :
  r <> vzero -> 0 < mu -> dot r v = 0 -> norm v ^ 2 = mu / norm r ->
  1e-12 <= mu / (2 * norm r) ->
  exists d,
    osculating.osculating_elements r v mu = Ok d
    /\ osculating.os_a d = osculating.Finite (norm r)
    /\ osculating.os_e d = 0
    /\ osculating.os_omega d = 0
    /\ osculating.os_M d = Some (osculating.os_nu d)
    /\ osculating.os_period d = Some (2 * PI * sqrt (norm r ^ 3 / mu)).
Proof.
  intros Hr Hmu Hd Hv Hbig. pose proof (norm_pos r Hr) as Hpos.
  pose proof small_pos as Hs.
  destruct (osculating_elements_closed r v mu Hr ltac:(lra))
    as (omega & nu & -> & Hom & _ & _ & Hnu).
  pose proof (eccentricity_circular r v mu Hd Hv) as He.
  assert (Hen : specific_energy r v mu = - (mu / (2 * norm r))).
  { unfold specific_energy. rewrite Hv, lit_half. field. lra. }
  assert (Ha : semi_major r v mu = osculating.Finite (norm r)).
  { unfold semi_major. rewrite Hen.
    rewrite decide_False.
    - f_equal. field. lra.
    - rewrite Rabs_Ropp, Rabs_pos_eq by (unfold osculating._EPS in *; lra).
      unfold osculating._EPS. lra. }
  eexists. split; [reflexivity |]. os_proj. rewrite He, Ha.
  split; [reflexivity |]. split; [reflexivity |].
  split.
  { unfold omega_branch in Hom. cbv zeta in Hom.
    fold (elements.eccentricity r v mu) in Hom. rewrite He in Hom.
    rewrite decide_False in Hom by lra.
    rewrite decide_False in Hom by lra.
    now injection Hom as <-. }
  split; [now apply mean_anomaly_circular |].
  unfold kepler_period. rewrite decide_True by lra.
  rewrite Rabs_pos_eq; [reflexivity |].
  apply Rlt_le, Rdiv_lt_0_compat; [| lra]. apply pow_lt. lra.
Qed.

Lemma osculating_elements_circular_witness :
  exists d,
    osculating.osculating_elements (pos Earth) (vel Earth) G = Ok d
    /\ osculating.os_a d = osculating.Finite (norm (pos Earth))
    /\ osculating.os_e d = 0
    /\ osculating.os_omega d = 0
    /\ osculating.os_M d = Some (osculating.os_nu d)
    /\ osculating.os_period d
       = Some (2 * PI * sqrt (norm (pos Earth) ^ 3 / G)).
Proof.
  pose proof G_pos as HG. pose proof earth_speed_pos as Hs.
  pose proof earth_speed_sq as Hsq.
  assert (Hn : norm (pos Earth) = 1).
  { simpl. unfold earth_distance. rewrite norm_axis_x; lra. }
  apply osculating_elements_circular.
  - intros H. apply (f_equal vx) in H. simpl in H.
    unfold earth_distance in H. lra.
  - exact HG.
  - unfold dot. simpl. ring.
  - rewrite Hn. simpl. rewrite norm_axis_y by lra.
    rewrite <- Hsq. field.
  - rewrite Hn. pose proof PI_RGT_0. pose proof PI2_3_2.
    unfold G in *. nra.
Defined.

(** X19.  On a bound state with angular momentum above the guard and
    energy away from zero, [osculating_elements] and [state_to_elements]
    agree on [a], [e] and [i], and on [Omega] up to its wrap to
    [[0, 2 PI)]. *)
Theorem osculating_elements_agrees (r v : vec) (mu : R) :
  0 < mu -> norm (cross r v) > 1e-8 -> norm v ^ 2 < 2 * mu / norm r ->
  1e-12 <= mu / norm r - 0.5 * norm v ^ 2 ->
  exists els d,
    elements.state_to_elements r v mu = Ok els
    /\ osculating.osculating_elements r v mu = Ok d
    /\ osculating.os_a d = osculating.Finite (elements.el_a els)
    /\ osculating.os_e d = elements.el_e els
    /\ osculating.os_i d = elements.el_i els
    /\ (norm (cross (V3 0 0 1) (cross r v)) > 1e-8 ->
        osculating.os_Omega d
        = osculating._wrap_to_2pi (elements.el_Omega els)).
Proof.
  intros Hmu Hh Hb Hen.
  assert (Hh0 : cross r v <> vzero).
  { intros H. rewrite H, norm_zero in Hh. lra. }
  pose proof (cross_nonzero_l r v Hh0) as Hpos.
  assert (Hr : r <> vzero).
  { intros H. rewrite H, norm_zero in Hpos. lra. }
  destruct (state_to_elements_bound_aux r v mu Hmu Hh0 Hb)
    as (omega' & M' & ->).
  destruct (osculating_elements_closed r v mu Hr ltac:(lra))
    as (omega & nu & -> & _).
  eexists _, _. split; [reflexivity |]. split; [reflexivity |].
  os_proj. cbn [elements.el_a elements.el_e elements.el_i elements.el_Omega].
  split.
  { unfold semi_major, specific_energy.
    rewrite decide_False.
    - assert (Hlt : norm v ^ 2 * norm r < 2 * mu).
      { apply (Rmult_lt_compat_r (norm r)) in Hb; [| exact Hpos].
        replace (2 * mu / norm r * norm r) with (2 * mu) in Hb
          by (field; lra).
        exact Hb. }
      f_equal. rewrite lit_half. field. repeat split; lra.
    - rewrite Rabs_left1 by lra. unfold osculating._EPS. lra. }
  split; [reflexivity |].
  split.
  { unfold osculating_inclination, elements.inclination. cbv zeta.
    rewrite decide_True by (unfold osculating._SMALL; lra).
    rewrite clamp_id; [reflexivity |].
    apply cos_inclination_bounds. lra. }
  intros HN. unfold osculating_node. cbv zeta.
  rewrite decide_True by (unfold osculating._SMALL; lra).
  now rewrite decide_True by lra.
Qed.

Lemma osculating_elements_agrees_witness :
  exists els d,
    elements.state_to_elements (pos Earth) (vel Earth) G = Ok els
    /\ osculating.osculating_elements (pos Earth) (vel Earth) G = Ok d
    /\ osculating.os_a d = osculating.Finite (elements.el_a els)
    /\ osculating.os_e d = elements.el_e els
    /\ osculating.os_i d = elements.el_i els
    /\ (norm (cross (V3 0 0 1) (cross (pos Earth) (vel Earth))) > 1e-8 ->
        osculating.os_Omega d
        = osculating._wrap_to_2pi (elements.el_Omega els)).
Proof.
  pose proof G_pos as HG. pose proof earth_speed_pos as Hs.
  pose proof earth_speed_sq as Hsq.
  assert (Hn : norm (pos Earth) = 1).
  { simpl. unfold earth_distance. rewrite norm_axis_x; lra. }
  assert (Hv : norm (vel Earth) ^ 2 = G).
  { simpl. rewrite norm_axis_y by lra. rewrite <- Hsq. ring. }
  assert (HG1 : 1 < G).
  { pose proof PI_RGT_0. pose proof PI2_3_2. unfold G. nra. }
  apply osculating_elements_agrees.
  - exact HG.
  - rewrite earth_angular_momentum, norm_axis_z by lra. nra.
  - rewrite Hn, Hv. lra.
  - rewrite Hn, Hv. lra.
Defined.

(** ** The Kepler solvers *)

Lemma sin_period_Z (x : R) (k : Z) : sin (x + 2 * IZR k * PI) = sin x.
Proof.
  destruct (Z_le_gt_dec 0 k) as [Hk | Hk].
  - rewrite <- (Z2Nat.id k Hk), <- INR_IZR_INZ. apply sin_period.
  - rewrite <- (sin_period (x + 2 * IZR k * PI) (Z.to_nat (- k))).
    f_equal. rewrite INR_IZR_INZ, Z2Nat.id by lia.
    rewrite opp_IZR. ring.
Qed.

Lemma cos_period_Z (x : R) (k : Z) : cos (x + 2 * IZR k * PI) = cos x.
Proof.
  destruct (Z_le_gt_dec 0 k) as [Hk | Hk].
  - rewrite <- (Z2Nat.id k Hk), <- INR_IZR_INZ. apply cos_period.
  - rewrite <- (cos_period (x + 2 * IZR k * PI) (Z.to_nat (- k))).
    f_equal. rewrite INR_IZR_INZ, Z2Nat.id by lia.
    rewrite opp_IZR. ring.
Qed.

Lemma np_mod_shift (x d : R) (k : Z) :
  d <> 0 -> elements.np_mod (x + IZR k * d) d = elements.np_mod x d.
Proof.
  intros Hd. unfold elements.np_mod.
  replace ((x + IZR k * d) / d) with (x / d + IZR k) by (field; exact Hd).
  assert (Hk : Int_part (x / d + IZR k) = (Int_part (x / d) + k)%Z).
  { symmetry. apply Int_part_spec. rewrite plus_IZR.
    destruct (base_Int_part (x / d)) as [H1 H2]. lra. }
  rewrite Hk, plus_IZR. ring.
Qed.

(** X20.  [solve_kepler] is periodic in the mean anomaly. *)
Theorem solve_kepler_periodic (M e tol : R) (max_iter : nat) (k : Z) :
  elements.solve_kepler (M + 2 * IZR k * PI) e tol max_iter
  = elements.solve_kepler M e tol max_iter.
Proof.
  unfold elements.solve_kepler.
  replace (M + 2 * IZR k * PI) with (M + IZR k * (2 * PI)) by ring.
  rewrite np_mod_shift; [reflexivity |].
  pose proof PI_RGT_0. lra.
Qed.

(** X21.  On a circular orbit [solve_kepler] returns the mean anomaly
    reduced to [[0, 2 PI)]. *)
Theorem solve_kepler_circular (M tol : R) (max_iter : nat) :
  0 < tol ->
  elements.solve_kepler M 0 tol max_iter = Ok (elements.np_mod M (2 * PI))
  /\ 0 <= elements.np_mod M (2 * PI) < 2 * PI.
Proof.
  intros Htol. pose proof PI_RGT_0 as Hpi. split.
  - unfold elements.solve_kepler. cbv zeta.
    rewrite decide_True by lra.
    destruct max_iter as [| n]; [reflexivity |].
    now apply solve_kepler_loop_at_root.
  - apply np_mod_range. lra.
Qed.

Lemma solve_kepler_circular_witness :
  elements.solve_kepler 7 0 1e-10 50 = Ok (elements.np_mod 7 (2 * PI))
  /\ 0 <= elements.np_mod 7 (2 * PI) < 2 * PI.
Proof. apply solve_kepler_circular. lra. Defined.

Lemma newton_raphson_shift (iters : nat) (M e E : R) (k : Z) :
  elements.newton_raphson iters (M + 2 * IZR k * PI) e (E + 2 * IZR k * PI)
  = (E' ← elements.newton_raphson iters M e E; Ok (E' + 2 * IZR k * PI)).
Proof.
  revert E. induction iters as [| n IH]; intros E; [reflexivity |].
  cbn [elements.newton_raphson].
  unfold elements.kepler, elements.kepler_prime.
  rewrite sin_period_Z, cos_period_Z.
  replace (E + 2 * IZR k * PI - e * sin E - (M + 2 * IZR k * PI))
    with (E - e * sin E - M) by ring.
  destruct ((E - e * sin E - M) /? (1 - e * cos E)) as [q | err];
    [| reflexivity].
  rewrite !bind_Ok.
  replace (E + 2 * IZR k * PI - q) with (E - q + 2 * IZR k * PI) by ring.
  apply IH.
Qed.

(** X22.  [elements_to_state] never reduces [M], and yet its result is
    periodic in [M]: the Newton iterates shift with [M]. *)
Theorem elements_to_state_periodic (a e i Omega omega M mu : R) (k : Z) :
  elements.elements_to_state a e i Omega omega (M + 2 * IZR k * PI) mu
  = elements.elements_to_state a e i Omega omega M mu.
Proof.
  unfold elements.elements_to_state, elements.eccentric_anomaly.
  rewrite newton_raphson_shift.
  destruct (elements.newton_raphson 10 M e M) as [E | err]; [| reflexivity].
  rewrite !bind_Ok. now rewrite sin_period_Z, cos_period_Z.
Qed.

(** ** [Body], [SolarSystem] and the potential at a point *)

Lemma Rsum_nonneg {A} (f : A -> R) (l : list A) :
  (forall x, x ∈ l -> 0 <= f x) -> 0 <= Rsum (f <$> l).
Proof.
  unfold Rsum. induction l as [| x l IH]; intros H; csimpl; [lra |].
  assert (0 <= f x) by (apply H, list_elem_of_here).
  assert (0 <= foldr Rplus 0 (f <$> l)).
  { apply IH. intros y Hy. apply H. now apply list_elem_of_further. }
  lra.
Qed.

(** X23.  Summed over the bodies, [Body.get_angular_momentum] about the
    origin is [total_angular_momentum], and about another point [o] it
    differs from it by [o x P], [P] the total momentum. *)
Theorem get_angular_momentum_about (o : vec) (bodies : list Body) :
  vsum ((fun b => body.get_angular_momentum b None) <$> bodies)
  = diagnostics.total_angular_momentum bodies
  /\ vsum ((fun b => body.get_angular_momentum b (Some o)) <$> bodies)
     = diagnostics.total_angular_momentum bodies
       -v cross o (total_momentum bodies).
Proof.
  rewrite total_angular_momentum_sum. unfold angular_momentum_sum.
  split; [reflexivity |].
  unfold total_momentum. rewrite <- vsum_cross.
  unfold vsum. induction bodies as [| b bodies IH]; csimpl.
  - vec_ring.
  - rewrite IH. unfold body.get_angular_momentum, body.get_momentum.
    vec_ring.
Qed.

Lemma cauchy_schwarz (u w : vec) : dot u w <= norm u * norm w.
Proof.
  pose proof (lagrange_identity u w) as HL.
  pose proof (dot_nonneg (cross u w)) as Hc.
  pose proof (norm_sq u) as Hu. pose proof (norm_sq w) as Hw.
  pose proof (norm_nonneg u) as Hu0. pose proof (norm_nonneg w) as Hw0.
  assert (Hsq : dot u w * dot u w <= (norm u * norm w) * (norm u * norm w)).
  { replace ((norm u * norm w) * (norm u * norm w))
      with ((norm u * norm u) * (norm w * norm w)) by ring.
    rewrite Hu, Hw. lra. }
  assert (Hp : 0 <= norm u * norm w) by now apply Rmult_le_pos.
  destruct (Rle_dec (dot u w) (norm u * norm w)) as [| Hn]; [assumption |].
  exfalso. nra.
Qed.

Lemma norm_triangle (u w : vec) : norm (u +v w) <= norm u + norm w.
Proof.
  pose proof (cauchy_schwarz u w) as Hcs.
  pose proof (norm_sq u) as Hu. pose proof (norm_sq w) as Hw.
  pose proof (norm_sq (u +v w)) as Huw.
  pose proof (norm_nonneg u) as Hu0. pose proof (norm_nonneg w) as Hw0.
  pose proof (norm_nonneg (u +v w)) as Huw0.
  assert (Hd : dot (u +v w) (u +v w) = dot u u + 2 * dot u w + dot w w)
    by (unfold dot, vadd; simpl; ring).
  destruct (Rle_dec (norm (u +v w)) (norm u + norm w)) as [| Hn];
    [assumption |].
  exfalso. nra.
Qed.

(** X24.  [Body.distance_to] is a metric on the positions. *)
Theorem distance_to_metric (a b c : Body) :
  body.distance_to a b = body.distance_to b a
  /\ 0 <= body.distance_to a b
  /\ (body.distance_to a b = 0 <-> pos a = pos b)
  /\ body.distance_to a c <= body.distance_to a b + body.distance_to b c.
Proof.
  unfold body.distance_to. repeat split.
  - apply norm_sub_sym.
  - apply norm_nonneg.
  - intros H. apply norm_zero_iff in H.
    apply vec_eq; apply (f_equal vx) in H as Hx; apply (f_equal vy) in H as Hy;
      apply (f_equal vz) in H as Hz; unfold vsub, vzero in *; simpl in *; lra.
  - intros ->. apply norm_zero_iff. vec_ring.
  - replace (pos a -v pos c) with ((pos a -v pos b) +v (pos b -v pos c))
      by vec_ring.
    apply norm_triangle.
Qed.

Lemma guarded_pair_potential_nonneg (bodies : list Body) (i j : nat) :
  (forall b, b ∈ bodies -> 0 <= mass b) ->
  0 <= spec.guarded_pair_potential bodies i j.
Proof.
  intros Hm. unfold spec.guarded_pair_potential.
  destruct (bodies !! i) as [bi |] eqn:Hi; [| lra].
  destruct (bodies !! j) as [bj |] eqn:Hj; [| lra].
  destruct (decide _) as [| Hne]; [lra |].
  apply list_elem_of_lookup_2 in Hi, Hj.
  pose proof (Hm _ Hi) as Hmi. pose proof (Hm _ Hj) as Hmj.
  pose proof G_pos as HG.
  assert (Hd : 0 < norm (pos bi -v pos bj)).
  { apply norm_pos. intros H. apply Hne.
    apply vec_eq; apply (f_equal vx) in H as Hx; apply (f_equal vy) in H as Hy;
      apply (f_equal vz) in H as Hz; unfold vsub, vzero in *; simpl in *; lra. }
  apply Rmult_le_pos; [| left; now apply Rinv_0_lt_compat].
  apply Rmult_le_pos; [| assumption]. apply Rmult_le_pos; lra.
Qed.

(** X25.  With nonnegative masses the gravitational part of
    [total_energy] is never positive: the energy is at most the sum of
    [Body.get_kinetic_energy] over the bodies. *)
Theorem total_energy_below_kinetic (bodies : list Body) :
  (forall b, b ∈ bodies -> 0 <= mass b) ->
  exists E,
    diagnostics.total_energy bodies = Ok E
    /\ E <= Rsum (body.get_kinetic_energy <$> bodies).
Proof.
  intros Hm. rewrite total_energy_closed. eexists. split; [reflexivity |].
  assert (Hk : spec.kinetic_energy bodies
               = Rsum (body.get_kinetic_energy <$> bodies)).
  { unfold spec.kinetic_energy. apply (big_ext Rplus 0). intros b _.
    unfold body.get_kinetic_energy. now rewrite lit_half. }
  rewrite Hk.
  assert (0 <= spec.pair_sum (length bodies)
                 (spec.guarded_pair_potential bodies)); [| lra].
  unfold spec.pair_sum. apply Rsum_nonneg. intros i _.
  apply Rsum_nonneg. intros j _.
  destruct (decide _); [| lra].
  now apply guarded_pair_potential_nonneg.
Qed.

Lemma total_energy_below_kinetic_witness :
  exists E,
    diagnostics.total_energy create_test_system = Ok E
    /\ E <= Rsum (body.get_kinetic_energy <$> create_test_system).
Proof.
  apply total_energy_below_kinetic.
  intros b Hb. unfold create_test_system in Hb.
  apply elem_of_cons in Hb as [-> | Hb]; [simpl; lra |].
  apply elem_of_cons in Hb as [-> | Hb]; [simpl; lra |].
  now apply elem_of_nil in Hb.
Defined.

Lemma checked_mod_ok (a b : Z) : b <> 0%Z -> checked_mod a b = Ok (a mod b)%Z.
Proof. intros Hb. unfold checked_mod. now rewrite decide_False. Qed.

Lemma mod_succ_nonzero (a d : Z) :
  d <> 0%Z -> Z.abs d <> 1%Z -> (a mod d = 0)%Z -> ((a + 1) mod d <> 0)%Z.
Proof.
  intros Hd H1 Ha Hs.
  apply Z.mod_divide in Ha; [| exact Hd].
  apply Z.mod_divide in Hs; [| exact Hd].
  assert (Hone : (d | 1)%Z).
  { replace 1%Z with (a + 1 - a)%Z by lia. now apply Z.divide_sub_r. }
  apply Z.divide_1_r in Hone. lia.
Qed.

Lemma mod_unit (a d : Z) : Z.abs d = 1%Z -> (a mod d = 0)%Z.
Proof.
  intros Hd. apply Z.mod_divide; [lia |].
  destruct (Z.abs_eq_or_opp d) as [H | H]; rewrite Hd in H.
  - rewrite <- H. apply Z.divide_1_l.
  - exists (- a)%Z. lia.
Qed.

Lemma add_trail_point_ok (self : Body) (trail : list vec) (decimation : Z) :
  decimation <> 0%Z ->
  body.add_trail_point self trail decimation
  = Ok (if decide ((Z.of_nat (length trail) mod decimation = 0)%Z)
        then trail ++ [pos self] else trail).
Proof.
  intros Hd. unfold body.add_trail_point.
  rewrite checked_mod_ok by exact Hd. rewrite bind_Ok.
  now destruct (decide _).
Qed.

(** X26.  What repeated calls of [Body.add_trail_point] leave in the
    trail: every position when [decimation] is 1 or -1; otherwise at most
    one new point, and none if the length of the trail is no multiple of
    [decimation]. *)
Theorem add_trail_point_decimation (decimation : Z) (selves : list Body)
    (trail : list vec) :
  decimation <> 0%Z ->
  for_each selves
    (fun self trail => body.add_trail_point self trail decimation) trail
  = Ok (trail ++
        (if decide (Z.abs decimation = 1%Z) then pos <$> selves
         else if decide ((Z.of_nat (length trail) mod decimation = 0)%Z)
              then take 1 (pos <$> selves)
              else [])).
Proof.
  intros Hd. revert trail.
  induction selves as [| b selves IH]; intros trail.
  - cbn [for_each]. f_equal. csimpl.
    repeat destruct (decide _); now rewrite app_nil_r.
  - cbn [for_each].
    rewrite (add_trail_point_ok b trail decimation Hd), bind_Ok, IH.
    destruct (decide (Z.abs decimation = 1%Z)) as [H1 | H1].
    + rewrite decide_True by now apply mod_unit.
      csimpl. now rewrite <- app_assoc.
    + destruct (decide ((Z.of_nat (length trail) mod decimation = 0)%Z))
        as [H0 | H0].
      * rewrite decide_False.
        -- csimpl. now rewrite app_nil_r, take_0.
        -- rewrite length_app. cbn [length].
           rewrite Nat2Z.inj_add. now apply mod_succ_nonzero.
      * now rewrite decide_False by exact H0.
Qed.

Lemma add_trail_point_decimation_witness :
  for_each [Earth; Sun; Earth]
    (fun self trail => body.add_trail_point self trail 10) []
  = Ok [pos Earth].
Proof.
  etransitivity; [apply add_trail_point_decimation; lia | reflexivity].
Defined.

Lemma filter_ext_in {A} (P Q : A -> Prop) `{!forall x, Decision (P x)}
    `{!forall x, Decision (Q x)} (l : list A) :
  (forall x, x ∈ l -> P x <-> Q x) -> filter P l = filter Q l.
Proof.
  induction l as [| x l IH]; intros Hext; [reflexivity |].
  rewrite !filter_cons.
  assert (Hx : P x <-> Q x) by (apply Hext, list_elem_of_here).
  rewrite IH by (intros y Hy; apply Hext; now apply list_elem_of_further).
  destruct (decide (P x)), (decide (Q x)); tauto.
Qed.

Lemma named_sun_app_l lower (bs : list Body) (b : Body) (i : nat) :
  (i < length bs)%nat ->
  named_sun lower (bs ++ [b]) i <-> named_sun lower bs i.
Proof.
  intros Hi. unfold named_sun. now rewrite lookup_app_l.
Qed.

Lemma named_sun_app_r lower (bs : list Body) (b : Body) :
  named_sun lower (bs ++ [b]) (length bs) <-> lower (name b) = "sun"%string.
Proof.
  unfold named_sun. rewrite lookup_app_r by lia.
  rewrite Nat.sub_diag. cbn. split.
  - now intros (b' & [= <-] & H).
  - intros H. now exists b.
Qed.

(** X27.  A system built by [add_body] keeps the bodies in order; its
    [planets] are all bodies not named as the sun, in order; its [sun] is
    the last body named as the sun, so that an earlier one is in [bodies]
    only. *)
Theorem add_body_partition (lower : string -> string) (bs : list Body) :
  let s := foldl (system.add_body lower) system.empty bs in
  system.bodies s = bs
  /\ system.planets s
     = filter (fun i => ~ named_sun lower bs i) (seq 0 (length bs))
  /\ system.sun s = last (filter (named_sun lower bs) (seq 0 (length bs))).
Proof.
  cbv zeta. induction bs as [| b bs IH] using rev_ind.
  - now cbn.
  - rewrite foldl_app. cbn [foldl].
    destruct IH as (Hb & Hp & Hs).
    set (s := foldl (system.add_body lower) system.empty bs) in *.
    rewrite length_app. cbn [length]. rewrite seq_app. cbn [seq].
    rewrite !filter_app, Nat.add_0_l.
    rewrite (filter_ext_in (fun i => ~ named_sun lower (bs ++ [b]) i)
               (fun i => ~ named_sun lower bs i) (seq 0 (length bs))).
    2:{ intros i Hi. apply elem_of_seq in Hi.
        rewrite named_sun_app_l by lia. reflexivity. }
    rewrite (filter_ext_in (named_sun lower (bs ++ [b]))
               (named_sun lower bs) (seq 0 (length bs))).
    2:{ intros i Hi. apply elem_of_seq in Hi.
        now apply named_sun_app_l. }
    rewrite !filter_cons, !filter_nil.
    unfold system.add_body. cbv zeta. rewrite Hb.
    destruct (decide (lower (name b) = "sun"%string)) as [Hn | Hn].
    + rewrite (decide_True (P := named_sun lower (bs ++ [b]) (length bs)))
        by now apply named_sun_app_r.
      rewrite (decide_False (P := ~ named_sun lower (bs ++ [b]) (length bs)))
        by (intros H; apply H; now apply named_sun_app_r).
      cbn [system.bodies system.planets system.sun].
      rewrite app_nil_r, last_snoc. now rewrite Hp.
    + rewrite (decide_False (P := named_sun lower (bs ++ [b]) (length bs)))
        by (intros H; apply Hn; now apply named_sun_app_r in H).
      rewrite (decide_True (P := ~ named_sun lower (bs ++ [b]) (length bs)))
        by (intros H; apply Hn; now apply named_sun_app_r in H).
      cbn [system.bodies system.planets system.sun].
      rewrite app_nil_r. now rewrite Hp, Hs.
Qed.

Lemma softened_distance (r s : R) : s <> 0 -> Rabs s <= sqrt (r ^ 2 + s ^ 2).
Proof.
  intros Hs. rewrite <- sqrt_Rsqr_abs. apply sqrt_le_1_alt.
  unfold Rsqr. nra.
Qed.

Lemma potential_term_bounds (m r s : R) :
  s <> 0 -> 0 <= m ->
  0 <= G * m / sqrt (r ^ 2 + s ^ 2) <= G * m / Rabs s.
Proof.
  intros Hs Hm. pose proof G_pos as HG.
  pose proof (softened_distance r s Hs) as Hd.
  assert (Ha : 0 < Rabs s) by now apply Rabs_pos_lt.
  assert (Hgm : 0 <= G * m) by (apply Rmult_le_pos; lra).
  split.
  - apply Rmult_le_pos; [exact Hgm |]. left. apply Rinv_0_lt_compat. lra.
  - apply Rmult_le_compat_l; [exact Hgm |].
    apply Rinv_le_contravar; assumption.
Qed.

(** X28.  With a nonzero softening and nonnegative masses
    [compute_potential_at_point] returns a potential between
    [- G * (total mass) / |softening|] and [0], wherever the point is. *)
Theorem compute_potential_at_point_bounds (p : vec) (bodies : list Body)
    (softening : R) :
  softening <> 0 -> (forall b, b ∈ bodies -> 0 <= mass b) ->
  exists U,
    surface.compute_potential_at_point p bodies softening = Ok U
    /\ - (G * Rsum (mass <$> bodies) / Rabs softening) <= U <= 0.
Proof.
  intros Hs Hm. unfold surface.compute_potential_at_point.
  assert (Ha : 0 < Rabs softening) by now apply Rabs_pos_lt.
  rewrite (for_each_accumulate _ _
             (fun b => - (G * mass b
                          / sqrt (norm (p -v pos b) ^ 2 + softening ^ 2)))).
  2:{ intros b E _. cbv zeta. unfold elements.math_sqrt.
      rewrite decide_True by nra. rewrite bind_Ok.
      pose proof (softened_distance (norm (p -v pos b)) softening Hs).
      rewrite checked_div_ok by lra. now rewrite bind_Ok. }
  eexists. split; [reflexivity |]. rewrite Rplus_0_l.
  unfold Rsum.
  induction bodies as [| b bodies IH]; rewrite ?fmap_cons;
    cbn [fmap list_fmap foldr].
  - unfold Rdiv. rewrite Rmult_0_r, Rmult_0_l. lra.
  - assert (Hb : 0 <= mass b) by (apply Hm, list_elem_of_here).
    destruct IH as [IH1 IH2].
    { intros b' Hb'. apply Hm. now apply list_elem_of_further. }
    pose proof (potential_term_bounds (mass b) (norm (p -v pos b))
                  softening Hs Hb) as [Ht1 Ht2].
    replace (G * (mass b + foldr Rplus 0 (mass <$> bodies)) / Rabs softening)
      with (G * mass b / Rabs softening
            + G * foldr Rplus 0 (mass <$> bodies) / Rabs softening)
      by (field; lra).
    lra.
Qed.

Lemma compute_potential_at_point_bounds_witness :
  exists U,
    surface.compute_potential_at_point (V3 0.5 0 0) create_test_system
      surface.EPS_POTENTIAL = Ok U
    /\ - (G * Rsum (mass <$> create_test_system)
          / Rabs surface.EPS_POTENTIAL) <= U <= 0.
Proof.
  apply compute_potential_at_point_bounds.
  - unfold surface.EPS_POTENTIAL. lra.
  - intros b Hb. unfold create_test_system in Hb.
    apply elem_of_cons in Hb as [-> | Hb]; [simpl; lra |].
    apply elem_of_cons in Hb as [-> | Hb]; [simpl; lra |].
    now apply elem_of_nil in Hb.
Defined.
